(** * Glitcher: a shallow embedding of [src/glitch.ts]

    The TypeScript class [Glitcher] paints a label three times per frame with
    per-channel horizontal offsets and shifts one random pixel row.  Every
    [number] of the source is an IEEE 754 binary64 value, so the embedding
    uses Rocq's primitive floats: [+], [*], [/] and the comparisons below are
    the very operations the JavaScript engine performs.

    What the class obtains from its host is supplied explicitly:
    - [Math.random()] is a sequence of draws, read through a call counter;
    - [Math.sin] is an implementation-approximated function of the engine;
    - [measureText] and the viewport size come from the page.
    The 2D context keeps its attributes between calls, and every painting
    call it receives is recorded together with the attributes in force. *)

From Stdlib Require Import ZArith QArith Qabs Lia Bool String List Floats.
From Stdlib Require Uint63.
Import ListNotations.

Set Warnings "-inexact-float".

#[local] Open Scope float_scope.

(** ** Numbers *)

Definition number := float.
Bind Scope float_scope with number.

(** JavaScript's [a > b] and [a >= b]; false as soon as one side is NaN. *)
Notation "x >? y" := (PrimFloat.ltb y x) (at level 70, no associativity) : float_scope.
Notation "x >=? y" := (PrimFloat.leb y x) (at level 70, no associativity) : float_scope.

Definition Math_PI : number := 3.141592653589793.

(** Every finite double is a whole number of quanta [2^-1074].  [SFquanta]
    is that whole number (signed); it is [0] on zeros, infinities and NaN. *)
Definition quantum : Z := 2 ^ 1074.

Definition SFquanta (x : spec_float) : Z :=
  match x with
  | S754_finite s m e => cond_Zopp s (Zpos m * 2 ^ (e + 1074))
  | _ => 0%Z
  end.

Definition SFfinite (x : spec_float) : bool :=
  match x with
  | S754_zero _ | S754_finite _ _ _ => true
  | _ => false
  end.

Definition quanta (x : number) : Z := SFquanta (Prim2SF x).

Definition finite (x : number) : Prop := SFfinite (Prim2SF x) = true.

(** The exact rational value of a finite double. *)
Definition F2Q (x : number) : Q := Qmake (quanta x) (Z.to_pos quantum).

(** The double that holds an integer of magnitude below [2^53]. *)
Definition Z2number (z : Z) : number :=
  match z with
  | Z0 => 0
  | Zpos _ => of_uint63 (Uint63.of_Z z)
  | Zneg p => - of_uint63 (Uint63.of_Z (Zpos p))
  end.

(** ECMAScript [ToInt32]: NaN and the infinities give [0]; a finite number is
    truncated toward zero and wrapped into the signed 32-bit range. *)
Definition truncate (x : number) : Z := Z.quot (quanta x) quantum.

Definition ToInt32 (x : number) : Z :=
  (truncate x + 2 ^ 31) mod 2 ^ 32 - 2 ^ 31.

(** [x >> k]: both operands go through [ToInt32], the count is taken modulo 32. *)
Definition sar (x k : number) : number :=
  Z2number (Z.shiftr (ToInt32 x) (Z.land (ToInt32 k) 31)).

Notation "x >> k" := (sar x k) (at level 65, left associativity) : float_scope.

(** [Math.floor]: the largest integer not above [x].  Zeros, infinities and
    NaN are returned unchanged, and so is a double whose exponent is not
    negative: it is an integer already. *)
Definition Math_floor (x : number) : number :=
  match Prim2SF x with
  | S754_finite _ _ e => if (0 <=? e)%Z then x else Z2number (quanta x / quantum)
  | _ => x
  end.

(** The conversions are specified by their lemmas; simplification leaves
    them folded. *)
Arguments quanta : simpl never.
Arguments Z2number : simpl never.
Arguments truncate : simpl never.
Arguments ToInt32 : simpl never.
Arguments sar : simpl never.
Arguments Math_floor : simpl never.

(** *** Rounding to nearest, ties to even

    [rne N k] is [N / 2^k] rounded to the nearest integer, ties to the even
    one.  [round_quanta u N] rounds the exact value [N * 2^-(1074+u)] to a
    double and returns its quanta: at most 53 significant bits are kept, and
    nothing below one quantum.  [round_signed] extends it to negative values. *)
Definition rne (N k : Z) : Z :=
  let q := (N / 2 ^ k)%Z in
  match (2 * (N mod 2 ^ k) ?= 2 ^ k)%Z with
  | Lt => q
  | Eq => if Z.even q then q else (q + 1)%Z
  | Gt => (q + 1)%Z
  end.

Definition round_quanta (u N : Z) : Z :=
  let k := Z.max (Z.log2 N - 52) u in
  (rne N k * 2 ^ (k - u))%Z.

Definition round_signed (u N : Z) : Z :=
  (Z.sgn N * round_quanta u (Z.abs N))%Z.

(** ** The host *)

(** [this.font] is the template literal
    [`${this.fontWeight} ${this.textSize}px ${this.fontFamily}`]; its three
    interpolated parts are kept as they are instead of being printed. *)
Inductive Font :=
| FontLiteral (css : string)
| FontTemplate (weight size : number) (family : string).

Record Host := {
  Math_random : nat -> number;       (* the i-th call of Math.random() *)
  Math_sin : number -> number;
  measureText : Font -> string -> number  (* context.measureText(text).width *)
}.

(** [document.documentElement.offsetWidth] and [offsetHeight] when read. *)
Record Viewport := { offsetWidth : number; offsetHeight : number }.

(** Code that calls [Math.random()] threads the number of calls made so far. *)
Definition Js (A : Type) : Type := nat -> A * nat.

Definition ret {A} (a : A) : Js A := fun n => (a, n).

Definition bind {A B} (c : Js A) (k : A -> Js B) : Js B :=
  fun n => let (a, n') := c n in k a n'.

Notation "x <- c ;; k" := (bind c (fun x => k))
  (at level 61, c at next level, right associativity).

Definition random (host : Host) : Js number :=
  fun n => (Math_random host n, S n).

(** ** The drawing surface *)

Inductive CompositeOp := source_over | lighter | darker | xor.

Module Canvas.

(** The attributes of a [CanvasRenderingContext2D] that the class sets. *)
Record Attributes := {
  font : Font;
  textAlign : string;
  fillStyle : string;
  globalAlpha : number;
  globalCompositeOperation : CompositeOp
}.

(** A painting call, with the attributes it was issued under.  [shiftRow]
    is the body of [renderScanline] once its samples are drawn:
    [getImageData(0, y, width, 1)], [s] added to every byte of the row,
    [putImageData] of the row at [(x, y)]. *)
Inductive Call :=
| clearRect (x y w h : number)
| fillText (text : string) (x y : number) (under : Attributes)
| shiftRow (y width s x : number).

Record Context := { attributes : Attributes; calls : list Call }.

Record Element := { width : number; height : number }.

(** A context as [getContext("2d")] first returns it, and as it is again
    after the canvas' [width] or [height] is assigned. *)
Definition defaults : Attributes :=
  {| font := FontLiteral "10px sans-serif"; textAlign := "start";
     fillStyle := "#000000"; globalAlpha := 1;
     globalCompositeOperation := source_over |}.

Definition createElement : Element := {| width := 300; height := 150 |}.
Definition getContext : Context := {| attributes := defaults; calls := [] |}.

Definition reset (c : Context) : Context :=
  {| attributes := defaults; calls := calls c |}.

Definition set_font v (c : Context) : Context :=
  let a := attributes c in
  {| attributes := {| font := v; textAlign := textAlign a; fillStyle := fillStyle a;
                      globalAlpha := globalAlpha a;
                      globalCompositeOperation := globalCompositeOperation a |};
     calls := calls c |}.

Definition set_textAlign v (c : Context) : Context :=
  let a := attributes c in
  {| attributes := {| font := font a; textAlign := v; fillStyle := fillStyle a;
                      globalAlpha := globalAlpha a;
                      globalCompositeOperation := globalCompositeOperation a |};
     calls := calls c |}.

Definition set_fillStyle v (c : Context) : Context :=
  let a := attributes c in
  {| attributes := {| font := font a; textAlign := textAlign a; fillStyle := v;
                      globalAlpha := globalAlpha a;
                      globalCompositeOperation := globalCompositeOperation a |};
     calls := calls c |}.

(** [globalAlpha = v] takes effect for a number from 0 to 1; any other
    value, NaN included, is ignored and the attribute keeps what it held. *)
Definition set_globalAlpha v (c : Context) : Context :=
  if (0 <=? v) && (v <=? 1) then
    let a := attributes c in
    {| attributes := {| font := font a; textAlign := textAlign a; fillStyle := fillStyle a;
                        globalAlpha := v;
                        globalCompositeOperation := globalCompositeOperation a |};
       calls := calls c |}
  else c.

Definition set_globalCompositeOperation v (c : Context) : Context :=
  let a := attributes c in
  {| attributes := {| font := font a; textAlign := textAlign a; fillStyle := fillStyle a;
                      globalAlpha := globalAlpha a; globalCompositeOperation := v |};
     calls := calls c |}.

Definition call (k : Call) (c : Context) : Context :=
  {| attributes := attributes c; calls := calls c ++ [k] |}.

Definition do_fillText (text : string) (x y : number) (c : Context) : Context :=
  call (fillText text x y (attributes c)) c.

(** A number that is, its fraction dropped, a 32-bit integer other than
    zero. *)
Definition nonzero_long (x : number) : bool :=
  let k := truncate x in
  negb (k =? 0)%Z && (- 2 ^ 31 <=? k)%Z && (k <? 2 ^ 31)%Z.

(** [getImageData(sx, sy, sw, sh)] takes its arguments as integers.  It
    throws an IndexSizeError when [sw] or [sh] is zero, and it returns the
    pixels of the rectangle when both are 32-bit integers other than zero.
    (A value that is NaN, infinite or beyond 32 bits is rejected by some
    engines and wrapped by others.) *)
Definition getImageData_returns (sw sh : number) : bool :=
  nonzero_long sw && nonzero_long sh.

End Canvas.

(** ** Options and instance state *)

Module IGlitchesOptions.
Record t := {
  text : string;
  fontFamily : option string;
  fontWeight : option number;
  phaseStep : option number;
  alphaMin : option number;
  amplitudeBase : option number;
  amplitudeRange : option number;
  glitchAmplitude : option number;
  glitchThreshold : option number
}.
End IGlitchesOptions.

Record Glitcher := {
  text : string;
  fontFamily : string;
  fontWeight : number;
  textSize : number;
  canvas : Canvas.Element;
  context : Canvas.Context;
  width : number;
  height : number;
  font : Font;
  textWidth : number;
  channel : number;
  compOp : CompositeOp;
  scanlineRange : number;
  scanlineBase : number;
  glitchThreshold : number;
  glitchAmplitude : number;
  alphaMin : number;
  amplitudeRange : number;
  amplitudeBase : number;
  amplitude : number;
  phaseStep : number;
  phase : number;
  scanlineShift : number
}.

(** Assignments [this.f = v]: one field replaced, the others carried over. *)
Definition set_fontFamily v '(Build_Glitcher a _ c d e f g h i j k l m n o p q r s t u w x) :=
  Build_Glitcher a v c d e f g h i j k l m n o p q r s t u w x.
Definition set_fontWeight v '(Build_Glitcher a b _ d e f g h i j k l m n o p q r s t u w x) :=
  Build_Glitcher a b v d e f g h i j k l m n o p q r s t u w x.
Definition set_textSize v '(Build_Glitcher a b c _ e f g h i j k l m n o p q r s t u w x) :=
  Build_Glitcher a b c v e f g h i j k l m n o p q r s t u w x.
Definition set_canvas v '(Build_Glitcher a b c d _ f g h i j k l m n o p q r s t u w x) :=
  Build_Glitcher a b c d v f g h i j k l m n o p q r s t u w x.
Definition set_context v '(Build_Glitcher a b c d e _ g h i j k l m n o p q r s t u w x) :=
  Build_Glitcher a b c d e v g h i j k l m n o p q r s t u w x.
Definition set_width v '(Build_Glitcher a b c d e f _ h i j k l m n o p q r s t u w x) :=
  Build_Glitcher a b c d e f v h i j k l m n o p q r s t u w x.
Definition set_height v '(Build_Glitcher a b c d e f g _ i j k l m n o p q r s t u w x) :=
  Build_Glitcher a b c d e f g v i j k l m n o p q r s t u w x.
Definition set_font v '(Build_Glitcher a b c d e f g h _ j k l m n o p q r s t u w x) :=
  Build_Glitcher a b c d e f g h v j k l m n o p q r s t u w x.
Definition set_textWidth v '(Build_Glitcher a b c d e f g h i _ k l m n o p q r s t u w x) :=
  Build_Glitcher a b c d e f g h i v k l m n o p q r s t u w x.
Definition set_channel v '(Build_Glitcher a b c d e f g h i j _ l m n o p q r s t u w x) :=
  Build_Glitcher a b c d e f g h i j v l m n o p q r s t u w x.
Definition set_compOp v '(Build_Glitcher a b c d e f g h i j k _ m n o p q r s t u w x) :=
  Build_Glitcher a b c d e f g h i j k v m n o p q r s t u w x.
Definition set_scanlineRange v '(Build_Glitcher a b c d e f g h i j k l _ n o p q r s t u w x) :=
  Build_Glitcher a b c d e f g h i j k l v n o p q r s t u w x.
Definition set_scanlineBase v '(Build_Glitcher a b c d e f g h i j k l m _ o p q r s t u w x) :=
  Build_Glitcher a b c d e f g h i j k l m v o p q r s t u w x.
Definition set_glitchThreshold v '(Build_Glitcher a b c d e f g h i j k l m n _ p q r s t u w x) :=
  Build_Glitcher a b c d e f g h i j k l m n v p q r s t u w x.
Definition set_glitchAmplitude v '(Build_Glitcher a b c d e f g h i j k l m n o _ q r s t u w x) :=
  Build_Glitcher a b c d e f g h i j k l m n o v q r s t u w x.
Definition set_alphaMin v '(Build_Glitcher a b c d e f g h i j k l m n o p _ r s t u w x) :=
  Build_Glitcher a b c d e f g h i j k l m n o p v r s t u w x.
Definition set_amplitudeRange v '(Build_Glitcher a b c d e f g h i j k l m n o p q _ s t u w x) :=
  Build_Glitcher a b c d e f g h i j k l m n o p q v s t u w x.
Definition set_amplitudeBase v '(Build_Glitcher a b c d e f g h i j k l m n o p q r _ t u w x) :=
  Build_Glitcher a b c d e f g h i j k l m n o p q r v t u w x.
Definition set_amplitude v '(Build_Glitcher a b c d e f g h i j k l m n o p q r s _ u w x) :=
  Build_Glitcher a b c d e f g h i j k l m n o p q r s v u w x.
Definition set_phaseStep v '(Build_Glitcher a b c d e f g h i j k l m n o p q r s t _ w x) :=
  Build_Glitcher a b c d e f g h i j k l m n o p q r s t v w x.
Definition set_phase v '(Build_Glitcher a b c d e f g h i j k l m n o p q r s t u _ x) :=
  Build_Glitcher a b c d e f g h i j k l m n o p q r s t u v x.
Definition set_scanlineShift v '(Build_Glitcher a b c d e f g h i j k l m n o p q r s t u w _) :=
  Build_Glitcher a b c d e f g h i j k l m n o p q r s t u w v.

(** [this.context.<attribute> = v] and painting calls on [this.context]. *)
Definition on_context (f : Canvas.Context -> Canvas.Context) (this : Glitcher) : Glitcher :=
  set_context (f (context this)) this.

(** [throw new Error(message)] aborts the constructor. *)
Inductive Completion (A : Type) :=
| Normal (a : A)
| Throw (message : string).
Arguments Normal {A} a.
Arguments Throw {A} message.

Definition and_then {A B} (c : Completion A) (k : A -> Completion B) : Completion B :=
  match c with
  | Normal a => k a
  | Throw m => Throw m
  end.

Notation "'do' x <- c ; k" := (and_then c (fun x => k))
  (at level 10, x name, c at level 100, k at level 200).

(** ** The methods of [Glitcher] *)

Section Methods.

Variable host : Host.

(** [initOptions(options)], lines 69-142. *)
Definition initOptions (vp : Viewport) (options : IGlitchesOptions.t)
    (this : Glitcher) : Completion Glitcher :=
  let this := set_width (offsetWidth vp) this in
  let this := set_height (offsetHeight vp) this in
  let this := set_textSize (Math_floor (width this / 7)) this in
  let this :=
    if textSize this >? height this
    then set_textSize (Math_floor (height this / 1.5)) this
    else this in
  let this := set_font (FontTemplate (fontWeight this) (textSize this) (fontFamily this)) this in
  let this := on_context (Canvas.set_font (font this)) this in
  let this :=
    set_textWidth
      (measureText host (Canvas.font (Canvas.attributes (context this))) (text this)) this in
  let this := set_channel 0 this in
  let this := set_compOp lighter this in
  let this := set_phase 0.0 this in
  let this := set_amplitude 0.0 this in
  let this := set_scanlineBase 40 this in
  let this := set_scanlineRange 40 this in
  let this := set_scanlineShift 15 this in
  do this <-
    match IGlitchesOptions.phaseStep options with
    | Some v =>
        if (v >? 1) || (v <? 0)
        then Throw "phaseStep must be in range [0,1]"
        else Normal (set_phaseStep v this)
    | None => Normal (set_phaseStep 0.05 this)
    end;
  do this <-
    match IGlitchesOptions.amplitudeBase options with
    | Some v =>
        if (v >? 5) || (v <? 0)
        then Throw "amplitudeBase must be in range [0,5]"
        else Normal (set_amplitudeBase v this)
    | None => Normal (set_amplitudeBase 2.0 this)
    end;
  do this <-
    match IGlitchesOptions.amplitudeRange options with
    | Some v =>
        if (v >? 5) || (v <? 0)
        then Throw "amplitudeRange must be in range [0,5]"
        else Normal (set_amplitudeRange v this)
    | None => Normal (set_amplitudeRange 2.0 this)
    end;
  do this <-
    match IGlitchesOptions.alphaMin options with
    | Some v =>
        if (v >? 1) || (v <? 0)
        then Throw "alphaMin must be in range [0,1]"
        else Normal (set_alphaMin v this)
    | None => Normal (set_alphaMin 0.8 this)
    end;
  do this <-
    match IGlitchesOptions.glitchAmplitude options with
    | Some v =>
        if (v >? 100) || (v <? 0)
        then Throw "glitchAmplitude must be in range [0,100]"
        else Normal (set_glitchAmplitude v this)
    | None => Normal (set_glitchAmplitude 20.0 this)
    end;
  do this <-
    match IGlitchesOptions.glitchThreshold options with
    | Some v =>
        if (v >? 1) || (v <? 0)
        then Throw "glitchThreshold must be in range [0,1]"
        else Normal (set_glitchThreshold v this)
    | None => Normal (set_glitchThreshold 0.9 this)
    end;
  Normal this.

(** [resize()], lines 223-238.  [this.canvas] is an object, so the guard
    [if (this.canvas)] holds; assigning a canvas dimension puts the
    context back to its default attributes. *)
Definition resize (vp : Viewport) (this : Glitcher) : Glitcher :=
  let this := set_width (offsetWidth vp) this in
  let this := set_height (offsetHeight vp) this in
  let this :=
    on_context Canvas.reset
      (set_canvas {| Canvas.width := Canvas.width (canvas this);
                     Canvas.height := height this |} this) in
  let this :=
    on_context Canvas.reset
      (set_canvas {| Canvas.width := width this;
                     Canvas.height := Canvas.height (canvas this) |} this) in
  let this := set_textSize (Math_floor (Canvas.width (canvas this) / 14)) this in
  let this :=
    if textSize this >? height this
    then set_textSize (Math_floor (Canvas.height (canvas this) / 1.5)) this
    else this in
  let this := set_font (FontTemplate (fontWeight this) (textSize this) (fontFamily this)) this in
  let this := on_context (Canvas.set_textAlign "center") this in
  let this := on_context (Canvas.set_font (font this)) this in
  set_textWidth
    (measureText host (Canvas.font (Canvas.attributes (context this))) (text this)) this.

(** [renderChannels(x1, x2, x3)], lines 195-206. *)
Definition renderChannels (x1 x2 x3 : number) (this : Glitcher) : Glitcher :=
  let this := on_context (Canvas.set_font (font this)) this in
  let this := on_context (Canvas.set_fillStyle "rgb(255,0,0)") this in
  let this := on_context (Canvas.do_fillText (text this) x1 (height this / 2)) this in
  let this := on_context (Canvas.set_globalCompositeOperation (compOp this)) this in
  let this := on_context (Canvas.set_fillStyle "rgb(0,255,0)") this in
  let this := on_context (Canvas.do_fillText (text this) x2 (height this / 2)) this in
  let this := on_context (Canvas.set_fillStyle "rgb(0,0,255)") this in
  on_context (Canvas.do_fillText (text this) x3 (height this / 2)) this.

(** The three samples of [renderScanline], lines 209, 213 and 214. *)
Definition scanline_y (this : Glitcher) (r : number) : number :=
  (height this * r) >> 0.
Definition scanline_s (this : Glitcher) (r : number) : number :=
  (scanlineBase this + scanlineRange this * r) >> 0.
Definition scanline_x (this : Glitcher) (r : number) : number :=
  (- scanlineShift this + scanlineShift this * 2 * r) >> 0.

(** [renderScanline()], lines 208-221, for a row that line 210 can read.
    [getImageData(0, y, this.width, 1)] throws when the width is zero as
    an integer ([Canvas.getImageData_returns] is then false): the exception
    ends the frame before [this.tick()] asks for the next one.
    How many scanline passes and draws a frame makes is therefore stated
    for a readable row. *)
Definition renderScanline (this : Glitcher) : Js Glitcher :=
  r <- random host ;;
  let y := scanline_y this r in
  r <- random host ;;
  let s := scanline_s this r in
  r <- random host ;;
  let x := scanline_x this r in
  ret (on_context (Canvas.call (Canvas.shiftRow y (width this) s x)) this).

(** The offset [x0] of [render], lines 161-168: [r] is the draw compared
    with [glitchThreshold]. *)
Definition render_x0 (this : Glitcher) (r : number) : number :=
  let x0 := (amplitude this * Math_sin host (Math_PI * 2 * phase this)) >> 0 in
  if r >=? glitchThreshold this then x0 * glitchAmplitude this else x0.

(** [render()], lines 160-193. *)
Definition render (this : Glitcher) : Js Glitcher :=
  r <- random host ;;
  let x0 := render_x0 this r in
  let x1 := width this >> 1 in
  let x2 := x1 + x0 in
  let x3 := x1 - x0 in
  let this := on_context (Canvas.call (Canvas.clearRect 0 0 (width this) (height this))) this in
  r <- random host ;;
  let this :=
    on_context (Canvas.set_globalAlpha (alphaMin this + (1 - alphaMin this) * r)) this in
  let this :=
    if channel this =? 0 then renderChannels x1 x2 x3 this
    else if channel this =? 1 then renderChannels x2 x3 x1 this
    else if channel this =? 2 then renderChannels x3 x1 x2 this
    else this in
  this <- renderScanline this ;;
  r <- random host ;;
  if Math_floor (r * 2) >? 1 then renderScanline this else ret this.

(** The callback that [tick()] hands to [requestAnimationFrame], lines
    146-156: one animation frame.  Its last statement, [this.tick()],
    registers the same callback for the next frame; [ticks] runs the
    frames one after the other. *)
Definition tick (this : Glitcher) : Js Glitcher :=
  let this := set_phase (phase this + phaseStep this) this in
  this <-
    (if phase this >? 1 then
       let this := set_phase 0.0 this in
       let this := set_channel (if channel this =? 2 then 0 else channel this + 1) this in
       r <- random host ;;
       ret (set_amplitude (amplitudeBase this + amplitudeRange this * r) this)
     else ret this) ;;
  render this.

Fixpoint ticks (k : nat) (this : Glitcher) : Js Glitcher :=
  match k with
  | O => ret this
  | S k' => this <- tick this ;; ticks k' this
  end.

(** [new Glitcher(querySelector, options)], lines 38-67: the field
    initialisers, the canvas and its 2D context, then [initOptions] and
    [resize].  The closing [this.tick()] only registers the first frame.
    The styling of the wrapper element touches no field of the instance. *)
Definition new_Glitcher (vp : Viewport) (options : IGlitchesOptions.t)
    : Completion Glitcher :=
  let this :=
    {| text := IGlitchesOptions.text options;
       fontFamily := "Arial"; fontWeight := 500; textSize := 0;
       canvas := Canvas.createElement; context := Canvas.getContext;
       width := 0; height := 0; font := FontLiteral ""; textWidth := 0;
       channel := 0; compOp := lighter;
       scanlineRange := 0; scanlineBase := 0;
       glitchThreshold := 0; glitchAmplitude := 0; alphaMin := 0;
       amplitudeRange := 0; amplitudeBase := 0; amplitude := 0;
       phaseStep := 0; phase := 0; scanlineShift := 0 |} in
  let this :=
    match IGlitchesOptions.fontWeight options with
    | Some v => set_fontWeight v this
    | None => this
    end in
  let this :=
    match IGlitchesOptions.fontFamily options with
    | Some v => set_fontFamily v this
    | None => this
    end in
  do this <- initOptions vp options this;
  Normal (resize vp this).

End Methods.

(** ** Vocabulary of the properties *)

(** The six range-checked options, in the order in which [initOptions]
    checks them, with the documented bounds and defaults. *)
Inductive Field :=
| PhaseStep | AmplitudeBase | AmplitudeRange | AlphaMin | GlitchAmplitude | GlitchThreshold.

Definition fields : list Field :=
  [PhaseStep; AmplitudeBase; AmplitudeRange; AlphaMin; GlitchAmplitude; GlitchThreshold].

Definition supplied (f : Field) (o : IGlitchesOptions.t) : option number :=
  match f with
  | PhaseStep => IGlitchesOptions.phaseStep o
  | AmplitudeBase => IGlitchesOptions.amplitudeBase o
  | AmplitudeRange => IGlitchesOptions.amplitudeRange o
  | AlphaMin => IGlitchesOptions.alphaMin o
  | GlitchAmplitude => IGlitchesOptions.glitchAmplitude o
  | GlitchThreshold => IGlitchesOptions.glitchThreshold o
  end.

Definition effective (f : Field) (this : Glitcher) : number :=
  match f with
  | PhaseStep => phaseStep this
  | AmplitudeBase => amplitudeBase this
  | AmplitudeRange => amplitudeRange this
  | AlphaMin => alphaMin this
  | GlitchAmplitude => glitchAmplitude this
  | GlitchThreshold => glitchThreshold this
  end.

Definition lower (f : Field) : number := 0.

Definition upper (f : Field) : number :=
  match f with
  | PhaseStep | AlphaMin | GlitchThreshold => 1
  | AmplitudeBase | AmplitudeRange => 5
  | GlitchAmplitude => 100
  end.

Definition default (f : Field) : number :=
  match f with
  | PhaseStep => 0.05
  | AmplitudeBase => 2.0
  | AmplitudeRange => 2.0
  | AlphaMin => 0.8
  | GlitchAmplitude => 20.0
  | GlitchThreshold => 0.9
  end.

Definition field_name (f : Field) : string :=
  match f with
  | PhaseStep => "phaseStep"
  | AmplitudeBase => "amplitudeBase"
  | AmplitudeRange => "amplitudeRange"
  | AlphaMin => "alphaMin"
  | GlitchAmplitude => "glitchAmplitude"
  | GlitchThreshold => "glitchThreshold"
  end.

Definition range_text (f : Field) : string :=
  match f with
  | PhaseStep | AlphaMin | GlitchThreshold => "[0,1]"
  | AmplitudeBase | AmplitudeRange => "[0,5]"
  | GlitchAmplitude => "[0,100]"
  end.

(** The message that names a field and its valid range. *)
Definition range_message (f : Field) : string :=
  (field_name f ++ " must be in range " ++ range_text f)%string.

(** A supplied value above the upper or below the lower bound. *)
Definition offending (f : Field) (o : IGlitchesOptions.t) : bool :=
  match supplied f o with
  | Some v => (v >? upper f) || (v <? lower f)
  | None => false
  end.

Definition first_offender (o : IGlitchesOptions.t) : option Field :=
  find (fun f => offending f o) fields.

(** The options [initOptions] has checked when it comes to [f]. *)
Definition checked_before (f : Field) : list Field :=
  match f with
  | PhaseStep => []
  | AmplitudeBase => [PhaseStep]
  | AmplitudeRange => [PhaseStep; AmplitudeBase]
  | AlphaMin => [PhaseStep; AmplitudeBase; AmplitudeRange]
  | GlitchAmplitude => [PhaseStep; AmplitudeBase; AmplitudeRange; AlphaMin]
  | GlitchThreshold => [PhaseStep; AmplitudeBase; AmplitudeRange; AlphaMin; GlitchAmplitude]
  end.

(** The value an option takes: the supplied one, else the default. *)
Definition chosen (f : Field) (o : IGlitchesOptions.t) : number :=
  match supplied f o with Some v => v | None => default f end.

(** A value the documented interval holds: [lower f <= v <= upper f]. *)
Definition in_range (f : Field) (v : number) : Prop :=
  (lower f <=? v) = true /\ (v <=? upper f) = true.

(** A draw of [Math.random()]: [0 <= r < 1]. *)
Definition unit_draw (r : number) : Prop :=
  (0 <=? r) = true /\ (r <? 1) = true.

(** The frame wraps when the advanced phase exceeds 1. *)
Definition wraps (this : Glitcher) : bool :=
  phase this + phaseStep this >? 1.

(** [same_but_context a b]: [b] is [a] with another context. *)
Definition same_but_context (a b : Glitcher) : Prop := b = set_context (context b) a.

(** The fields one frame assigns before it paints, lines 146-153. *)
Definition advanced (host : Host) (this : Glitcher) (n : nat) : Glitcher :=
  let p := phase this + phaseStep this in
  if p >? 1
  then set_amplitude (amplitudeBase this + amplitudeRange this * Math_random host n)
         (set_channel (if channel this =? 2 then 0 else channel this + 1)
            (set_phase 0.0 (set_phase p this)))
  else set_phase p this.

(** The instance [render] paints on: cleared, with the frame's alpha ... *)
Definition prepared (host : Host) (this : Glitcher) (n : nat) : Glitcher :=
  let this := on_context (Canvas.call (Canvas.clearRect 0 0 (width this) (height this))) this in
  on_context
    (Canvas.set_globalAlpha (alphaMin this + (1 - alphaMin this) * Math_random host (S n)))
    this.

(** ... and after the three text passes, lines 161-188. *)
Definition painted (host : Host) (this : Glitcher) (n : nat) : Glitcher :=
  let x0 := render_x0 host this (Math_random host n) in
  let x1 := width this >> 1 in
  let x2 := x1 + x0 in
  let x3 := x1 - x0 in
  let this := prepared host this n in
  if channel this =? 0 then renderChannels x1 x2 x3 this
  else if channel this =? 1 then renderChannels x2 x3 x1 this
  else if channel this =? 2 then renderChannels x3 x1 x2 this
  else this.

(** The calls one [render] adds to the log of the context. *)
Definition frame_calls (host : Host) (this : Glitcher) (n : nat) : list Canvas.Call :=
  skipn (List.length (Canvas.calls (context this)))
        (Canvas.calls (context (fst (render host this n)))).

(** The text passes among some calls: fill style, horizontal position and
    the composite operation in force. *)
Definition text_passes (cs : list Canvas.Call) : list (string * number * CompositeOp) :=
  flat_map (fun c =>
              match c with
              | Canvas.fillText _ x _ a =>
                  [(Canvas.fillStyle a, x, Canvas.globalCompositeOperation a)]
              | _ => []
              end) cs.

(** The scanline passes among some calls: brightness offset and displacement. *)
Definition scanline_passes (cs : list Canvas.Call) : list (number * number) :=
  flat_map (fun c =>
              match c with
              | Canvas.shiftRow _ _ s x => [(s, x)]
              | _ => []
              end) cs.

(** The offset as the specification words it, with [Math.floor] in place of
    the source's [>> 0]. *)
Definition floored_x0 (host : Host) (this : Glitcher) (r : number) : number :=
  let x0 := Math_floor (amplitude this * Math_sin host (Math_PI * 2 * phase this)) in
  if r >=? glitchThreshold this then x0 * glitchAmplitude this else x0.

(** The red pass as the specification words it: painted with the mode that
    replaces what is there, the context's default "source-over". *)
Definition red_replaces (cs : list Canvas.Call) : Prop :=
  exists x, hd_error (text_passes cs) = Some ("rgb(255,0,0)"%string, x, source_over).


(** The third double below 1, [1 - 3 * 2^-53]: up to this draw
    [40 + 40 * r] rounds below 80. *)
Definition third_below_one : number := 0x1.ffffffffffffdp-1.

(** The ranges of the two scanline samples. *)
Definition scanline_sample_ok (s x : number) : Prop :=
  (40 <=? s) = true /\ (s <=? 80) = true /\ (-15 <=? x) = true /\ (x <? 15) = true.

(** ** A sample page

    A host on which the model runs: every draw of [Math.random()] is [r],
    the sine is a Taylor polynomial after reduction to one turn, and a glyph
    is eight pixels wide. *)
Fixpoint sin_tail (k : nat) (y2 i : number) : number :=
  match k with
  | O => 1
  | S k' => 1 - y2 / (i * (i + 1)) * sin_tail k' y2 (i + 2)
  end.

Definition sin_series (x : number) : number :=
  let turns := Math_floor (x / (Math_PI * 2) + 0.5) in
  let y := x - turns * (Math_PI * 2) in
  y * sin_tail 14 (y * y) 2.

Definition sample_host (r : number) : Host :=
  {| Math_random := fun _ => r;
     Math_sin := sin_series;
     measureText := fun _ s => Z2number (8 * Z.of_nat (String.length s)) |}.

Definition sample_viewport : Viewport :=
  {| offsetWidth := 1280; offsetHeight := 720 |}.

(** Options with nothing but the text. *)
Definition only_text (s : string) : IGlitchesOptions.t :=
  {| IGlitchesOptions.text := s;
     IGlitchesOptions.fontFamily := None; IGlitchesOptions.fontWeight := None;
     IGlitchesOptions.phaseStep := None; IGlitchesOptions.alphaMin := None;
     IGlitchesOptions.amplitudeBase := None; IGlitchesOptions.amplitudeRange := None;
     IGlitchesOptions.glitchAmplitude := None; IGlitchesOptions.glitchThreshold := None |}.

(** Options that step a quarter turn per frame with a fixed amplitude. *)
Definition quarter_turn : IGlitchesOptions.t :=
  {| IGlitchesOptions.text := "HI";
     IGlitchesOptions.fontFamily := None; IGlitchesOptions.fontWeight := None;
     IGlitchesOptions.phaseStep := Some 0.25; IGlitchesOptions.alphaMin := None;
     IGlitchesOptions.amplitudeBase := Some 2.5; IGlitchesOptions.amplitudeRange := Some 0;
     IGlitchesOptions.glitchAmplitude := None; IGlitchesOptions.glitchThreshold := Some 1 |}.

(** Options that supply [amplitudeBase] only. *)
Definition with_amplitudeBase (v : number) : IGlitchesOptions.t :=
  {| IGlitchesOptions.text := "HI";
     IGlitchesOptions.fontFamily := None; IGlitchesOptions.fontWeight := None;
     IGlitchesOptions.phaseStep := None; IGlitchesOptions.alphaMin := None;
     IGlitchesOptions.amplitudeBase := Some v; IGlitchesOptions.amplitudeRange := None;
     IGlitchesOptions.glitchAmplitude := None; IGlitchesOptions.glitchThreshold := None |}.

(** The instance a successful construction returns; the bare field
    initialisers when it throws. *)
Definition constructed (c : Completion Glitcher) : Glitcher :=
  match c with
  | Normal this => this
  | Throw _ =>
      {| text := ""; fontFamily := "Arial"; fontWeight := 500; textSize := 0;
         canvas := Canvas.createElement; context := Canvas.getContext;
         width := 0; height := 0; font := FontLiteral ""; textWidth := 0;
         channel := 0; compOp := lighter;
         scanlineRange := 0; scanlineBase := 0;
         glitchThreshold := 0; glitchAmplitude := 0; alphaMin := 0;
         amplitudeRange := 0; amplitudeBase := 0; amplitude := 0;
         phaseStep := 0; phase := 0; scanlineShift := 0 |}
  end.

(** Options that supply [phaseStep] only. *)
Definition with_phaseStep (v : number) : IGlitchesOptions.t :=
  {| IGlitchesOptions.text := "HI";
     IGlitchesOptions.fontFamily := None; IGlitchesOptions.fontWeight := None;
     IGlitchesOptions.phaseStep := Some v; IGlitchesOptions.alphaMin := None;
     IGlitchesOptions.amplitudeBase := None; IGlitchesOptions.amplitudeRange := None;
     IGlitchesOptions.glitchAmplitude := None; IGlitchesOptions.glitchThreshold := None |}.

(** Options that supply every field. *)
Definition fully_specified : IGlitchesOptions.t :=
  {| IGlitchesOptions.text := "GLITCH";
     IGlitchesOptions.fontFamily := Some "Courier"%string;
     IGlitchesOptions.fontWeight := Some 700;
     IGlitchesOptions.phaseStep := Some 0.5; IGlitchesOptions.alphaMin := Some 0.25;
     IGlitchesOptions.amplitudeBase := Some 1; IGlitchesOptions.amplitudeRange := Some 4;
     IGlitchesOptions.glitchAmplitude := Some 100; IGlitchesOptions.glitchThreshold := Some 0 |}.

(** ** Layout and the pixel row *)

(** The context attributes [resize] leaves behind: the defaults of a canvas
    whose size was assigned, then the alignment and the font. *)
Definition sized_attributes (f : Font) : Canvas.Attributes :=
  {| Canvas.font := f; Canvas.textAlign := "center"; Canvas.fillStyle := "#000000";
     Canvas.globalAlpha := 1; Canvas.globalCompositeOperation := source_over |}.

(** The text size chosen for a viewport: lines 73-76 with [d = 7], lines
    229-232 with [d = 14]. *)
Definition text_size_for (d : number) (vp : Viewport) : number :=
  let ts := Math_floor (offsetWidth vp / d) in
  if ts >? offsetHeight vp then Math_floor (offsetHeight vp / 1.5) else ts.

(** The same choice on whole numbers of pixels. *)
Definition whole_text_size (D W H : Z) : Z :=
  if (H <? W / D)%Z then (2 * H / 3)%Z else (W / D)%Z.

(** [ImageData.data] is a [Uint8ClampedArray].  A store converts the number
    with ToUint8Clamp: NaN gives 0, anything else is clamped to [0, 255] and
    rounded to the nearest integer, ties to even. *)
Definition ToUint8Clamp (x : number) : Z :=
  match Prim2SF x with
  | S754_nan => 0%Z
  | S754_infinity false => 255%Z
  | S754_infinity true => 0%Z
  | _ => Z.max 0 (Z.min 255 (rne (quanta x) 1074))
  end.

(** [d[i]] read as a number; [undefined] beyond the end. *)
Definition read (i : nat) (d : list Z) : number :=
  match nth_error d i with
  | Some b => Z2number b
  | None => nan
  end.

(** [d[i] = v]; a store beyond the end is ignored. *)
Definition store (i : nat) (v : number) (d : list Z) : list Z :=
  match skipn i d with
  | [] => d
  | _ :: rest => firstn i d ++ ToUint8Clamp v :: rest
  end.

(** The loop of [renderScanline], lines 212 and 216-218:
    [i = d.length; while (i-- > 0) d[i] += s], on the bytes of the row. *)
Fixpoint brighten_from (i : nat) (s : number) (d : list Z) : list Z :=
  match i with
  | O => d
  | S i' => brighten_from i' s (store i' (read i' d + s) d)
  end.

Definition brighten (s : number) (d : list Z) : list Z :=
  brighten_from (List.length d) s d.

(** The two bits that stand for the location of a remainder: a quotient [q]
    whose remainder is located by [l] rounds like [4 * q + loc_code l]. *)
Definition loc_code (l : location) : Z :=
  match l with
  | loc_Exact => 0
  | loc_Inexact Lt => 1
  | loc_Inexact Eq => 2
  | loc_Inexact Gt => 3
  end.

(** * Binary64 arithmetic

    The primitive operations are specified by [SpecFloat]'s [SFadd] and
    [SFmul].  This part relates them to [round_signed]: the sum, or product,
    of two finite doubles is the exact result rounded to nearest-even, and
    that rounding is monotone, exact on doubles, and off by at most half a
    unit in the last place. *)

Module Binary64.

#[local] Open Scope Z_scope.

(** ** Integer rounding *)

Lemma pow2_pos k : 0 <= k -> 0 < 2 ^ k.
Proof. intros; apply Z.pow_pos_nonneg; lia. Qed.

Lemma rne_bounds N k : 0 <= k -> N / 2 ^ k <= rne N k <= N / 2 ^ k + 1.
Proof.
  intros Hk. unfold rne.
  destruct (2 * (N mod 2 ^ k) ?= 2 ^ k); [destruct (Z.even _)|..]; lia.
Qed.

Lemma rne_exact N k : 0 <= k -> N mod 2 ^ k = 0 -> rne N k = N / 2 ^ k.
Proof.
  intros Hk H. unfold rne. rewrite H.
  pose proof (pow2_pos k Hk).
  destruct (Z.compare_spec (2 * 0) (2 ^ k)); lia.
Qed.

Lemma rne_mul_pow2 M j k : 0 <= j -> 0 <= k -> k <= j -> rne (M * 2 ^ j) k = M * 2 ^ (j - k).
Proof.
  intros Hj Hk Hkj.
  assert (E : M * 2 ^ j = (M * 2 ^ (j - k)) * 2 ^ k).
  { rewrite <- Z.mul_assoc, <- Z.pow_add_r by lia. do 2 f_equal. lia. }
  pose proof (pow2_pos k Hk).
  rewrite rne_exact; auto.
  - rewrite E. apply Z.div_mul. lia.
  - rewrite E. apply Z.mod_mul. lia.
Qed.

Lemma rne_mono N1 N2 k : 0 <= k -> N1 <= N2 -> rne N1 k <= rne N2 k.
Proof.
  intros Hk HN.
  pose proof (pow2_pos k Hk) as Hp.
  pose proof (Z.div_le_mono N1 N2 (2 ^ k) Hp HN) as Hq.
  destruct (Z.eq_dec (N1 / 2 ^ k) (N2 / 2 ^ k)) as [E|NE].
  - assert (Hr : N1 mod 2 ^ k <= N2 mod 2 ^ k).
    { rewrite !Z.mod_eq by lia. rewrite E. lia. }
    unfold rne. rewrite E.
    destruct (Z.compare_spec (2 * (N1 mod 2 ^ k)) (2 ^ k));
      destruct (Z.compare_spec (2 * (N2 mod 2 ^ k)) (2 ^ k));
      destruct (Z.even (N2 / 2 ^ k)); lia.
  - pose proof (rne_bounds N1 k Hk). pose proof (rne_bounds N2 k Hk). lia.
Qed.

(** scaling: rne of (m * 2^j) at shift (k + j) equals rne m at k *)
Lemma rne_scale m j k : 0 <= j -> 0 <= k -> rne (m * 2 ^ j) (k + j) = rne m k.
Proof.
  intros Hj Hk.
  pose proof (pow2_pos j Hj) as Hpj. pose proof (pow2_pos k Hk) as Hpk.
  unfold rne.
  replace (2 ^ (k + j)) with (2 ^ j * 2 ^ k) by (rewrite Z.pow_add_r by lia; lia).
  replace (m * 2 ^ j) with (2 ^ j * m) by lia.
  rewrite Z.div_mul_cancel_l by lia.
  rewrite Z.mul_mod_distr_l by lia.
  set (r := m mod 2 ^ k).
  destruct (Z.compare_spec (2 * r) (2 ^ k));
    destruct (Z.compare_spec (2 * (2 ^ j * r)) (2 ^ j * 2 ^ k)); try reflexivity; nia.
Qed.

Lemma rne_error N k : 0 <= k -> 2 * Z.abs (rne N k * 2 ^ k - N) <= 2 ^ k.
Proof.
  intros Hk. pose proof (pow2_pos k Hk) as Hp.
  pose proof (Z.div_mod N (2 ^ k) ltac:(lia)).
  pose proof (Z.mod_pos_bound N (2 ^ k) Hp).
  unfold rne.
  destruct (Z.compare_spec (2 * (N mod 2 ^ k)) (2 ^ k));
    [destruct (Z.even _)|..]; nia.
Qed.

Lemma rne_nonneg N k : 0 <= k -> 0 <= N -> 0 <= rne N k.
Proof.
  intros Hk HN. pose proof (rne_bounds N k Hk).
  pose proof (Z.div_pos N (2^k) HN (pow2_pos k Hk)). lia.
Qed.

Lemma round_quanta_0 u : 0 <= u -> round_quanta u 0 = 0.
Proof.
  intros Hu. unfold round_quanta. simpl Z.log2.
  rewrite rne_exact.
  - rewrite Z.div_0_l; [lia|]. pose proof (pow2_pos (Z.max (0 - 52) u)). lia.
  - lia.
  - apply Z.mod_0_l. pose proof (pow2_pos (Z.max (0 - 52) u)). lia.
Qed.

Lemma round_quanta_nonneg u N : 0 <= u -> 0 <= N -> 0 <= round_quanta u N.
Proof.
  intros Hu HN. unfold round_quanta.
  apply Z.mul_nonneg_nonneg.
  - apply rne_nonneg; lia.
  - apply Z.pow_nonneg; lia.
Qed.

(** A value with at most 53 significant bits, at or above the rounding
    position, is kept. *)
Lemma round_quanta_exact u M j :
  0 <= u -> u <= j -> 0 <= M < 2 ^ 53 -> round_quanta u (M * 2 ^ j) = M * 2 ^ (j - u).
Proof.
  intros Hu Hj [HM0 HM].
  destruct (Z.eq_dec M 0) as [->|HMn].
  { rewrite !Z.mul_0_l. apply round_quanta_0; lia. }
  unfold round_quanta.
  set (k := Z.max (Z.log2 (M * 2 ^ j) - 52) u).
  assert (Hk : u <= k <= j).
  { unfold k. rewrite Z.log2_mul_pow2 by lia.
    assert (Z.log2 M < 53) by (apply Z.log2_lt_pow2; lia). lia. }
  rewrite rne_mul_pow2 by lia.
  rewrite <- Z.mul_assoc, <- Z.pow_add_r by lia.
  do 2 f_equal. lia.
Qed.

Lemma round_quanta_mono u N1 N2 :
  0 <= u -> 0 <= N1 -> N1 <= N2 -> round_quanta u N1 <= round_quanta u N2.
Proof.
  intros Hu H1 H12.
  destruct (Z.eq_dec N1 0) as [->|Hn1].
  { rewrite round_quanta_0 by lia. apply round_quanta_nonneg; lia. }
  unfold round_quanta.
  set (k1 := Z.max (Z.log2 N1 - 52) u).
  set (k2 := Z.max (Z.log2 N2 - 52) u).
  assert (Hl : Z.log2 N1 <= Z.log2 N2) by (apply Z.log2_le_mono; lia).
  assert (Hk : u <= k1 <= k2) by (unfold k1, k2; lia).
  destruct (Z.eq_dec k1 k2) as [E|NE].
  - rewrite E. apply Z.mul_le_mono_nonneg_r.
    + apply Z.pow_nonneg; lia.
    + apply rne_mono; lia.
  - (* the binade boundary 2^(k2+52) separates the two *)
    assert (Hk2 : k2 = Z.log2 N2 - 52) by (unfold k1, k2 in *; lia).
    assert (HN2 : 2 ^ (k2 + 52) <= N2).
    { apply Z.log2_le_pow2; lia. }
    assert (HN1 : N1 < 2 ^ (k2 + 52)).
    { apply Z.log2_lt_pow2; [lia|]. unfold k1 in *. lia. }
    apply Z.le_trans with (2 ^ (k2 + 52 - u)).
    + assert (rne N1 k1 <= 2 ^ (k2 + 52 - k1)).
      { replace (2 ^ (k2 + 52 - k1)) with (rne (1 * 2 ^ (k2 + 52)) k1).
        - apply rne_mono; lia.
        - rewrite rne_mul_pow2 by lia. lia. }
      replace (2 ^ (k2 + 52 - u)) with (2 ^ (k2 + 52 - k1) * 2 ^ (k1 - u)).
      * apply Z.mul_le_mono_nonneg_r; [apply Z.pow_nonneg; lia|lia].
      * rewrite <- Z.pow_add_r by lia. f_equal. lia.
    + assert (2 ^ 52 <= rne N2 k2).
      { pose proof (rne_bounds N2 k2 ltac:(lia)).
        assert (2 ^ 52 <= N2 / 2 ^ k2); [|lia].
        apply Z.div_le_lower_bound; [apply pow2_pos; lia|].
        rewrite <- Z.pow_add_r by lia. lia. }
      replace (2 ^ (k2 + 52 - u)) with (2 ^ 52 * 2 ^ (k2 - u)).
      * apply Z.mul_le_mono_nonneg_r; [apply Z.pow_nonneg; lia|lia].
      * rewrite <- Z.pow_add_r by lia. f_equal. lia.
Qed.

Lemma round_signed_mono u N1 N2 :
  0 <= u -> N1 <= N2 -> round_signed u N1 <= round_signed u N2.
Proof.
  intros Hu H. unfold round_signed.
  destruct (Z.sgn_spec N1) as [[? ->]|[[? ->]|[? ->]]];
  destruct (Z.sgn_spec N2) as [[? ->]|[[? ->]|[? ->]]]; try lia.
  - rewrite !Z.mul_1_l. apply round_quanta_mono; lia.
  - subst. pose proof (round_quanta_nonneg u (Z.abs N2) Hu ltac:(lia)). lia.
  - pose proof (round_quanta_nonneg u (Z.abs N1) Hu ltac:(lia)).
    pose proof (round_quanta_nonneg u (Z.abs N2) Hu ltac:(lia)). lia.
  - pose proof (round_quanta_nonneg u (Z.abs N1) Hu ltac:(lia)). lia.
  - pose proof (round_quanta_mono u (Z.abs N2) (Z.abs N1) Hu ltac:(lia) ltac:(lia)). lia.
Qed.

Lemma round_signed_exact u M j :
  0 <= u -> u <= j -> Z.abs M < 2 ^ 53 -> round_signed u (M * 2 ^ j) = M * 2 ^ (j - u).
Proof.
  intros Hu Hj HM. unfold round_signed.
  pose proof (pow2_pos j ltac:(lia)) as Hp.
  rewrite Z.abs_mul, (Z.abs_eq (2 ^ j)) by lia.
  rewrite round_quanta_exact by lia.
  rewrite Z.sgn_mul, (Z.sgn_pos (2 ^ j)) by lia.
  rewrite Z.mul_1_r, Z.mul_assoc. f_equal.
  destruct (Z.sgn_spec M) as [[? ->]|[[? ->]|[? ->]]]; lia.
Qed.

(** error of rounding: at most half of the last kept position *)
Lemma round_quanta_error u N :
  0 <= u -> 0 <= N ->
  2 * Z.abs (round_quanta u N * 2 ^ u - N) <= 2 ^ (Z.max (Z.log2 N - 52) u).
Proof.
  intros Hu HN. unfold round_quanta.
  set (k := Z.max (Z.log2 N - 52) u).
  assert (Hk : u <= k) by (unfold k; lia).
  rewrite <- Z.mul_assoc, <- Z.pow_add_r by lia.
  replace (k - u + u) with k by lia.
  apply rne_error. lia.
Qed.

(** ** [binary_round_aux] computes [round_quanta] *)

Lemma iter_pos_nat {A} (f : A -> A) p x :
  iter_pos f p x = Nat.iter (Pos.to_nat p) f x.
Proof.
  revert x. induction p as [p IH|p IH|]; intros x; simpl iter_pos.
  - rewrite !IH. rewrite Pos2Nat.inj_xI.
    replace (S (2 * Pos.to_nat p))%nat with (Pos.to_nat p + (Pos.to_nat p + 1))%nat by lia.
    rewrite !Nat.iter_add. reflexivity.
  - rewrite !IH. rewrite Pos2Nat.inj_xO.
    replace (2 * Pos.to_nat p)%nat with (Pos.to_nat p + Pos.to_nat p)%nat by lia.
    rewrite Nat.iter_add. reflexivity.
  - reflexivity.
Qed.

Lemma shr_1_nonneg m r s : 0 <= m ->
  shr_1 (Build_shr_record m r s) = Build_shr_record (m / 2) (Z.odd m) (r || s).
Proof.
  intros Hm. unfold shr_1.
  destruct m as [|[p|p|]|p]; try lia; try reflexivity.
  - f_equal. rewrite Pos2Z.inj_xI.
    apply Z.div_unique with 1; lia.
  - f_equal. rewrite Pos2Z.inj_xO.
    apply Z.div_unique with 0; lia.
Qed.

(** after [S j] one-bit shifts of a non-negative mantissa *)
Lemma shr_iter m j : 0 <= m ->
  Nat.iter (S j) shr_1 (Build_shr_record m false false) =
  Build_shr_record (m / 2 ^ Z.of_nat (S j))
                   (Z.odd (m / 2 ^ Z.of_nat j))
                   (negb (m mod 2 ^ Z.of_nat j =? 0)).
Proof.
  intros Hm. induction j as [|j IH].
  - change (Nat.iter 1 shr_1 ?x) with (shr_1 x). rewrite shr_1_nonneg by lia.
    change (2 ^ Z.of_nat 1) with 2. change (2 ^ Z.of_nat 0) with 1.
    rewrite Z.div_1_r, Z.mod_1_r. reflexivity.
  - rewrite Nat.iter_succ, IH.
    assert (Hp : 0 < 2 ^ Z.of_nat j) by (apply pow2_pos; lia).
    assert (Hq : 0 <= m / 2 ^ Z.of_nat (S j)) by (apply Z.div_pos; [lia|apply pow2_pos; lia]).
    rewrite shr_1_nonneg by assumption.
    assert (E : 2 ^ Z.of_nat (S j) = 2 ^ Z.of_nat j * 2).
    { rewrite Nat2Z.inj_succ, Z.pow_succ_r by lia. lia. }
    f_equal.
    + rewrite (Nat2Z.inj_succ (S j)), Z.pow_succ_r by lia.
      rewrite Z.mul_comm, <- Z.div_div by lia. reflexivity.
    + rewrite E. rewrite Z.rem_mul_r by lia.
      rewrite Zodd_mod.
      pose proof (Z.mod_pos_bound m (2 ^ Z.of_nat j) Hp).
      pose proof (Z.mod_pos_bound (m / 2 ^ Z.of_nat j) 2 ltac:(lia)).
      destruct (Z.eqb_spec ((m / 2 ^ Z.of_nat j) mod 2) 1);
      destruct (Z.eqb_spec (m mod 2 ^ Z.of_nat j) 0);
      destruct (Z.eqb_spec (m mod 2 ^ Z.of_nat j + 2 ^ Z.of_nat j * ((m / 2 ^ Z.of_nat j) mod 2)) 0);
      simpl; try reflexivity; nia.
Qed.

Lemma shr_rne m p : 0 <= m ->
  let mrs := iter_pos shr_1 p (Build_shr_record m false false) in
  round_nearest_even (shr_m mrs) (loc_of_shr_record mrs) = rne m (Zpos p).
Proof.
  intros Hm mrs. unfold mrs. rewrite iter_pos_nat.
  destruct (Pos2Nat.is_succ p) as [j Hj]. rewrite Hj.
  rewrite shr_iter by assumption.
  assert (Ep : Zpos p = Z.of_nat (S j)) by lia.
  rewrite Ep. unfold rne.
  assert (Hp : 0 < 2 ^ Z.of_nat j) by (apply pow2_pos; lia).
  assert (E : 2 ^ Z.of_nat (S j) = 2 ^ Z.of_nat j * 2).
  { rewrite Nat2Z.inj_succ, Z.pow_succ_r by lia. lia. }
  rewrite E at 2 3. rewrite Z.rem_mul_r by lia.
  rewrite Zodd_mod.
  pose proof (Z.mod_pos_bound m (2 ^ Z.of_nat j) Hp).
  pose proof (Z.mod_pos_bound (m / 2 ^ Z.of_nat j) 2 ltac:(lia)).
  simpl shr_m. unfold loc_of_shr_record.
  destruct (Z.eqb_spec ((m / 2 ^ Z.of_nat j) mod 2) 1);
  destruct (Z.eqb_spec (m mod 2 ^ Z.of_nat j) 0); simpl negb; cbv iota;
  unfold round_nearest_even;
  match goal with |- context [?a ?= ?b] => destruct (Z.compare_spec a b) end;
  try reflexivity; try nia.
Qed.

Lemma digits2_size m : digits2_pos m = Pos.size m.
Proof. induction m; simpl; congruence. Qed.

Lemma digits2_log2 m : Zpos (digits2_pos m) = Z.log2 (Zpos m) + 1.
Proof.
  rewrite digits2_size. destruct m; simpl Z.log2; simpl Pos.size; lia.
Qed.

Lemma fexp64 z : fexp prec emax z = Z.max (z - 53) (-1074).
Proof. reflexivity. Qed.

Lemma log2_bound_of_lt m j b : 0 < m -> 0 <= j -> m * 2 ^ j < 2 ^ b -> Z.log2 m + j < b.
Proof.
  intros Hm Hj H.
  rewrite Z.add_comm, <- Z.log2_mul_pow2 by lia.
  apply Z.log2_lt_pow2; [|assumption].
  pose proof (pow2_pos j Hj). nia.
Qed.

Lemma binary_round_aux_quanta s m e u :
  0 <= u -> -1074 - u <= e -> Zpos m * 2 ^ (e + 1074 + u) < 2 ^ (2000 + u) ->
  let R := binary_round_aux prec emax s (Zpos m) e loc_Exact in
  SFfinite R = true /\
  SFquanta R = cond_Zopp s (round_quanta u (Zpos m * 2 ^ (e + 1074 + u))).
Proof.
  intros Hu He Hov R.
  pose proof (log2_bound_of_lt (Zpos m) (e + 1074 + u) (2000 + u) ltac:(lia) ltac:(lia) Hov) as Hlog.
  pose proof (Z.log2_nonneg (Zpos m)) as Hl0.
  assert (HK : Z.max (Z.log2 (Zpos m * 2 ^ (e + 1074 + u)) - 52) u
               = Z.max (Z.log2 (Zpos m) + 1 + e - 53) (-1074) + 1074 + u).
  { rewrite Z.log2_mul_pow2 by lia. lia. }
  unfold round_quanta. rewrite HK. clear HK.
  unfold R, binary_round_aux, shr_fexp.
  cbn [Zdigits2]. rewrite digits2_log2, fexp64.
  set (E := Z.max (Z.log2 (Zpos m) + 1 + e - 53) (-1074)).
  destruct (E - e) as [|p|p] eqn:Hk.
  - (* no shift *)
    cbn [shr shr_record_of_loc shr_m loc_of_shr_record round_nearest_even].
    cbn [Zdigits2]. rewrite digits2_log2, fexp64. fold E. rewrite Hk.
    cbn [shr shr_record_of_loc shr_m].
    assert (Hle : (e <=? emax - prec) = true) by (apply Z.leb_le; change (emax - prec) with 971; lia).
    rewrite Hle. split; [reflexivity|].
    cbn [SFquanta]. f_equal.
    assert (Hm : Zpos m < 2 ^ 53) by (apply Z.log2_lt_pow2; lia).
    replace (E + 1074 + u) with (e + 1074 + u) by lia.
    rewrite rne_mul_pow2 by lia.
    replace (e + 1074 + u - (e + 1074 + u)) with 0 by lia.
    replace (e + 1074 + u - u) with (e + 1074) by lia. lia.
  - (* shift by p *)
    cbn [shr]. 
    pose proof (shr_rne (Zpos m) p ltac:(lia)) as Hr. cbv zeta in Hr.
    set (mrs := iter_pos shr_1 p (shr_record_of_loc (Zpos m) loc_Exact)) in *.
    change (iter_pos shr_1 p {| shr_m := Zpos m; shr_r := false; shr_s := false |}) with mrs in Hr.
    rewrite Hr. clear Hr.
    assert (HE : e + Zpos p = E) by lia. rewrite HE.
    replace (rne (Zpos m * 2 ^ (e + 1074 + u)) (E + 1074 + u)) with (rne (Zpos m) (Zpos p)).
    2:{ replace (E + 1074 + u) with (Zpos p + (e + 1074 + u)) by lia.
        symmetry. apply rne_scale; lia. }
    replace (E + 1074 + u - u) with (E + 1074) by lia.
    pose proof (rne_nonneg (Zpos m) (Zpos p) ltac:(lia) ltac:(lia)) as Hn0.
    assert (Hn : rne (Zpos m) (Zpos p) <= 2 ^ 53).
    { pose proof (rne_bounds (Zpos m) (Zpos p) ltac:(lia)).
      assert (Zpos m / 2 ^ Zpos p < 2 ^ 53); [|lia].
      apply Z.div_lt_upper_bound; [apply pow2_pos; lia|].
      rewrite <- Z.pow_add_r by lia.
      apply Z.log2_lt_pow2; lia. }
    destruct (rne (Zpos m) (Zpos p)) as [|q|q] eqn:Hq; [| |lia].
    + (* rounds to zero *)
      cbn [Zdigits2 shr_record_of_loc]. rewrite fexp64.
      destruct (Z.max (0 + E - 53) (-1074) - E) eqn:Hk2; try lia;
        cbn [shr shr_m]; (split; [reflexivity|]);
        rewrite Z.mul_0_l; destruct s; reflexivity.
    + cbn [Zdigits2 shr_record_of_loc]. rewrite digits2_log2, fexp64.
      destruct (Z.eq_dec (Zpos q) (2 ^ 53)) as [Eq|Nq].
      * (* the mantissa overflowed to 2^53: one more shift *)
        rewrite Eq. rewrite Z.log2_pow2 by lia.
        replace (Z.max (53 + 1 + E - 53) (-1074) - E) with 1 by lia.
        cbn [shr iter_pos]. 
        change (shr_m (shr_1 {| shr_m := 2 ^ 53; shr_r := false; shr_s := false |}))
          with (Zpos (2 ^ 52)%positive).
        cbv iota beta.
        assert (Hle : (E + 1 <=? emax - prec) = true) by (apply Z.leb_le; change (emax - prec) with 971; lia).
        rewrite Hle. split; [reflexivity|].
        cbn [SFquanta]. f_equal.
        replace (E + 1 + 1074) with (1 + (E + 1074)) by lia.
        rewrite (Z.pow_add_r 2 1 (E + 1074)) by lia.
        change (Zpos (2 ^ 52)%positive) with (2 ^ 52).
        change (2 ^ 53) with (2 ^ 52 * 2 ^ 1). lia.
      * assert (Hl : Z.log2 (Zpos q) < 53) by (apply Z.log2_lt_pow2; lia).
        pose proof (Z.log2_nonneg (Zpos q)).
        destruct (Z.max (Z.log2 (Zpos q) + 1 + E - 53) (-1074) - E) eqn:Hk2; try lia;
          cbn [shr shr_m];
          (assert (Hle : (E <=? emax - prec) = true) by (apply Z.leb_le; change (emax - prec) with 971; lia));
          rewrite Hle; split; reflexivity.
  - (* no shift *)
    cbn [shr shr_record_of_loc shr_m loc_of_shr_record round_nearest_even].
    cbn [Zdigits2]. rewrite digits2_log2, fexp64. fold E. rewrite Hk.
    cbn [shr shr_record_of_loc shr_m].
    assert (Hle : (e <=? emax - prec) = true) by (apply Z.leb_le; change (emax - prec) with 971; lia).
    rewrite Hle. split; [reflexivity|].
    cbn [SFquanta]. f_equal.
    assert (Hm : Zpos m < 2 ^ 53) by (apply Z.log2_lt_pow2; lia).
    rewrite rne_mul_pow2 by lia.
    rewrite <- Z.mul_assoc, <- Z.pow_add_r by lia.
    do 2 f_equal. lia.
Qed.

(** ** Valid doubles and their order *)

(** what validity says about a finite double *)
Lemma bounded_inv m e :
  bounded prec emax m e = true ->
  -1074 <= e <= 971 /\ Zpos m < 2 ^ 53 /\ (e = -1074 \/ 2 ^ 52 <= Zpos m).
Proof.
  unfold bounded, canonical_mantissa. rewrite andb_true_iff, fexp64, digits2_log2.
  intros [H1 H2]. apply Z.eqb_eq in H1. apply Z.leb_le in H2.
  change (emax - prec) with 971 in H2.
  pose proof (Z.log2_nonneg (Zpos m)).
  repeat split; try lia.
  - apply Z.log2_lt_pow2; lia.
  - destruct (Z.eq_dec e (-1074)); [left; assumption|right].
    apply Z.log2_le_pow2; lia.
Qed.

Lemma valid_quanta_form x :
  valid_binary x = true -> SFfinite x = true ->
  exists M j, SFquanta x = M * 2 ^ j /\ 0 <= j <= 2045 /\ Z.abs M < 2 ^ 53.
Proof.
  destruct x as [s|s| |s m e]; cbn [SFfinite valid_binary]; try discriminate.
  - intros _ _. exists 0, 0. cbn. lia.
  - intros Hv _. apply bounded_inv in Hv. destruct Hv as (He & Hm & _).
    exists (cond_Zopp s (Zpos m)), (e + 1074). cbn [SFquanta].
    destruct s; cbn [cond_Zopp]; lia.
Qed.

Lemma quanta_abs_lt x :
  valid_binary x = true -> Z.abs (SFquanta x) < 2 ^ 2098.
Proof.
  destruct x as [s|s| |s m e]; cbn [SFquanta valid_binary]; try (intros; cbn; lia).
  intros Hv. apply bounded_inv in Hv. destruct Hv as (He & Hm & _).
  assert (Zpos m * 2 ^ (e + 1074) < 2 ^ 53 * 2 ^ 2045).
  { assert (2 ^ (e + 1074) <= 2 ^ 2045) by (apply Z.pow_le_mono_r; lia).
    pose proof (pow2_pos (e + 1074) ltac:(lia)).
    apply Z.lt_le_trans with (2 ^ 53 * 2 ^ (e + 1074)).
    - apply Z.mul_lt_mono_pos_r; lia.
    - apply Z.mul_le_mono_nonneg_l; lia. }
  rewrite <- Z.pow_add_r in H by lia. change (53 + 2045) with 2098 in H.
  destruct s; cbn [cond_Zopp]; lia.
Qed.

(** ordering of canonical positive doubles is the ordering of values *)
Lemma canonical_compare m1 e1 m2 e2 :
  bounded prec emax m1 e1 = true -> bounded prec emax m2 e2 = true ->
  match e1 ?= e2 with
  | Lt => Lt
  | Gt => Gt
  | Eq => Pos.compare_cont Eq m1 m2
  end = (Zpos m1 * 2 ^ (e1 + 1074) ?= Zpos m2 * 2 ^ (e2 + 1074)).
Proof.
  intros H1 H2. apply bounded_inv in H1, H2.
  destruct H1 as (He1 & Hm1 & Hc1), H2 as (He2 & Hm2 & Hc2).
  assert (Hlt : forall ma ea mb eb, -1074 <= ea -> ea < eb -> Zpos ma < 2 ^ 53 ->
                 2 ^ 52 <= Zpos mb ->
                 Zpos ma * 2 ^ (ea + 1074) < Zpos mb * 2 ^ (eb + 1074)).
  { intros ma ea mb eb Ha Hab Hma Hmb.
    apply Z.lt_le_trans with (2 ^ 53 * 2 ^ (ea + 1074)).
    - apply Z.mul_lt_mono_pos_r; [apply pow2_pos; lia|assumption].
    - apply Z.le_trans with (2 ^ 52 * 2 ^ (eb + 1074)).
      + rewrite <- !Z.pow_add_r by lia. apply Z.pow_le_mono_r; lia.
      + apply Z.mul_le_mono_nonneg_r; [apply Z.pow_nonneg; lia|assumption]. }
  destruct (Z.compare_spec e1 e2) as [E|L|G].
  - subst e2. change (Pos.compare_cont Eq m1 m2) with (Zpos m1 ?= Zpos m2).
    pose proof (pow2_pos (e1 + 1074) ltac:(lia)).
    destruct (Z.compare_spec (Zpos m1) (Zpos m2));
      destruct (Z.compare_spec (Zpos m1 * 2 ^ (e1 + 1074)) (Zpos m2 * 2 ^ (e1 + 1074)));
      try reflexivity; nia.
  - symmetry. apply Z.compare_lt_iff. apply Hlt; lia.
  - symmetry. apply Z.compare_gt_iff. apply Hlt; lia.
Qed.

Lemma SFcompare_quanta x y :
  valid_binary x = true -> valid_binary y = true ->
  SFfinite x = true -> SFfinite y = true ->
  SFcompare x y = Some (SFquanta x ?= SFquanta y).
Proof.
  destruct x as [sx|sx| |sx mx ex]; cbn [SFfinite]; try discriminate;
  destruct y as [sy|sy| |sy my ey]; cbn [SFfinite]; try discriminate;
  cbn [valid_binary SFquanta SFcompare]; intros Hx Hy _ _.
  - reflexivity.
  - pose proof (pow2_pos (ey + 1074)).
    apply bounded_inv in Hy. f_equal.
    destruct sy; cbn [cond_Zopp]; symmetry;
      [apply Z.compare_gt_iff|apply Z.compare_lt_iff]; nia.
  - apply bounded_inv in Hx. pose proof (pow2_pos (ex + 1074)). f_equal.
    destruct sx; cbn [cond_Zopp]; symmetry;
      [apply Z.compare_lt_iff|apply Z.compare_gt_iff]; nia.
  - pose proof (canonical_compare mx ex my ey Hx Hy) as Hc.
    pose proof (canonical_compare my ey mx ex Hy Hx) as Hc'.
    apply bounded_inv in Hx, Hy.
    pose proof (pow2_pos (ex + 1074)). pose proof (pow2_pos (ey + 1074)).
    f_equal.
    destruct sx, sy; cbn [cond_Zopp].
    + rewrite Z.compare_opp. rewrite <- Hc'.
      rewrite (Z.compare_antisym ey ex).
      destruct (ey ?= ex); cbn [CompOpp]; try reflexivity.
      change (Pos.compare_cont Eq mx my) with (Pos.compare mx my).
      change (Pos.compare_cont Eq my mx) with (Pos.compare my mx).
      symmetry. apply Pos.compare_antisym.
    + symmetry; apply Z.compare_lt_iff; nia.
    + symmetry; apply Z.compare_gt_iff; nia.
    + exact Hc.
Qed.

(** ** Products and sums *)

Lemma round_signed_cond_Zopp u b N :
  0 < N -> round_signed u (cond_Zopp b N) = cond_Zopp b (round_quanta u N).
Proof.
  intros HN. unfold round_signed.
  destruct b; cbn [cond_Zopp].
  - rewrite Z.sgn_neg, Z.abs_neq by lia. rewrite Z.opp_involutive. lia.
  - rewrite Z.sgn_pos, Z.abs_eq by lia. lia.
Qed.

Lemma round_signed_0 u : round_signed u 0 = 0.
Proof. reflexivity. Qed.

Lemma SFmul_quanta x y :
  valid_binary x = true -> valid_binary y = true ->
  SFfinite x = true -> SFfinite y = true ->
  Z.abs (SFquanta x * SFquanta y) < 2 ^ 3074 ->
  SFfinite (SFmul prec emax x y) = true /\
  SFquanta (SFmul prec emax x y) = round_signed 1074 (SFquanta x * SFquanta y).
Proof.
  destruct x as [sx|sx| |sx mx ex]; cbn [SFfinite]; try discriminate;
  destruct y as [sy|sy| |sy my ey]; cbn [SFfinite]; try discriminate;
  cbn [valid_binary SFquanta SFmul]; intros Hx Hy _ _ Hb;
  rewrite ?Z.mul_0_l, ?Z.mul_0_r, ?round_signed_0; try (split; reflexivity).
  apply bounded_inv in Hx, Hy.
  destruct Hx as (Hex & Hmx & _), Hy as (Hey & Hmy & _).
  pose proof (pow2_pos (ex + 1074) ltac:(lia)) as Hpx.
  pose proof (pow2_pos (ey + 1074) ltac:(lia)) as Hpy.
  assert (EN : Zpos (mx * my) * 2 ^ (ex + ey + 1074 + 1074)
               = (Zpos mx * 2 ^ (ex + 1074)) * (Zpos my * 2 ^ (ey + 1074))).
  { replace (ex + ey + 1074 + 1074) with ((ex + 1074) + (ey + 1074)) by lia.
    rewrite Z.pow_add_r by lia. rewrite Pos2Z.inj_mul. ring. }
  assert (Es : cond_Zopp sx (Zpos mx * 2 ^ (ex + 1074)) * cond_Zopp sy (Zpos my * 2 ^ (ey + 1074))
               = cond_Zopp (xorb sx sy) (Zpos (mx * my) * 2 ^ (ex + ey + 1074 + 1074))).
  { rewrite EN. destruct sx, sy; cbn [cond_Zopp xorb]; ring. }
  rewrite Es in *.
  assert (HNpos : 0 < Zpos (mx * my) * 2 ^ (ex + ey + 1074 + 1074)) by (rewrite EN; nia).
  rewrite round_signed_cond_Zopp by assumption.
  apply binary_round_aux_quanta; try lia.
  change (2000 + 1074) with 3074.
  destruct (xorb sx sy); cbn [cond_Zopp] in Hb; lia.
Qed.

Lemma iter_xO m d : Zpos (Pos.iter xO m d) = Zpos m * 2 ^ Zpos d.
Proof.
  induction d as [|d IH] using Pos.peano_ind.
  - cbn [Pos.iter]. rewrite Pos2Z.inj_xO. change (2 ^ 1) with 2. ring.
  - rewrite Pos.iter_succ, Pos2Z.inj_xO, IH, Pos2Z.inj_succ, Z.pow_succ_r by lia. ring.
Qed.

Lemma shl_align_spec m e e' :
  let '(mz, ez) := shl_align m e e' in
  ez = Z.min e e' /\ Zpos mz = Zpos m * 2 ^ (e - ez).
Proof.
  unfold shl_align. destruct (e' - e) as [|d|d] eqn:Hd.
  - split; [lia|]. replace (e - e) with 0 by lia. lia.
  - split; [lia|]. replace (e - e) with 0 by lia. lia.
  - split; [lia|]. rewrite iter_xO. do 2 f_equal. lia.
Qed.

Lemma binary_normalize_quanta S e :
  -1074 <= e -> Z.abs S * 2 ^ (e + 1074) < 2 ^ 2000 ->
  SFfinite (binary_normalize prec emax S e false) = true /\
  SFquanta (binary_normalize prec emax S e false) = round_signed 0 (S * 2 ^ (e + 1074)).
Proof.
  intros He Hb.
  pose proof (pow2_pos (e + 1074) ltac:(lia)) as Hp.
  assert (Hgen : forall s p, Zpos p * 2 ^ (e + 1074) < 2 ^ 2000 ->
            SFfinite (binary_round prec emax s p e) = true /\
            SFquanta (binary_round prec emax s p e)
            = cond_Zopp s (round_quanta 0 (Zpos p * 2 ^ (e + 1074)))).
  { intros s p Hbp. unfold binary_round.
    pose proof (shl_align_spec p e (fexp prec emax (Zpos (digits2_pos p) + e))) as Hs.
    destruct (shl_align p e _) as [mz ez]. destruct Hs as [Hez Hmz].
    rewrite fexp64 in Hez.
    assert (EN : Zpos mz * 2 ^ (ez + 1074 + 0) = Zpos p * 2 ^ (e + 1074)).
    { rewrite Hmz, <- Z.mul_assoc, <- Z.pow_add_r by lia. do 2 f_equal. lia. }
    rewrite <- EN. apply binary_round_aux_quanta; lia. }
  destruct S as [|p|p]; cbn [binary_normalize].
  - split; reflexivity.
  - pose proof (round_signed_cond_Zopp 0 false (Zpos p * 2 ^ (e + 1074)) ltac:(lia)) as Hr.
    cbn [cond_Zopp] in Hr. rewrite Hr.
    apply (Hgen false p). cbn [Z.abs] in Hb. lia.
  - pose proof (round_signed_cond_Zopp 0 true (Zpos p * 2 ^ (e + 1074)) ltac:(lia)) as Hr.
    cbn [cond_Zopp] in Hr.
    replace (Zneg p * 2 ^ (e + 1074)) with (- (Zpos p * 2 ^ (e + 1074))) by lia.
    rewrite Hr.
    apply (Hgen true p). cbn [Z.abs] in Hb. lia.
Qed.

Lemma valid_round_signed_id x :
  valid_binary x = true -> SFfinite x = true ->
  round_signed 0 (SFquanta x) = SFquanta x.
Proof.
  intros Hv Hf. destruct (valid_quanta_form x Hv Hf) as (M & j & E & Hj & HM).
  rewrite E. rewrite round_signed_exact by lia. do 2 f_equal. lia.
Qed.

Lemma SFadd_quanta x y :
  valid_binary x = true -> valid_binary y = true ->
  SFfinite x = true -> SFfinite y = true ->
  Z.abs (SFquanta x + SFquanta y) < 2 ^ 2000 ->
  SFfinite (SFadd prec emax x y) = true /\
  SFquanta (SFadd prec emax x y) = round_signed 0 (SFquanta x + SFquanta y).
Proof.
  intros Hvx Hvy Hfx Hfy Hb.
  pose proof (valid_round_signed_id x Hvx Hfx) as Ix.
  pose proof (valid_round_signed_id y Hvy Hfy) as Iy.
  destruct x as [sx|sx| |sx mx ex]; cbn [SFfinite] in Hfx; try discriminate;
  destruct y as [sy|sy| |sy my ey]; cbn [SFfinite] in Hfy; try discriminate.
  - cbn [SFadd SFquanta]. destruct sx, sy; split; reflexivity.
  - cbn [SFadd]. change (SFquanta (S754_zero sx)) with 0. rewrite Z.add_0_l.
    split; [reflexivity|symmetry; exact Iy].
  - cbn [SFadd]. change (SFquanta (S754_zero sy)) with 0. rewrite Z.add_0_r.
    split; [reflexivity|symmetry; exact Ix].
  - cbn [SFadd]. cbn [valid_binary] in Hvx, Hvy.
    apply bounded_inv in Hvx, Hvy.
    destruct Hvx as (Hex & _), Hvy as (Hey & _).
    set (ez := Z.min ex ey).
    pose proof (shl_align_spec mx ex ez) as Hsx.
    pose proof (shl_align_spec my ey ez) as Hsy.
    destruct (shl_align mx ex ez) as [mx' ex'], (shl_align my ey ez) as [my' ey'].
    destruct Hsx as [Hex' Hmx'], Hsy as [Hey' Hmy'].
    cbn [fst].
    assert (Ex' : ex' = ez) by (unfold ez in *; lia).
    assert (Ey' : ey' = ez) by (unfold ez in *; lia).
    subst ex' ey'.
    assert (ES : (cond_Zopp sx (Zpos mx') + cond_Zopp sy (Zpos my')) * 2 ^ (ez + 1074)
                 = SFquanta (S754_finite sx mx ex) + SFquanta (S754_finite sy my ey)).
    { cbn [SFquanta]. rewrite Hmx', Hmy', Ex', Ey'.
      replace (ex + 1074) with ((ex - ez) + (ez + 1074)) by lia.
      replace (ey + 1074) with ((ey - ez) + (ez + 1074)) by lia.
      rewrite (Z.pow_add_r 2 (ex - ez) (ez + 1074)) by (unfold ez; lia).
      rewrite (Z.pow_add_r 2 (ey - ez) (ez + 1074)) by (unfold ez; lia).
      destruct sx, sy; cbn [cond_Zopp]; ring. }
    rewrite <- ES. apply binary_normalize_quanta; [unfold ez; lia|].
    rewrite <- ES in Hb. rewrite Z.abs_mul in Hb.
    rewrite (Z.abs_eq (2 ^ (ez + 1074))) in Hb; [exact Hb|].
    apply Z.pow_nonneg; lia.
Qed.

(** ** The primitive operations *)

Lemma quanta_abs_bound x : Z.abs (quanta x) < 2 ^ 2098.
Proof. apply quanta_abs_lt, Prim2SF_valid. Qed.

Lemma compare_quanta x y :
  finite x -> finite y ->
  SFcompare (Prim2SF x) (Prim2SF y) = Some (quanta x ?= quanta y).
Proof. intros Hx Hy. apply SFcompare_quanta; auto using Prim2SF_valid. Qed.

Lemma ltb_quanta x y : finite x -> finite y -> (x <? y)%float = (quanta x <? quanta y).
Proof.
  intros Hx Hy. rewrite FloatAxioms.ltb_spec. unfold SFltb. rewrite compare_quanta by assumption.
  unfold Z.ltb. destruct (quanta x ?= quanta y); reflexivity.
Qed.

Lemma leb_quanta x y : finite x -> finite y -> (x <=? y)%float = (quanta x <=? quanta y).
Proof.
  intros Hx Hy. rewrite FloatAxioms.leb_spec. unfold SFleb. rewrite compare_quanta by assumption.
  unfold Z.leb. destruct (quanta x ?= quanta y); reflexivity.
Qed.

Lemma eqb_quanta x y : finite x -> finite y -> (x =? y)%float = (quanta x =? quanta y).
Proof.
  intros Hx Hy. rewrite FloatAxioms.eqb_spec. unfold SFeqb. rewrite compare_quanta by assumption.
  rewrite Z.eqb_compare. destruct (quanta x ?= quanta y); reflexivity.
Qed.

(** a number between two finite numbers is finite *)
Lemma finite_between lo hi x :
  finite lo -> finite hi ->
  (lo <=? x)%float = true \/ (lo <? x)%float = true ->
  (x <=? hi)%float = true \/ (x <? hi)%float = true ->
  finite x.
Proof.
  unfold finite. rewrite !FloatAxioms.leb_spec, !FloatAxioms.ltb_spec. unfold SFleb, SFltb.
  destruct (Prim2SF lo) as [?|?| |? ? ?]; cbn [SFfinite]; try discriminate;
  destruct (Prim2SF hi) as [?|?| |? ? ?]; cbn [SFfinite]; try discriminate;
  destruct (Prim2SF x) as [?|[|]| |? ? ?]; cbn [SFfinite SFcompare]; intros _ _ [H1|H1] [H2|H2];
  try reflexivity; try discriminate;
  repeat match goal with b : bool |- _ => destruct b end; discriminate.
Qed.

Lemma mul_quanta x y :
  finite x -> finite y -> Z.abs (quanta x * quanta y) < 2 ^ 3074 ->
  finite (x * y)%float /\ quanta (x * y)%float = round_signed 1074 (quanta x * quanta y).
Proof.
  intros Hx Hy Hb. unfold finite, quanta. rewrite mul_spec.
  apply SFmul_quanta; auto using Prim2SF_valid.
Qed.

Lemma add_quanta x y :
  finite x -> finite y -> Z.abs (quanta x + quanta y) < 2 ^ 2000 ->
  finite (x + y)%float /\ quanta (x + y)%float = round_signed 0 (quanta x + quanta y).
Proof.
  intros Hx Hy Hb. unfold finite, quanta. rewrite add_spec.
  apply SFadd_quanta; auto using Prim2SF_valid.
Qed.

Lemma opp_quanta x : quanta (- x)%float = - quanta x.
Proof.
  unfold quanta. rewrite opp_spec.
  destruct (Prim2SF x) as [?|?| |[|] ? ?]; cbn [SFopp SFquanta negb cond_Zopp]; lia.
Qed.

Lemma opp_finite x : finite x -> finite (- x)%float.
Proof.
  unfold finite. rewrite opp_spec.
  destruct (Prim2SF x); cbn [SFopp SFfinite]; auto.
Qed.

Lemma Z2number_quanta z :
  Z.abs z < 2 ^ 53 -> finite (Z2number z) /\ quanta (Z2number z) = z * quantum.
Proof.
  intros Hz.
  assert (Hpos : forall p, Zpos p < 2 ^ 53 ->
            finite (of_uint63 (Uint63.of_Z (Zpos p))) /\
            quanta (of_uint63 (Uint63.of_Z (Zpos p))) = Zpos p * quantum).
  { intros p Hp. unfold finite, quanta. rewrite of_uint63_spec.
    rewrite Uint63.of_Z_spec.
    rewrite Z.mod_small by (change Uint63.wB with (2 ^ 63); lia).
    assert (Hb : Z.abs (Zpos p) * 2 ^ (0 + 1074) < 2 ^ 2000).
    { change (0 + 1074) with 1074. cbn [Z.abs].
      apply Z.lt_trans with (2 ^ 53 * 2 ^ 1074).
      - apply Z.mul_lt_mono_pos_r; [apply pow2_pos; lia|lia].
      - rewrite <- Z.pow_add_r by lia. apply Z.pow_lt_mono_r; lia. }
    destruct (binary_normalize_quanta (Zpos p) 0 ltac:(lia) Hb) as [Hf Hq].
    split; [exact Hf|]. rewrite Hq.
    change (0 + 1074) with 1074.
    rewrite round_signed_exact by (cbn [Z.abs]; lia).
    reflexivity. }
  destruct z as [|p|p]; unfold Z2number.
  - split; reflexivity.
  - apply Hpos. cbn [Z.abs] in Hz. lia.
  - destruct (Hpos p) as [Hf Hq]; [cbn [Z.abs] in Hz; lia|].
    split; [apply opp_finite, Hf|]. rewrite opp_quanta, Hq. lia.
Qed.

End Binary64.

(** * The instance through its methods *)

Ltac open_glitcher g :=
  destruct g as [z_text z_fontFamily z_fontWeight z_textSize z_canvas z_context z_width
                 z_height z_font z_textWidth z_channel z_compOp z_scanlineRange
                 z_scanlineBase z_glitchThreshold z_glitchAmplitude z_alphaMin
                 z_amplitudeRange z_amplitudeBase z_amplitude z_phaseStep z_phase
                 z_scanlineShift].

(** Whether the context takes the alpha it is given. *)
Ltac split_alpha :=
  match goal with
  | |- context [if ?a && ?b then _ else _] => destruct (a && b)
  end.

Section Frames.

Variable host : Host.

Lemma same_but_context_refl a : same_but_context a a.
Proof. open_glitcher a. reflexivity. Qed.

Lemma same_but_context_trans a b c :
  same_but_context a b -> same_but_context b c -> same_but_context a c.
Proof.
  unfold same_but_context. intros Hab Hbc. rewrite Hbc, Hab.
  open_glitcher a. reflexivity.
Qed.

Lemma on_context_same f a : same_but_context a (on_context f a).
Proof. open_glitcher a. reflexivity. Qed.

Lemma renderChannels_same x1 x2 x3 this :
  same_but_context this (renderChannels x1 x2 x3 this).
Proof. open_glitcher this. reflexivity. Qed.

Lemma renderScanline_eq this n :
  renderScanline host this n =
  (on_context
     (Canvas.call
        (Canvas.shiftRow (scanline_y this (Math_random host n)) (width this)
           (scanline_s this (Math_random host (S n)))
           (scanline_x this (Math_random host (S (S n)))))) this,
   S (S (S n))).
Proof. reflexivity. Qed.

Lemma renderScanline_same this n :
  same_but_context this (fst (renderScanline host this n)).
Proof. rewrite renderScanline_eq. apply on_context_same. Qed.

Lemma render_eq this n :
  render host this n =
  let once := fst (renderScanline host (painted host this n) (S (S n))) in
  (if Math_floor (Math_random host (S (S (S (S (S n))))) * 2) >? 1
   then renderScanline host once
   else ret once) (S (S (S (S (S (S n)))))).
Proof. unfold render, painted, prepared, bind, random, ret. reflexivity. Qed.

Lemma prepared_same this n : same_but_context this (prepared host this n).
Proof. open_glitcher this. reflexivity. Qed.

Lemma painted_same this n : same_but_context this (painted host this n).
Proof.
  unfold painted. cbv zeta.
  repeat match goal with |- context [if ?b then _ else _] => destruct b end;
    try (eapply same_but_context_trans; [apply prepared_same|apply renderChannels_same]).
  apply prepared_same.
Qed.

Lemma render_same this n : same_but_context this (fst (render host this n)).
Proof.
  rewrite render_eq. cbv zeta.
  assert (H1 : same_but_context this (fst (renderScanline host (painted host this n) (S (S n))))).
  { eapply same_but_context_trans; [apply painted_same|apply renderScanline_same]. }
  destruct (_ >? _).
  - eapply same_but_context_trans; [exact H1|apply renderScanline_same].
  - exact H1.
Qed.

Lemma tick_same this n : same_but_context (advanced host this n) (fst (tick host this n)).
Proof.
  unfold tick, advanced, bind, random, ret.
  open_glitcher this.
  cbn [phase phaseStep set_phase channel amplitudeBase amplitudeRange set_channel set_amplitude].
  destruct (_ >? _); apply render_same.
Qed.
End Frames.

(** ** Construction *)

Section Construction.

Variable host : Host.

(** What [resize] leaves alone. *)
Lemma resize_keeps vp this :
  exists w h cv c ts f tw,
    resize host vp this =
    set_textWidth tw (set_font f (set_textSize ts (set_context c
      (set_canvas cv (set_height h (set_width w this)))))).
Proof.
  open_glitcher this. unfold resize.
  cbn [set_width set_height set_canvas on_context set_context set_textSize set_font
       set_textWidth width height canvas context textSize fontWeight fontFamily font text].
  destruct (_ >? _);
    cbn [set_width set_height set_canvas on_context set_context set_textSize set_font
         set_textWidth width height canvas context textSize fontWeight fontFamily font text];
    do 7 eexists; reflexivity.
Qed.

Lemma resize_effective vp this f : effective f (resize host vp this) = effective f this.
Proof.
  destruct (resize_keeps vp this) as (w & h & cv & c & ts & ft & tw & ->).
  open_glitcher this. destruct f; reflexivity.
Qed.

(** One range-checked block of [initOptions]. *)
Lemma block_normal (ov : option number) hi lo msg d
      (set : number -> Glitcher -> Glitcher) this
      (k : Glitcher -> Completion Glitcher) res :
  and_then
    (match ov with
     | Some v => if (v >? hi) || (v <? lo) then Throw msg else Normal (set v this)
     | None => Normal (set d this)
     end) k = Normal res ->
  match ov with Some v => (v >? hi) || (v <? lo) | None => false end = false /\
  k (set (match ov with Some v => v | None => d end) this) = Normal res.
Proof.
  destruct ov as [v|]; [destruct ((v >? hi) || (v <? lo))|]; cbn [and_then];
    intros H; try discriminate; auto.
Qed.

Lemma block_throw (ov : option number) hi lo msg d
      (set : number -> Glitcher -> Glitcher) this
      (k : Glitcher -> Completion Glitcher) :
  match ov with Some v => (v >? hi) || (v <? lo) | None => false end = true ->
  and_then
    (match ov with
     | Some v => if (v >? hi) || (v <? lo) then Throw msg else Normal (set v this)
     | None => Normal (set d this)
     end) k = Throw msg.
Proof.
  destruct ov as [v|]; [|discriminate]. intros ->. reflexivity.
Qed.

Lemma block_pass (ov : option number) hi lo msg d
      (set : number -> Glitcher -> Glitcher) this
      (k : Glitcher -> Completion Glitcher) :
  match ov with Some v => (v >? hi) || (v <? lo) | None => false end = false ->
  and_then
    (match ov with
     | Some v => if (v >? hi) || (v <? lo) then Throw msg else Normal (set v this)
     | None => Normal (set d this)
     end) k = k (set (match ov with Some v => v | None => d end) this).
Proof.
  destruct ov as [v|]; [|reflexivity]. intros ->. reflexivity.
Qed.

Lemma and_then_normal {A B} (c : Completion A) (k : A -> Completion B) res :
  and_then c k = Normal res -> exists a, c = Normal a /\ k a = Normal res.
Proof. destruct c as [a|m]; cbn [and_then]; intros H; [eauto|discriminate]. Qed.

(** What [initOptions] returns when it does not throw. *)
Lemma initOptions_normal vp o this0 this :
  initOptions host vp o this0 = Normal this ->
  (forall f, offending f o = false /\ effective f this = chosen f o) /\
  channel this = 0 /\ phase this = 0 /\ amplitude this = 0 /\ compOp this = lighter /\
  scanlineBase this = 40 /\ scanlineRange this = 40 /\ scanlineShift this = 15 /\
  text this = text this0 /\ fontFamily this = fontFamily this0 /\
  fontWeight this = fontWeight this0.
Proof.
  unfold initOptions. cbv zeta. intros H.
  apply block_normal in H. destruct H as [O1 H].
  apply block_normal in H. destruct H as [O2 H].
  apply block_normal in H. destruct H as [O3 H].
  apply block_normal in H. destruct H as [O4 H].
  apply block_normal in H. destruct H as [O5 H].
  apply block_normal in H. destruct H as [O6 H].
  injection H as <-.
  open_glitcher this0.
  split.
  - intros f. split.
    + destruct f; assumption.
    + unfold chosen.
      destruct f; cbn [supplied default];
        match goal with |- context [if ?b then _ else _] => destruct b end; reflexivity.
  - match goal with |- context [if ?b then _ else _] => destruct b end;
      repeat split; reflexivity.
Qed.

(** What a successful construction returns. *)
Lemma new_Glitcher_normal vp o this :
  new_Glitcher host vp o = Normal this ->
  (forall f, offending f o = false /\ effective f this = chosen f o) /\
  channel this = 0 /\ phase this = 0 /\ amplitude this = 0 /\ compOp this = lighter /\
  scanlineBase this = 40 /\ scanlineRange this = 40 /\ scanlineShift this = 15 /\
  text this = IGlitchesOptions.text o /\
  fontFamily this =
    match IGlitchesOptions.fontFamily o with Some v => v | None => "Arial"%string end /\
  fontWeight this =
    match IGlitchesOptions.fontWeight o with Some v => v | None => 500 end.
Proof.
  unfold new_Glitcher. cbv zeta. intros H.
  apply and_then_normal in H. destruct H as (mid & Hi & H).
  injection H as <-.
  apply initOptions_normal in Hi.
  destruct Hi as (Hf & Hc & Hp & Ha & Ho & Hb & Hr & Hs & Ht & Hff & Hfw).
  destruct (resize_keeps vp mid) as (w & h & cv & c & ts & ft & tw & ->).
  split.
  - intros f. destruct (Hf f) as [Hoff Heff]. split; [exact Hoff|].
    rewrite <- Heff. open_glitcher mid. destruct f; reflexivity.
  - open_glitcher mid.
    cbn [channel phase amplitude compOp scanlineBase scanlineRange scanlineShift text
         fontFamily fontWeight set_textWidth set_font set_textSize set_context set_canvas
         set_height set_width] in *.
    subst.
    destruct (IGlitchesOptions.fontWeight o), (IGlitchesOptions.fontFamily o);
      repeat split; reflexivity.
Qed.
End Construction.

Section Validation.

Variable host : Host.

Lemma offending_unfold f o :
  offending f o =
  match supplied f o with Some v => (v >? upper f) || (v <? lower f) | None => false end.
Proof. reflexivity. Qed.

(** Construction throws for the first offending option, and only then. *)
Lemma new_Glitcher_outcome vp o :
  match first_offender o with
  | Some g => new_Glitcher host vp o = Throw (range_message g)
  | None => exists this, new_Glitcher host vp o = Normal this
  end.
Proof.
  unfold first_offender, fields. cbn [find].
  unfold new_Glitcher, initOptions. cbv zeta.
  destruct (offending PhaseStep o) eqn:E1.
  { rewrite block_throw by exact E1. reflexivity. }
  rewrite block_pass by exact E1.
  destruct (offending AmplitudeBase o) eqn:E2.
  { rewrite block_throw by exact E2. reflexivity. }
  rewrite block_pass by exact E2.
  destruct (offending AmplitudeRange o) eqn:E3.
  { rewrite block_throw by exact E3. reflexivity. }
  rewrite block_pass by exact E3.
  destruct (offending AlphaMin o) eqn:E4.
  { rewrite block_throw by exact E4. reflexivity. }
  rewrite block_pass by exact E4.
  destruct (offending GlitchAmplitude o) eqn:E5.
  { rewrite block_throw by exact E5. reflexivity. }
  rewrite block_pass by exact E5.
  destruct (offending GlitchThreshold o) eqn:E6.
  { rewrite block_throw by exact E6. reflexivity. }
  rewrite block_pass by exact E6.
  cbn [and_then]. eexists. reflexivity.
Qed.

Lemma first_offender_some o f :
  offending f o = true ->
  exists g, first_offender o = Some g /\ offending g o = true /\
            ((forall h, In h (checked_before f) -> offending h o = false) -> g = f).
Proof.
  intros Hf. unfold first_offender, fields. cbn [find].
  destruct (offending PhaseStep o) eqn:E1.
  { eexists; repeat split; [exact E1|]. intros Hb.
    destruct f; try reflexivity;
      (rewrite Hb in E1; [discriminate|cbn; tauto]). }
  destruct (offending AmplitudeBase o) eqn:E2.
  { eexists; repeat split; [exact E2|]. intros Hb.
    destruct f; try reflexivity; try congruence;
      (rewrite Hb in E2; [discriminate|cbn; tauto]). }
  destruct (offending AmplitudeRange o) eqn:E3.
  { eexists; repeat split; [exact E3|]. intros Hb.
    destruct f; try reflexivity; try congruence;
      (rewrite Hb in E3; [discriminate|cbn; tauto]). }
  destruct (offending AlphaMin o) eqn:E4.
  { eexists; repeat split; [exact E4|]. intros Hb.
    destruct f; try reflexivity; try congruence;
      (rewrite Hb in E4; [discriminate|cbn; tauto]). }
  destruct (offending GlitchAmplitude o) eqn:E5.
  { eexists; repeat split; [exact E5|]. intros Hb.
    destruct f; try reflexivity; try congruence;
      (rewrite Hb in E5; [discriminate|cbn; tauto]). }
  destruct (offending GlitchThreshold o) eqn:E6.
  { eexists; repeat split; [exact E6|]. intros Hb.
    destruct f; try reflexivity; congruence. }
  destruct f; congruence.
Qed.

Lemma first_offender_none o :
  (forall f, offending f o = false) -> first_offender o = None.
Proof.
  intros H. unfold first_offender, fields. cbn [find].
  rewrite !H. reflexivity.
Qed.

Lemma boundary_not_offending f o v :
  supplied f o = Some v -> v = lower f \/ v = upper f -> offending f o = false.
Proof.
  intros Hs Hv. rewrite offending_unfold, Hs.
  destruct Hv as [-> | ->]; destruct f; reflexivity.
Qed.
End Validation.

(** ** Frames *)

Section Fields.
Variable host : Host.

Lemma same_but_context_fields a b :
  same_but_context a b ->
  phase b = phase a /\ channel b = channel a /\ amplitude b = amplitude a /\
  phaseStep b = phaseStep a /\ amplitudeBase b = amplitudeBase a /\
  amplitudeRange b = amplitudeRange a /\ compOp b = compOp a /\
  scanlineBase b = scanlineBase a /\ scanlineRange b = scanlineRange a /\
  scanlineShift b = scanlineShift a /\ width b = width a /\ height b = height a.
Proof.
  unfold same_but_context. intros ->. open_glitcher a. repeat split; reflexivity.
Qed.

Lemma ticks_S k this n :
  ticks host (S k) this n = ticks host k (fst (tick host this n)) (snd (tick host this n)).
Proof.
  cbn [ticks]. unfold bind. destruct (tick host this n). reflexivity.
Qed.

Lemma tick_channel this n :
  channel (fst (tick host this n)) =
  if wraps this then (if channel this =? 2 then 0 else channel this + 1) else channel this.
Proof.
  destruct (same_but_context_fields _ _ (tick_same host this n)) as (_ & -> & _).
  unfold advanced, wraps. open_glitcher this.
  cbn [phase phaseStep]. destruct (_ >? _); reflexivity.
Qed.

Lemma tick_phase this n :
  phase (fst (tick host this n)) =
  if wraps this then 0 else phase this + phaseStep this.
Proof.
  destruct (same_but_context_fields _ _ (tick_same host this n)) as (-> & _).
  unfold advanced, wraps. open_glitcher this.
  cbn [phase phaseStep]. destruct (_ >? _); reflexivity.
Qed.

Lemma tick_amplitude this n :
  amplitude (fst (tick host this n)) =
  if wraps this then amplitudeBase this + amplitudeRange this * Math_random host n
  else amplitude this.
Proof.
  destruct (same_but_context_fields _ _ (tick_same host this n)) as (_ & _ & -> & _).
  unfold advanced, wraps. open_glitcher this.
  cbn [phase phaseStep]. destruct (_ >? _); reflexivity.
Qed.

Lemma tick_config this n :
  phaseStep (fst (tick host this n)) = phaseStep this /\
  amplitudeBase (fst (tick host this n)) = amplitudeBase this /\
  amplitudeRange (fst (tick host this n)) = amplitudeRange this.
Proof.
  destruct (same_but_context_fields _ _ (tick_same host this n))
    as (_ & _ & _ & -> & -> & -> & _).
  unfold advanced. open_glitcher this.
  cbn [phase phaseStep]. destruct (_ >? _); repeat split; reflexivity.
Qed.

Lemma channel_stays this n :
  channel this = 0 \/ channel this = 1 \/ channel this = 2 ->
  channel (fst (tick host this n)) = 0 \/ channel (fst (tick host this n)) = 1 \/
  channel (fst (tick host this n)) = 2.
Proof.
  rewrite tick_channel. intros [H|[H|H]]; rewrite H; destruct (wraps this); cbn; auto.
Qed.

Lemma channel_always k : forall this n,
  channel this = 0 \/ channel this = 1 \/ channel this = 2 ->
  channel (fst (ticks host k this n)) = 0 \/ channel (fst (ticks host k this n)) = 1 \/
  channel (fst (ticks host k this n)) = 2.
Proof.
  induction k as [|k IH]; intros this n H.
  - exact H.
  - rewrite ticks_S. apply IH. apply channel_stays. exact H.
Qed.
End Fields.

(** C2: Channel cycling: the channel of a constructed instance is 0; after
    any number of frames it is 0, 1 or 2; a frame that wraps moves it one
    step along 0 -> 1 -> 2 -> 0, and a frame that does not wrap leaves it. *)
Theorem channel_cycling host vp o this0 :
  new_Glitcher host vp o = Normal this0 ->
  channel this0 = 0 /\
  forall k n,
    let this := fst (ticks host k this0 n) in
    (channel this = 0 \/ channel this = 1 \/ channel this = 2) /\
    forall m,
      let next := fst (tick host this m) in
      (wraps this = false -> channel next = channel this) /\
      (wraps this = true ->
       (channel this = 0 -> channel next = 1) /\
       (channel this = 1 -> channel next = 2) /\
       (channel this = 2 -> channel next = 0)).
Proof.
  intros H. apply new_Glitcher_normal in H. destruct H as (_ & Hc & _).
  split; [exact Hc|]. intros k n this. split.
  - apply channel_always. auto.
  - intros m next. unfold next. rewrite tick_channel. split.
    + intros ->. reflexivity.
    + intros ->. repeat split; intros ->; reflexivity.
Qed.

Lemma channel_cycling_witness :
  let this0 := constructed (new_Glitcher (sample_host 0.5) sample_viewport quarter_turn) in
  channel this0 = 0 /\
  channel (fst (ticks (sample_host 0.5) 5 this0 0%nat)) = 1.
Proof.
  intros this0.
  assert (H : new_Glitcher (sample_host 0.5) sample_viewport quarter_turn = Normal this0)
    by (vm_compute; reflexivity).
  destruct (channel_cycling (sample_host 0.5) sample_viewport quarter_turn this0 H) as [H0 Hk].
  split; [exact H0|].
  destruct (Hk 4%nat 0%nat) as [_ Hstep].
  destruct (Hstep (snd (ticks (sample_host 0.5) 4 this0 0%nat))) as [_ Hw].
  assert (E : ticks (sample_host 0.5) 5 this0 0%nat =
              tick (sample_host 0.5) (fst (ticks (sample_host 0.5) 4 this0 0%nat))
                   (snd (ticks (sample_host 0.5) 4 this0 0%nat)))
    by (vm_compute; reflexivity).
  rewrite E. apply Hw; vm_compute; reflexivity.
Defined.



(** C8: Defaults: an option that is omitted takes its documented default
    in the constructed instance. *)
Theorem documented_defaults host vp o this :
  new_Glitcher host vp o = Normal this ->
  (IGlitchesOptions.phaseStep o = None -> phaseStep this = 0.05) /\
  (IGlitchesOptions.amplitudeBase o = None -> amplitudeBase this = 2.0) /\
  (IGlitchesOptions.amplitudeRange o = None -> amplitudeRange this = 2.0) /\
  (IGlitchesOptions.alphaMin o = None -> alphaMin this = 0.8) /\
  (IGlitchesOptions.glitchAmplitude o = None -> glitchAmplitude this = 20.0) /\
  (IGlitchesOptions.glitchThreshold o = None -> glitchThreshold this = 0.9) /\
  (IGlitchesOptions.fontFamily o = None -> fontFamily this = "Arial"%string) /\
  (IGlitchesOptions.fontWeight o = None -> fontWeight this = 500).
Proof.
  intros H. apply new_Glitcher_normal in H.
  destruct H as (Hf & _ & _ & _ & _ & _ & _ & _ & _ & Hff & Hfw).
  repeat split; intros E.
  - destruct (Hf PhaseStep) as [_ He]. cbn [effective] in He. rewrite He.
    unfold chosen. cbn [supplied]. rewrite E. reflexivity.
  - destruct (Hf AmplitudeBase) as [_ He]. cbn [effective] in He. rewrite He.
    unfold chosen. cbn [supplied]. rewrite E. reflexivity.
  - destruct (Hf AmplitudeRange) as [_ He]. cbn [effective] in He. rewrite He.
    unfold chosen. cbn [supplied]. rewrite E. reflexivity.
  - destruct (Hf AlphaMin) as [_ He]. cbn [effective] in He. rewrite He.
    unfold chosen. cbn [supplied]. rewrite E. reflexivity.
  - destruct (Hf GlitchAmplitude) as [_ He]. cbn [effective] in He. rewrite He.
    unfold chosen. cbn [supplied]. rewrite E. reflexivity.
  - destruct (Hf GlitchThreshold) as [_ He]. cbn [effective] in He. rewrite He.
    unfold chosen. cbn [supplied]. rewrite E. reflexivity.
  - rewrite Hff, E. reflexivity.
  - rewrite Hfw, E. reflexivity.
Qed.

Lemma documented_defaults_witness :
  let this := constructed (new_Glitcher (sample_host 0.5) sample_viewport (only_text "HI")) in
  new_Glitcher (sample_host 0.5) sample_viewport (only_text "HI") = Normal this /\
  phaseStep this = 0.05 /\ amplitudeBase this = 2.0 /\ amplitudeRange this = 2.0 /\
  alphaMin this = 0.8 /\ glitchAmplitude this = 20.0 /\ glitchThreshold this = 0.9 /\
  fontFamily this = "Arial"%string /\ fontWeight this = 500.
Proof.
  intros this.
  assert (H : new_Glitcher (sample_host 0.5) sample_viewport (only_text "HI") = Normal this)
    by (vm_compute; reflexivity).
  split; [exact H|].
  destruct (documented_defaults (sample_host 0.5) sample_viewport (only_text "HI") this H)
    as (H1 & H2 & H3 & H4 & H5 & H6 & H7 & H8).
  exact (conj (H1 eq_refl) (conj (H2 eq_refl) (conj (H3 eq_refl) (conj (H4 eq_refl)
           (conj (H5 eq_refl) (conj (H6 eq_refl) (conj (H7 eq_refl) (H8 eq_refl)))))))).
Defined.

(** ** Validation *)

(** C7: Configuration validation.  A supplied value below the lower or
    above the upper bound of its option makes construction throw, with a
    message that names an offending option and its range: the option itself
    when no option checked before it offends.  A value equal to a bound is
    accepted, the other options permitting, and becomes the effective one. *)
Theorem range_validation host vp o f :
  (offending f o = true ->
   exists g,
     offending g o = true /\
     new_Glitcher host vp o = Throw (field_name g ++ " must be in range " ++ range_text g) /\
     ((forall h, In h (checked_before f) -> offending h o = false) -> g = f)) /\
  (forall v,
     supplied f o = Some v -> v = lower f \/ v = upper f ->
     (forall h, h <> f -> offending h o = false) ->
     exists this, new_Glitcher host vp o = Normal this /\ effective f this = v).
Proof.
  split.
  - intros Hf. destruct (first_offender_some o f Hf) as (g & Hg & Hog & Hfirst).
    exists g. repeat split; [exact Hog| |exact Hfirst].
    pose proof (new_Glitcher_outcome host vp o) as H. rewrite Hg in H. exact H.
  - intros v Hs Hv Hothers.
    assert (Hall : forall h, offending h o = false).
    { intros h. destruct h, f; try (apply Hothers; discriminate);
        eapply boundary_not_offending; eauto. }
    pose proof (new_Glitcher_outcome host vp o) as H.
    rewrite (first_offender_none o Hall) in H. destruct H as [this H].
    exists this. split; [exact H|].
    apply new_Glitcher_normal in H. destruct H as (Heff & _).
    destruct (Heff f) as [_ ->]. unfold chosen. rewrite Hs. reflexivity.
Qed.

Lemma range_validation_witness :
  new_Glitcher (sample_host 0.5) sample_viewport (with_amplitudeBase 6)
  = Throw "amplitudeBase must be in range [0,5]" /\
  exists this,
    new_Glitcher (sample_host 0.5) sample_viewport (with_amplitudeBase 5) = Normal this /\
    amplitudeBase this = 5.
Proof.
  split.
  - destruct (range_validation (sample_host 0.5) sample_viewport (with_amplitudeBase 6)
                AmplitudeBase) as [Hthrow _].
    destruct (Hthrow eq_refl) as (g & _ & Hg & Hfirst).
    assert (Eg : g = AmplitudeBase).
    { apply Hfirst. intros h [<-|[]]. reflexivity. }
    rewrite Eg in Hg. exact Hg.
  - destruct (range_validation (sample_host 0.5) sample_viewport (with_amplitudeBase 5)
                AmplitudeBase) as [_ Hok].
    apply (Hok 5 eq_refl (or_intror eq_refl)).
    intros h _. destruct h; reflexivity.
Defined.

(** ** Painting *)

Section Painting.
Variable host : Host.

Lemma sar_0 x : x >> 0 = Z2number (ToInt32 x).
Proof.
  unfold sar. replace (Z.land (ToInt32 0) 31) with 0%Z by (vm_compute; reflexivity).
  rewrite Z.shiftr_0_r. reflexivity.
Qed.

Lemma sar_1 x : x >> 1 = Z2number (ToInt32 x / 2).
Proof.
  unfold sar. replace (Z.land (ToInt32 1) 31) with 1%Z by (vm_compute; reflexivity).
  rewrite Z.shiftr_div_pow2 by lia. reflexivity.
Qed.

Lemma skipn_length_app {A} (l r : list A) : skipn (List.length l) (l ++ r) = r.
Proof. induction l; cbn; auto. Qed.

(** The calls of one frame, whatever the coin of the second scanline. *)
Lemma frame_calls_painted this n :
  exists tail,
    frame_calls host this n =
    skipn (List.length (Canvas.calls (context this)))
          (Canvas.calls (context (painted host this n))) ++ tail /\
    text_passes tail = [] /\
    Canvas.attributes (context (fst (render host this n))) =
    Canvas.attributes (context (painted host this n)).
Proof.
  unfold frame_calls. rewrite render_eq. cbv zeta.
  rewrite !renderScanline_eq. cbn [fst].
  assert (Hlen : exists added, Canvas.calls (context (painted host this n)) =
                               Canvas.calls (context this) ++ added).
  { unfold painted, prepared. cbv zeta. open_glitcher this.
    destruct z_context as [attrs old].
    cbn [channel on_context set_context context Canvas.calls Canvas.call
         Canvas.set_globalAlpha Canvas.attributes].
    unfold Canvas.set_globalAlpha.
    repeat match goal with |- context [if ?b then _ else _] => destruct b end;
      cbn [renderChannels on_context set_context context Canvas.calls Canvas.call
           Canvas.set_globalAlpha Canvas.attributes Canvas.set_font Canvas.set_fillStyle
           Canvas.do_fillText Canvas.set_globalCompositeOperation font text height compOp];
      rewrite <- ?app_assoc; eexists; reflexivity. }
  destruct Hlen as [added Hadded].
  destruct (_ >? _).
  - rewrite renderScanline_eq. cbn [fst].
    generalize dependent (painted host this n). intros g Hg.
    open_glitcher g. cbn [on_context set_context context Canvas.call Canvas.calls
                          Canvas.attributes width] in *.
    rewrite Hg, <- !app_assoc, !skipn_length_app.
    eexists. split; [reflexivity|]. split; reflexivity.
  - unfold ret. cbn [fst].
    generalize dependent (painted host this n). intros g Hg.
    open_glitcher g. cbn [on_context set_context context Canvas.call Canvas.calls
                          Canvas.attributes width] in *.
    rewrite Hg, <- !app_assoc, !skipn_length_app.
    eexists. split; [reflexivity|]. split; reflexivity.
Qed.

Lemma text_passes_app a b : text_passes (a ++ b) = text_passes a ++ text_passes b.
Proof. unfold text_passes. apply flat_map_app. Qed.
End Painting.

(** A frame begins by clearing the whole surface, and its first text pass
    comes directly after. *)
Lemma frame_begins_cleared host this n :
  channel this = 0 \/ channel this = 1 \/ channel this = 2 ->
  exists first rest,
    frame_calls host this n =
    Canvas.clearRect 0 0 (width this) (height this) :: first :: rest /\
    text_passes [first] <> [].
Proof.
  intros Hc.
  destruct (frame_calls_painted host this n) as (tail & Hcalls & _ & _).
  rewrite Hcalls. clear Hcalls.
  unfold painted, prepared. cbv zeta.
  generalize (width this >> 1) (render_x0 host this (Math_random host n)).
  intros center x0.
  open_glitcher this. destruct z_context as [attrs old].
  cbn [channel] in Hc.
  cbn [channel on_context set_context context Canvas.calls Canvas.call
       Canvas.set_globalAlpha Canvas.attributes width height alphaMin compOp].
  unfold Canvas.set_globalAlpha.
  assert (E0 : (0 =? 0) = true) by reflexivity.
  assert (E10 : (1 =? 0) = false) by reflexivity.
  assert (E11 : (1 =? 1) = true) by reflexivity.
  assert (E20 : (2 =? 0) = false) by reflexivity.
  assert (E21 : (2 =? 1) = false) by reflexivity.
  assert (E22 : (2 =? 2) = true) by reflexivity.
  destruct Hc as [-> | [-> | ->]]; rewrite ?E0, ?E10, ?E11, ?E20, ?E21, ?E22;
    split_alpha;
    cbn [renderChannels on_context set_context context Canvas.calls Canvas.call
         Canvas.set_globalAlpha Canvas.attributes Canvas.set_font Canvas.set_fillStyle
         Canvas.do_fillText Canvas.set_globalCompositeOperation font text height compOp];
    rewrite <- ?app_assoc, skipn_length_app; cbn [app];
    do 2 eexists; (split; [reflexivity|discriminate]).
Qed.

(** C5 (amended): Paint passes.  With [center = width >> 1], the integer
    half of the width, channel 0 paints red, green and blue at [center],
    [center + x0], [center - x0]; channel 1 at [center + x0], [center - x0],
    [center]; channel 2 at [center - x0], [center], [center + x0].  Green
    and blue are painted under [compOp], the additive "lighter".  Red is
    painted first, directly after the whole surface is cleared, under the
    composite operation the context holds when the frame starts; every frame
    leaves that at [compOp]. *)
Theorem paint_passes host this n :
  channel this = 0 \/ channel this = 1 \/ channel this = 2 ->
  let center := width this >> 1 in
  let x0 := render_x0 host this (Math_random host n) in
  let entry := Canvas.globalCompositeOperation (Canvas.attributes (context this)) in
  let red := "rgb(255,0,0)"%string in
  let green := "rgb(0,255,0)"%string in
  let blue := "rgb(0,0,255)"%string in
  center = Z2number (ToInt32 (width this) / 2) /\
  (channel this = 0 ->
   text_passes (frame_calls host this n) =
   [(red, center, entry); (green, center + x0, compOp this); (blue, center - x0, compOp this)]) /\
  (channel this = 1 ->
   text_passes (frame_calls host this n) =
   [(red, center + x0, entry); (green, center - x0, compOp this); (blue, center, compOp this)]) /\
  (channel this = 2 ->
   text_passes (frame_calls host this n) =
   [(red, center - x0, entry); (green, center, compOp this); (blue, center + x0, compOp this)]) /\
  Canvas.globalCompositeOperation (Canvas.attributes (context (fst (render host this n))))
  = compOp this /\
  (exists first rest,
     frame_calls host this n =
     Canvas.clearRect 0 0 (width this) (height this) :: first :: rest /\
     text_passes [first] <> []).
Proof.
  intros Hc center x0 entry red green blue.
  split; [apply sar_1|].
  rewrite <- !and_assoc. split; [|apply frame_begins_cleared; exact Hc].
  rewrite !and_assoc.
  destruct (frame_calls_painted host this n) as (tail & Hcalls & Htail & Hattr).
  rewrite Hcalls, Hattr, text_passes_app, Htail, app_nil_r.
  clear Hcalls Hattr Htail tail.
  unfold painted, prepared. cbv zeta. fold x0. fold center.
  generalize center x0. clear center x0. intros center x0.
  subst entry. open_glitcher this. destruct z_context as [attrs old].
  cbn [channel] in Hc.
  cbn [channel on_context set_context context Canvas.calls Canvas.call
       Canvas.set_globalAlpha Canvas.attributes width height alphaMin compOp].
  unfold Canvas.set_globalAlpha.
  assert (E0 : (0 =? 0) = true) by reflexivity.
  assert (E10 : (1 =? 0) = false) by reflexivity.
  assert (E11 : (1 =? 1) = true) by reflexivity.
  assert (E20 : (2 =? 0) = false) by reflexivity.
  assert (E21 : (2 =? 1) = false) by reflexivity.
  assert (E22 : (2 =? 2) = true) by reflexivity.
  destruct Hc as [-> | [-> | ->]]; rewrite ?E0, ?E10, ?E11, ?E20, ?E21, ?E22;
    split_alpha;
    cbn [renderChannels on_context set_context context Canvas.calls Canvas.call
         Canvas.set_globalAlpha Canvas.attributes Canvas.set_font Canvas.set_fillStyle
         Canvas.do_fillText Canvas.set_globalCompositeOperation font text height compOp];
    rewrite <- ?app_assoc, skipn_length_app;
    cbn [app text_passes flat_map Canvas.fillStyle Canvas.globalCompositeOperation];
    (repeat split; try reflexivity; intros Hx;
     apply (f_equal Prim2SF) in Hx; vm_compute in Hx; discriminate).
Qed.

Lemma paint_passes_witness :
  let host := sample_host 0.5 in
  let this := constructed (new_Glitcher host sample_viewport quarter_turn) in
  text_passes (frame_calls host this 0) =
  [("rgb(255,0,0)"%string, 640, source_over);
   ("rgb(0,255,0)"%string, 640, lighter);
   ("rgb(0,0,255)"%string, 640, lighter)].
Proof.
  intros host this.
  destruct (paint_passes host this 0 (or_introl eq_refl)) as (_ & H0 & _).
  rewrite (H0 eq_refl). vm_compute. reflexivity.
Defined.

(** C5 (as stated) fails on the second frame: nothing puts the composite
    operation back after the first frame has set it to "lighter", so the
    red pass is then additive too. *)
Lemma red_pass_second_frame :
  let host := sample_host 0.5 in
  let this := constructed (new_Glitcher host sample_viewport quarter_turn) in
  let first := tick host this 0%nat in
  red_replaces (frame_calls host (advanced host this 0%nat) 0%nat) /\
  ~ red_replaces (frame_calls host (advanced host (fst first) (snd first)) (snd first)).
Proof.
  intros host this first. split.
  - exists 640. vm_compute. reflexivity.
  - intros [x Hx]. vm_compute in Hx. discriminate Hx.
Qed.

(** ** The offset *)

Section Offset.

Lemma quantum_pos : (0 < quantum)%Z.
Proof. unfold quantum. apply Z.pow_pos_nonneg; lia. Qed.

(** [0 * y] has no quanta, whatever [y] is. *)
Lemma quanta_zero_mul x y : x = 0 -> quanta (x * y) = 0%Z.
Proof.
  intros ->. unfold quanta. rewrite mul_spec.
  change (Prim2SF 0) with (S754_zero false).
  destruct (Prim2SF y); reflexivity.
Qed.

Lemma ToInt32_no_quanta x : quanta x = 0%Z -> ToInt32 x = 0%Z.
Proof.
  intros H. unfold ToInt32, truncate. rewrite H. reflexivity.
Qed.

Lemma zero_mul_finite y : finite y -> (0 * y =? 0) = true.
Proof.
  unfold finite. intros Hy. rewrite FloatAxioms.eqb_spec, mul_spec.
  change (Prim2SF 0) with (S754_zero false).
  destruct (Prim2SF y) as [s|s| |s m e]; cbn [SFfinite] in Hy; try discriminate;
    reflexivity.
Qed.

(** [ToInt32] within the 32-bit range is truncation toward zero. *)
Lemma ToInt32_small x :
  (Z.abs (quanta x) < 2 ^ 31 * quantum)%Z -> ToInt32 x = truncate x.
Proof.
  intros H. unfold ToInt32, truncate.
  pose proof quantum_pos as Hq.
  assert (Hb : (- 2 ^ 31 < Z.quot (quanta x) quantum < 2 ^ 31)%Z).
  { split.
    - apply Z.lt_le_trans with (- Z.quot (Z.abs (quanta x)) quantum)%Z.
      + apply Z.opp_lt_mono. rewrite !Z.opp_involutive.
        apply Z.quot_lt_upper_bound; lia.
      + rewrite <- Z.quot_opp_l by lia.
        destruct (Z.abs_spec (quanta x)) as [[? ->]|[? ->]].
        * rewrite Z.quot_opp_l by lia.
          pose proof (Z.quot_pos (quanta x) quantum ltac:(lia) ltac:(lia)). lia.
        * rewrite Z.opp_involutive. lia.
    - apply Z.le_lt_trans with (Z.quot (Z.abs (quanta x)) quantum)%Z.
      + destruct (Z.abs_spec (quanta x)) as [[? ->]|[? ->]]; [lia|].
        rewrite Z.quot_opp_l by lia.
        pose proof (Z.quot_pos (- quanta x) quantum ltac:(lia) ltac:(lia)) as Hp.
        rewrite Z.quot_opp_l in Hp by lia. lia.
      + apply Z.quot_lt_upper_bound; lia. }
  rewrite Z.mod_small by lia. lia.
Qed.

(** Truncation drops the fraction: it never passes the value, stays
    within one unit of it, and has its sign. *)
Lemma truncate_toward_zero x :
  (Z.abs (truncate x) * quantum <= Z.abs (quanta x) < (Z.abs (truncate x) + 1) * quantum)%Z /\
  (0 <= quanta x -> 0 <= truncate x)%Z /\ (quanta x <= 0 -> truncate x <= 0)%Z.
Proof.
  unfold truncate. pose proof quantum_pos as Hq.
  pose proof (Z.quot_rem' (quanta x) quantum) as Hd.
  destruct (Z.le_gt_cases 0 (quanta x)) as [Hs|Hs].
  - pose proof (Z.rem_bound_pos (quanta x) quantum Hs Hq).
    pose proof (Z.quot_pos (quanta x) quantum Hs Hq).
    repeat split; try lia; rewrite ?Z.abs_eq by lia; nia.
  - pose proof (Z.rem_bound_pos_neg (quanta x) quantum Hq ltac:(lia)).
    assert (Z.quot (quanta x) quantum <= 0)%Z.
    { rewrite <- (Z.opp_involutive (quanta x)), Z.quot_opp_l by lia.
      pose proof (Z.quot_pos (- quanta x) quantum ltac:(lia) Hq). lia. }
    repeat split; try lia; rewrite ?Z.abs_neq by lia; nia.
Qed.
End Offset.

(** C4 (amended): Base offset.  [x0] is the product
    [amplitude * sin(2 pi phase)] taken through [>> 0], that is through
    [ToInt32]: within the 32-bit range the fraction is dropped toward zero
    (and not toward minus infinity).  It is multiplied by [glitchAmplitude]
    exactly when the draw [r] is at least [glitchThreshold].  With
    [amplitude = 0] the offset is zero whatever the draw. *)
Theorem glitch_offset host this r :
  let v := amplitude this * Math_sin host (Math_PI * 2 * phase this) in
  let x0 := Z2number (ToInt32 v) in
  render_x0 host this r = (if r >=? glitchThreshold this then x0 * glitchAmplitude this else x0) /\
  ((Z.abs (quanta v) < 2 ^ 31 * quantum)%Z ->
   ToInt32 v = truncate v /\
   (Z.abs (truncate v) * quantum <= Z.abs (quanta v) < (Z.abs (truncate v) + 1) * quantum)%Z /\
   (0 <= quanta v -> 0 <= truncate v)%Z /\ (quanta v <= 0 -> truncate v <= 0)%Z) /\
  (amplitude this = 0 -> finite (glitchAmplitude this) -> (render_x0 host this r =? 0) = true).
Proof.
  intros v x0. split; [|split].
  - unfold render_x0. rewrite sar_0. reflexivity.
  - intros Hb. split; [apply ToInt32_small; exact Hb|apply truncate_toward_zero].
  - intros Ha Hg. unfold render_x0. rewrite sar_0.
    rewrite (ToInt32_no_quanta _ (quanta_zero_mul _ _ Ha)).
    change (Z2number 0) with 0.
    destruct (_ >=? _); [apply zero_mul_finite; exact Hg|reflexivity].
Qed.

Lemma glitch_offset_witness :
  let host := sample_host 0.5 in
  let this := constructed (new_Glitcher host sample_viewport quarter_turn) in
  (render_x0 host this 0.5 =? 0) = true.
Proof.
  intros host this.
  destruct (glitch_offset host this 0.5) as (_ & _ & H).
  apply H; reflexivity.
Defined.

(** C4 (as stated) fails where the product is negative and not whole: after
    eight frames of the quarter-turn page the phase is 0.75 and the amplitude
    2.5, the product is about -2.5, [>> 0] gives -2 and [Math.floor] -3. *)
Lemma offset_is_not_floored :
  let host := sample_host 0.5 in
  let this := fst (ticks host 8 (constructed (new_Glitcher host sample_viewport quarter_turn)) 0%nat) in
  phase this = 0.75 /\ amplitude this = 2.5 /\
  render_x0 host this 0.5 = -2 /\ floored_x0 host this 0.5 = -3 /\
  render_x0 host this 0.5 <> floored_x0 host this 0.5.
Proof.
  vm_compute. repeat split.
  intros Hx. apply (f_equal Prim2SF) in Hx. vm_compute in Hx. discriminate Hx.
Qed.

(** * Bounds on sampled values *)

Section Sampling.

Import Binary64.

Lemma leb_le x y : finite x -> finite y -> (x <=? y) = true -> (quanta x <= quanta y)%Z.
Proof. intros Hx Hy H. rewrite leb_quanta in H by assumption. apply Z.leb_le, H. Qed.

Lemma le_leb x y : finite x -> finite y -> (quanta x <= quanta y)%Z -> (x <=? y) = true.
Proof. intros Hx Hy H. rewrite leb_quanta by assumption. apply Z.leb_le, H. Qed.

Lemma ltb_lt x y : finite x -> finite y -> (x <? y) = true -> (quanta x < quanta y)%Z.
Proof. intros Hx Hy H. rewrite ltb_quanta in H by assumption. apply Z.ltb_lt, H. Qed.

Lemma lt_ltb x y : finite x -> finite y -> (quanta x < quanta y)%Z -> (x <? y) = true.
Proof. intros Hx Hy H. rewrite ltb_quanta by assumption. apply Z.ltb_lt, H. Qed.

Lemma nlt_ge x y : finite x -> finite y -> (x <? y) = false -> (quanta y <= quanta x)%Z.
Proof. intros Hx Hy H. rewrite ltb_quanta in H by assumption. apply Z.ltb_ge, H. Qed.

(** A number the comparisons place between two literals. *)
Lemma between_quanta lo hi x :
  finite lo -> finite hi -> (lo <=? x) = true -> (x <=? hi) = true ->
  finite x /\ (quanta lo <= quanta x <= quanta hi)%Z.
Proof.
  intros Hlo Hhi H1 H2.
  assert (Hx : finite x) by (apply (finite_between lo hi); auto).
  split; [exact Hx|]. split; apply leb_le; assumption.
Qed.

(** The largest double below 1 is [1 - 2^-53]. *)
Lemma below_one_gap q M j :
  q = (M * 2 ^ j)%Z -> (0 <= j)%Z -> (0 <= M < 2 ^ 53)%Z -> (q < 2 ^ 1074)%Z ->
  (q <= 2 ^ 1074 - 2 ^ 1021)%Z.
Proof.
  intros -> Hj HM Hq.
  destruct (Z.le_gt_cases 1021 j) as [Hl|Hs].
  - destruct (Z.le_gt_cases 1074 j) as [Hbig|Hsmall].
    + assert (M = 0%Z).
      { destruct (Z.eq_dec M 0); [assumption|exfalso].
        assert (2 ^ 1074 <= 2 ^ j)%Z by (apply Z.pow_le_mono_r; lia). nia. }
      subst M. rewrite Z.mul_0_l.
      assert (2 ^ 1021 < 2 ^ 1074)%Z by (apply Z.pow_lt_mono_r; lia). lia.
    + assert (E : (2 ^ 1074 = 2 ^ (1074 - j) * 2 ^ j)%Z).
      { rewrite <- Z.pow_add_r by lia. f_equal. lia. }
      pose proof (pow2_pos j Hj) as Hp.
      assert (M < 2 ^ (1074 - j))%Z by nia.
      assert (2 ^ 1021 <= 2 ^ j)%Z by (apply Z.pow_le_mono_r; lia).
      nia.
  - assert (M * 2 ^ j < 2 ^ 53 * 2 ^ j)%Z.
    { apply Z.mul_lt_mono_pos_r; [apply pow2_pos; lia|lia]. }
    assert (2 ^ 53 * 2 ^ j <= 2 ^ 1073)%Z.
    { rewrite <- Z.pow_add_r by lia. apply Z.pow_le_mono_r; lia. }
    assert (2 ^ 1074 = 2 * 2 ^ 1073)%Z by (rewrite <- Z.pow_succ_r by lia; reflexivity).
    assert (2 ^ 1021 <= 2 ^ 1073)%Z by (apply Z.pow_le_mono_r; lia).
    lia.
Qed.

Lemma quanta_form x :
  finite x -> exists M j, quanta x = (M * 2 ^ j)%Z /\ (0 <= j <= 2045)%Z /\ (Z.abs M < 2 ^ 53)%Z.
Proof. intros Hx. apply valid_quanta_form; [apply Prim2SF_valid|exact Hx]. Qed.

Lemma unit_draw_quanta r :
  unit_draw r -> finite r /\ (0 <= quanta r <= quantum - 2 ^ 1021)%Z.
Proof.
  intros [H0 H1].
  assert (F0 : finite 0) by reflexivity.
  assert (F1 : finite 1) by reflexivity.
  assert (Hr : finite r) by (apply (finite_between 0 1); auto).
  split; [exact Hr|].
  pose proof (leb_le 0 r F0 Hr H0) as Hlo. change (quanta 0) with 0%Z in Hlo.
  pose proof (ltb_lt r 1 Hr F1 H1) as Hhi.
  replace (quanta 1) with quantum in Hhi by (vm_compute; reflexivity).
  split; [exact Hlo|].
  destruct (quanta_form r Hr) as (M & j & E & Hj & HM).
  unfold quantum in *.
  pose proof (pow2_pos j ltac:(lia)) as Hp.
  apply (below_one_gap (quanta r) M j); try lia; nia.
Qed.

Lemma quanta_exact_id x : finite x -> round_signed 0 (quanta x) = quanta x.
Proof. intros Hx. apply valid_round_signed_id; [apply Prim2SF_valid|exact Hx]. Qed.

(** multiplying by one is exact *)
Lemma quanta_times_unit x :
  finite x -> round_signed 1074 (quanta x * quantum) = quanta x.
Proof.
  intros Hx. destruct (quanta_form x Hx) as (M & j & E & Hj & HM).
  rewrite E. unfold quantum.
  rewrite <- Z.mul_assoc, <- Z.pow_add_r by lia.
  rewrite round_signed_exact by lia. do 2 f_equal. lia.
Qed.

(** doubling is exact *)
Lemma quanta_times_two x :
  finite x -> round_signed 1074 (quanta x * (2 * quantum)) = (2 * quanta x)%Z.
Proof.
  intros Hx. destruct (quanta_form x Hx) as (M & j & E & Hj & HM).
  rewrite E. unfold quantum.
  replace (M * 2 ^ j * (2 * 2 ^ 1074))%Z with (M * 2 ^ (j + 1075))%Z.
  2:{ rewrite Z.pow_add_r by lia. change (2 ^ 1075)%Z with (2 * 2 ^ 1074)%Z. ring. }
  rewrite round_signed_exact by lia.
  replace (j + 1075 - 1074)%Z with (j + 1)%Z by lia.
  rewrite Z.pow_add_r by lia. change (2 ^ 1)%Z with 2%Z. ring.
Qed.

(** Sums and products of numbers of moderate size do not overflow. *)
Lemma product_fits a b A B :
  (Z.abs a <= A * quantum)%Z -> (Z.abs b <= B * quantum)%Z ->
  (0 <= A)%Z -> (0 <= B)%Z -> (A * B < 2 ^ 900)%Z ->
  (Z.abs (a * b) < 2 ^ 3074)%Z.
Proof.
  intros Ha Hb HA HB HAB. rewrite Z.abs_mul.
  pose proof quantum_pos as Hq.
  apply Z.le_lt_trans with ((A * quantum) * (B * quantum))%Z.
  - apply Z.mul_le_mono_nonneg; lia.
  - replace (A * quantum * (B * quantum))%Z with ((A * B) * (quantum * quantum))%Z by ring.
    unfold quantum in *. rewrite <- Z.pow_add_r by lia.
    change (1074 + 1074)%Z with 2148%Z.
    apply Z.lt_le_trans with (2 ^ 900 * 2 ^ 2148)%Z.
    + apply Z.mul_lt_mono_pos_r; [apply pow2_pos; lia|exact HAB].
    + rewrite <- Z.pow_add_r by lia. apply Z.pow_le_mono_r; lia.
Qed.

Lemma sum_fits a b A B :
  (Z.abs a <= A * quantum)%Z -> (Z.abs b <= B * quantum)%Z ->
  (0 <= A)%Z -> (0 <= B)%Z -> (A + B < 2 ^ 900)%Z ->
  (Z.abs (a + b) < 2 ^ 2000)%Z.
Proof.
  intros Ha Hb HA HB HAB.
  pose proof quantum_pos as Hq.
  apply Z.le_lt_trans with ((A + B) * quantum)%Z.
  - pose proof (Z.abs_triangle a b). lia.
  - unfold quantum in *.
    apply Z.lt_le_trans with (2 ^ 900 * 2 ^ 1074)%Z.
    + apply Z.mul_lt_mono_pos_r; [apply pow2_pos; lia|exact HAB].
    + rewrite <- Z.pow_add_r by lia. apply Z.pow_le_mono_r; lia.
Qed.
End Sampling.

Section Coin.
Import Binary64.

Lemma double_draw r :
  unit_draw r -> finite (r * 2) /\ (0 <= quanta (r * 2) < 2 * quantum)%Z.
Proof.
  intros Hr. destruct (unit_draw_quanta r Hr) as (Fr & Hlo & Hhi).
  assert (F2 : finite 2) by reflexivity.
  assert (Q2 : quanta 2 = (2 * quantum)%Z) by (vm_compute; reflexivity).
  assert (H21 : (0 < 2 ^ 1021)%Z) by (apply pow2_pos; lia).
  destruct (mul_quanta r 2 Fr F2) as [Ff Hq].
  { rewrite Q2. apply (product_fits _ _ 1 2); lia. }
  split; [exact Ff|]. rewrite Hq, Q2, quanta_times_two by exact Fr. lia.
Qed.

Lemma floor_of_small x :
  finite x -> (0 <= quanta x < 2 * quantum)%Z -> (Math_floor x >? 1) = false.
Proof.
  intros Fx Hx. unfold Math_floor.
  assert (F1 : finite 1) by reflexivity.
  assert (Q1 : quanta 1 = quantum) by (vm_compute; reflexivity).
  assert (Hself : (x >? 1) = false -> (x >? 1) = false) by auto.
  pose proof quantum_pos as Hq.
  destruct (Prim2SF x) as [s|s| |s m e] eqn:E.
  - rewrite ltb_quanta by assumption. unfold quanta at 2. rewrite E. cbn [SFquanta].
    apply Z.ltb_ge. lia.
  - unfold finite in Fx. rewrite E in Fx. discriminate.
  - unfold finite in Fx. rewrite E in Fx. discriminate.
  - destruct (Z.leb_spec 0 e) as [He|He].
    + (* a double with a non-negative exponent is at least 2^52 *)
      exfalso. pose proof (Prim2SF_valid x) as Hv. rewrite E in Hv.
      cbn [SpecFloat.valid_binary] in Hv. apply bounded_inv in Hv.
      destruct Hv as (_ & _ & [Hbad|Hm]); [lia|].
      unfold quanta in Hx. rewrite E in Hx. cbn [SFquanta] in Hx.
      assert (2 ^ 1126 <= Zpos m * 2 ^ (e + 1074))%Z.
      { change (2 ^ 1126)%Z with (2 ^ 52 * 2 ^ 1074)%Z.
        apply Z.mul_le_mono_nonneg; try lia.
        apply Z.pow_le_mono_r; lia. }
      assert (2 * quantum < 2 ^ 1126)%Z by (vm_compute; reflexivity).
      destruct s; cbn [cond_Zopp] in Hx; lia.
    + assert (Hd : (quanta x / quantum = 0 \/ quanta x / quantum = 1)%Z).
      { assert (0 <= quanta x / quantum < 2)%Z; [|lia]. split.
        - apply Z.div_pos; lia.
        - apply Z.div_lt_upper_bound; lia. }
      destruct Hd as [-> | ->]; reflexivity.
Qed.

(** The guard of the second scanline pass, line 190. *)
Lemma coin_guard r : unit_draw r -> (Math_floor (r * 2) >? 1) = false.
Proof.
  intros Hr. destruct (double_draw r Hr) as [Ff Hq]. apply floor_of_small; assumption.
Qed.
End Coin.

Section Scanlines.
Variable host : Host.

Lemma scanline_passes_app a b :
  scanline_passes (a ++ b) = scanline_passes a ++ scanline_passes b.
Proof. unfold scanline_passes. apply flat_map_app. Qed.

(** What the text passes add to the log holds no scanline. *)
Lemma painted_calls this n :
  exists added,
    Canvas.calls (context (painted host this n)) = Canvas.calls (context this) ++ added /\
    scanline_passes added = [].
Proof.
  unfold painted, prepared. cbv zeta. open_glitcher this.
  destruct z_context as [attrs old].
  cbn [channel on_context set_context context Canvas.calls Canvas.call
       Canvas.set_globalAlpha Canvas.attributes].
  unfold Canvas.set_globalAlpha.
  repeat match goal with |- context [if ?b then _ else _] => destruct b end;
    cbn [renderChannels on_context set_context context Canvas.calls Canvas.call
         Canvas.set_globalAlpha Canvas.attributes Canvas.set_font Canvas.set_fillStyle
         Canvas.do_fillText Canvas.set_globalCompositeOperation font text height compOp];
    rewrite <- ?app_assoc; eexists; split; reflexivity.
Qed.

Lemma scanline_samples_same a b r :
  same_but_context a b ->
  scanline_s b r = scanline_s a r /\ scanline_x b r = scanline_x a r.
Proof.
  intros H. destruct (same_but_context_fields a b H)
    as (_ & _ & _ & _ & _ & _ & _ & Hb & Hr & Hs & _).
  unfold scanline_s, scanline_x. rewrite Hb, Hr, Hs. split; reflexivity.
Qed.

Lemma single_scanline this n :
  (Math_floor (Math_random host (5 + n) * 2) >? 1) = false ->
  scanline_passes (frame_calls host this n) =
  [(scanline_s this (Math_random host (3 + n)), scanline_x this (Math_random host (4 + n)))].
Proof.
  intros Hcoin. unfold frame_calls. rewrite render_eq. cbv zeta.
  change (S (S (S (S (S n))))) with (5 + n)%nat. rewrite Hcoin.
  unfold ret. cbn [fst]. rewrite renderScanline_eq. cbn [fst].
  destruct (painted_calls this n) as (added & Hadded & Hnone).
  destruct (scanline_samples_same this (painted host this n) (Math_random host (3 + n))
              (painted_same host this n)) as [Es _].
  destruct (scanline_samples_same this (painted host this n) (Math_random host (4 + n))
              (painted_same host this n)) as [_ Ex].
  change (S (S (S (S n)))) with (4 + n)%nat. change (S (S (S n))) with (3 + n)%nat.
  rewrite Es, Ex.
  generalize dependent (painted host this n). intros g Hg _ _.
  open_glitcher g.
  cbn [on_context set_context context Canvas.call Canvas.calls Canvas.attributes width] in *.
  rewrite Hg, <- app_assoc, skipn_length_app, scanline_passes_app, Hnone.
  reflexivity.
Qed.
End Scanlines.

(** C6: The second scanline never fires: for a draw [r] in [0, 1) the
    guard [Math.floor(r * 2) > 1] is false, so no frame applies the
    scanline distortion twice, and a frame whose row can be read applies it
    exactly once. *)
Theorem second_scanline_never host this n :
  (forall r, unit_draw r -> (Math_floor (r * 2) >? 1) = false) /\
  (unit_draw (Math_random host (5 + n)) ->
   (List.length (scanline_passes (frame_calls host this n)) <= 1)%nat /\
   (Canvas.getImageData_returns (width this) 1 = true ->
    List.length (scanline_passes (frame_calls host this n)) = 1%nat)).
Proof.
  split; [exact coin_guard|].
  intros Hr. rewrite single_scanline by (apply coin_guard; exact Hr).
  split; [apply Nat.le_refl|]. intros _. reflexivity.
Qed.

Lemma second_scanline_never_witness :
  let host := sample_host 0.5 in
  let this := constructed (new_Glitcher host sample_viewport quarter_turn) in
  (Math_floor (0.5 * 2) >? 1) = false /\
  List.length (scanline_passes (frame_calls host this 0)) = 1%nat.
Proof.
  intros host this.
  destruct (second_scanline_never host this 0) as [Hguard Hone].
  assert (Hw : Canvas.getImageData_returns (width this) 1 = true)
    by (vm_compute; reflexivity).
  exact (conj (Hguard 0.5 (conj eq_refl eq_refl))
              (proj2 (Hone (conj eq_refl eq_refl)) Hw)).
Defined.

Section Samples.
Import Binary64.

(** The product [c * r] of a small literal and a draw. *)
Lemma scaled_draw c r C hi :
  finite c -> quanta c = (C * quantum)%Z -> (0 <= C < 2 ^ 800)%Z ->
  finite r -> (0 <= quanta r <= hi)%Z -> (hi <= quantum)%Z ->
  finite (c * r) /\
  (0 <= quanta (c * r) <= round_signed 1074 (C * quantum * hi))%Z.
Proof.
  intros Fc Qc HC Fr Hr Hhi.
  pose proof quantum_pos as Hq.
  destruct (mul_quanta c r Fc Fr) as [Ff Hm].
  { rewrite Qc. apply (product_fits _ _ C 1); try lia.
    all: apply Z.lt_trans with (2 ^ 800)%Z; [lia|apply Z.pow_lt_mono_r; lia]. }
  split; [exact Ff|]. rewrite Hm, Qc. split.
  - rewrite <- (round_signed_0 1074) at 1. apply round_signed_mono; [lia|].
    apply Z.mul_nonneg_nonneg; [apply Z.mul_nonneg_nonneg|]; lia.
  - apply round_signed_mono; [lia|].
    apply Z.mul_le_mono_nonneg_l; [apply Z.mul_nonneg_nonneg; lia|lia].
Qed.

(** The sum [c + t] of a small literal and a bounded number. *)
Lemma shifted c t C lo hi :
  finite c -> quanta c = (C * quantum)%Z -> (Z.abs C < 2 ^ 800)%Z ->
  finite t -> (lo <= quanta t <= hi)%Z -> (0 <= lo)%Z -> (hi <= 2 ^ 800 * quantum)%Z ->
  finite (c + t) /\
  (round_signed 0 (C * quantum + lo) <= quanta (c + t)
   <= round_signed 0 (C * quantum + hi))%Z.
Proof.
  intros Fc Qc HC Ft Ht Hlo Hhi.
  pose proof quantum_pos as Hq.
  destruct (add_quanta c t Fc Ft) as [Ff Ha].
  { rewrite Qc. apply (sum_fits _ _ (2 ^ 800) (2 ^ 800)); try lia.
    all: rewrite Z.abs_mul, (Z.abs_eq quantum) by lia; nia. }
  split; [exact Ff|]. rewrite Ha, Qc. split; apply round_signed_mono; lia.
Qed.

Lemma truncate_between x a b :
  (a * quantum <= quanta x)%Z -> (quanta x < (b + 1) * quantum)%Z -> (0 <= b)%Z ->
  (a <= truncate x <= b)%Z.
Proof.
  intros Ha Hb Hb0. unfold truncate. pose proof quantum_pos as Hq. split.
  - rewrite <- (Z.quot_mul a quantum) by lia. apply Z.quot_le_mono; lia.
  - destruct (Z.le_gt_cases 0 (quanta x)) as [Hs|Hs].
    + assert (Z.quot (quanta x) quantum < b + 1)%Z; [|lia].
      apply Z.quot_lt_upper_bound; lia.
    + assert (Z.quot (quanta x) quantum <= 0)%Z; [|lia].
      rewrite <- (Z.opp_involutive (quanta x)), Z.quot_opp_l by lia.
      pose proof (Z.quot_pos (- quanta x) quantum ltac:(lia) Hq). lia.
Qed.

(** An integer of a few bits, as a number. *)
Lemma sar_0_between x a b :
  (a * quantum <= quanta x)%Z -> (quanta x < (b + 1) * quantum)%Z ->
  (- 2 ^ 31 <= a)%Z -> (0 <= b < 2 ^ 31)%Z ->
  exists k, x >> 0 = Z2number k /\ (a <= k <= b)%Z /\
            finite (x >> 0) /\ quanta (x >> 0) = (k * quantum)%Z.
Proof.
  intros Ha Hb Hamin Hbmax.
  pose proof (truncate_between x a b Ha Hb ltac:(lia)) as Ht.
  exists (truncate x). rewrite sar_0.
  assert (E : ToInt32 x = truncate x).
  { unfold ToInt32. rewrite Z.mod_small by lia. lia. }
  rewrite E. split; [reflexivity|]. split; [exact Ht|].
  apply Z2number_quanta.
  assert (2 ^ 31 < 2 ^ 53)%Z by (apply Z.pow_lt_mono_r; lia). lia.
Qed.
End Samples.

Section ScanlineRanges.
Import Binary64.

Lemma brightness_range r :
  unit_draw r ->
  (40 <=? (40 + 40 * r) >> 0) = true /\ ((40 + 40 * r) >> 0 <=? 80) = true /\
  ((r <=? third_below_one) = true -> ((40 + 40 * r) >> 0 <? 80) = true).
Proof.
  intros Hr. destruct (unit_draw_quanta r Hr) as (Fr & Hlo & Hhi).
  pose proof quantum_pos as Hq.
  assert (F40 : finite 40) by reflexivity.
  assert (Q40 : quanta 40 = (40 * quantum)%Z) by (vm_compute; reflexivity).
  assert (F80 : finite 80) by reflexivity.
  assert (Q80 : quanta 80 = (80 * quantum)%Z) by (vm_compute; reflexivity).
  assert (P800 : (80 < 2 ^ 800)%Z) by (vm_compute; reflexivity).
  assert (Hq1 : (quantum - 2 ^ 1021 <= quantum)%Z)
    by (pose proof (pow2_pos 1021 ltac:(lia)); lia).
  assert (Hmono : forall hi top,
    (quanta r <= hi)%Z -> (hi <= quantum)%Z ->
    round_signed 0 (40 * quantum + round_signed 1074 (40 * quantum * hi)) = top ->
    (top < 81 * quantum)%Z ->
    exists k, (40 + 40 * r) >> 0 = Z2number k /\ (40 * quantum <= k * quantum)%Z /\
              (k * quantum <= top)%Z /\ finite ((40 + 40 * r) >> 0) /\
              quanta ((40 + 40 * r) >> 0) = (k * quantum)%Z).
  { intros hi top Hh Hhq Etop Htop.
    destruct (scaled_draw 40 r 40 hi F40 Q40 ltac:(lia) Fr ltac:(lia) Hhq) as [Ft Qt].
    assert (Hcap : (round_signed 1074 (40 * quantum * hi) <= 2 ^ 800 * quantum)%Z).
    { apply Z.le_trans with (round_signed 1074 (40 * quantum * quantum)).
      - apply round_signed_mono; [lia|]. apply Z.mul_le_mono_nonneg_l; lia.
      - rewrite <- Q40, quanta_times_unit by exact F40. rewrite Q40. nia. }
    destruct (shifted 40 (40 * r) 40 0 (round_signed 1074 (40 * quantum * hi))
                F40 Q40 ltac:(cbn [Z.abs]; lia) Ft Qt ltac:(lia) Hcap) as [Fv Qv].
    rewrite Etop in Qv. rewrite Z.add_0_r, <- Q40, quanta_exact_id, Q40 in Qv by exact F40.
    assert (Hval : exists k, (40 <= k)%Z /\ (k * quantum <= quanta (40 + 40 * r))%Z /\
                             (quanta (40 + 40 * r) < (k + 1) * quantum)%Z /\ (k <= 80)%Z).
    { exists (quanta (40 + 40 * r) / quantum)%Z.
      pose proof (Z.div_mod (quanta (40 + 40 * r)) quantum ltac:(lia)).
      pose proof (Z.mod_pos_bound (quanta (40 + 40 * r)) quantum Hq).
      assert (40 <= quanta (40 + 40 * r) / quantum)%Z
        by (apply Z.div_le_lower_bound; lia).
      assert (quanta (40 + 40 * r) / quantum < 81)%Z
        by (apply Z.div_lt_upper_bound; lia).
      repeat split; nia. }
    destruct Hval as (k0 & Hk40 & Hk1 & Hk2 & Hk80).
    destruct (sar_0_between (40 + 40 * r) k0 k0 Hk1 Hk2 ltac:(lia) ltac:(lia))
      as (k & Ek & Hk & Fs & Qs).
    assert (k = k0) by lia. subst k0.
    exists k. repeat split; try assumption; nia. }
  assert (Etop : round_signed 0 (40 * quantum +
                   round_signed 1074 (40 * quantum * (quantum - 2 ^ 1021)))
                 = (80 * quantum)%Z) by (vm_compute; reflexivity).
  destruct (Hmono _ _ Hhi Hq1 Etop ltac:(lia)) as (k & Ek & Hk1 & Hk2 & Fs & Qs).
  split; [|split].
  - apply le_leb; [exact F40|exact Fs|]. rewrite Q40, Qs. exact Hk1.
  - apply le_leb; [exact Fs|exact F80|]. rewrite Q80, Qs. exact Hk2.
  - intros H3.
    assert (F3 : finite third_below_one) by reflexivity.
    pose proof (leb_le r third_below_one Fr F3 H3) as Hr3.
    assert (H3q : (quanta third_below_one <= quantum)%Z) by (vm_compute; discriminate).
    assert (Etop3 : (round_signed 0 (40 * quantum +
                       round_signed 1074 (40 * quantum * quanta third_below_one))
                     <? 80 * quantum)%Z = true) by (vm_compute; reflexivity).
    apply Z.ltb_lt in Etop3.
    destruct (Hmono _ _ Hr3 H3q eq_refl ltac:(lia)) as (k' & Ek' & Hk1' & Hk2' & Fs' & Qs').
    apply lt_ltb; [exact Fs'|exact F80|]. rewrite Q80, Qs'. lia.
Qed.
End ScanlineRanges.

Section Displacement.
Import Binary64.

Lemma displacement_range r :
  unit_draw r ->
  (-15 <=? (-15 + 30 * r) >> 0) = true /\ ((-15 + 30 * r) >> 0 <? 15) = true.
Proof.
  intros Hr. destruct (unit_draw_quanta r Hr) as (Fr & Hlo & Hhi).
  pose proof quantum_pos as Hq.
  assert (F30 : finite 30) by reflexivity.
  assert (Q30 : quanta 30 = (30 * quantum)%Z) by (vm_compute; reflexivity).
  assert (Fm : finite (-15)) by reflexivity.
  assert (Qm : quanta (-15) = (-15 * quantum)%Z) by (vm_compute; reflexivity).
  assert (F15 : finite 15) by reflexivity.
  assert (Q15 : quanta 15 = (15 * quantum)%Z) by (vm_compute; reflexivity).
  assert (P800 : (80 < 2 ^ 800)%Z) by (vm_compute; reflexivity).
  assert (Hq1 : (quantum - 2 ^ 1021 <= quantum)%Z)
    by (pose proof (pow2_pos 1021 ltac:(lia)); lia).
  destruct (scaled_draw 30 r 30 (quantum - 2 ^ 1021) F30 Q30 ltac:(lia) Fr ltac:(lia) Hq1)
    as [Ft Qt].
  assert (Hcap : (round_signed 1074 (30 * quantum * (quantum - 2 ^ 1021))
                  <= 2 ^ 800 * quantum)%Z).
  { apply Z.le_trans with (round_signed 1074 (30 * quantum * quantum)).
    - apply round_signed_mono; [lia|]. apply Z.mul_le_mono_nonneg_l; lia.
    - rewrite <- Q30, quanta_times_unit by exact F30. rewrite Q30. nia. }
  destruct (shifted (-15) (30 * r) (-15) 0
              (round_signed 1074 (30 * quantum * (quantum - 2 ^ 1021)))
              Fm Qm ltac:(cbn [Z.abs]; lia) Ft Qt ltac:(lia) Hcap) as [Fv Qv].
  rewrite Z.add_0_r, <- Qm, quanta_exact_id, Qm in Qv by exact Fm.
  assert (Etop : (round_signed 0 (-15 * quantum +
                    round_signed 1074 (30 * quantum * (quantum - 2 ^ 1021)))
                  <? 15 * quantum)%Z = true) by (vm_compute; reflexivity).
  apply Z.ltb_lt in Etop.
  destruct (sar_0_between (-15 + 30 * r) (-15) 14 ltac:(lia) ltac:(lia)
              ltac:(cbn; lia) ltac:(cbn; lia)) as (k & Ek & Hk & Fs & Qs).
  split.
  - apply le_leb; [exact Fm|exact Fs|]. rewrite Qm, Qs. nia.
  - apply lt_ltb; [exact Fs|exact F15|]. rewrite Q15, Qs. nia.
Qed.
End Displacement.

(** C9 (amended): Scanline sample ranges.  With the fixed
    values 40, 40 and 15 and a draw in [0, 1), the brightness offset lies in
    [40, 80]: the sum [40 + 40 * r] is rounded to a double, and for the draws
    next to 1 it rounds to 80 itself; it is below 80 for every draw up to
    [1 - 3 * 2^-53].  The displacement lies in [-15, 15).  Both hold for the
    scanline pass of every frame. *)
Theorem scanline_ranges this :
  scanlineBase this = 40 -> scanlineRange this = 40 -> scanlineShift this = 15 ->
  (forall r, unit_draw r ->
     (40 <=? scanline_s this r) = true /\ (scanline_s this r <=? 80) = true /\
     ((r <=? third_below_one) = true -> (scanline_s this r <? 80) = true) /\
     (-15 <=? scanline_x this r) = true /\ (scanline_x this r <? 15) = true) /\
  (forall host n,
     (forall i, unit_draw (Math_random host i)) ->
     Forall (fun p => scanline_sample_ok (fst p) (snd p))
            (scanline_passes (frame_calls host this n))).
Proof.
  intros Hb Hr Hs.
  assert (H : forall r, unit_draw r ->
     (40 <=? scanline_s this r) = true /\ (scanline_s this r <=? 80) = true /\
     ((r <=? third_below_one) = true -> (scanline_s this r <? 80) = true) /\
     (-15 <=? scanline_x this r) = true /\ (scanline_x this r <? 15) = true).
  { intros r Hd. unfold scanline_s, scanline_x. rewrite Hb, Hr, Hs.
    change (- (15)) with (-15). change (15 * 2) with 30.
    destruct (brightness_range r Hd) as (H1 & H2 & H3).
    destruct (displacement_range r Hd) as (H4 & H5).
    repeat split; assumption. }
  split; [exact H|].
  intros host n Hdraws.
  rewrite single_scanline.
  - constructor; [|constructor]. cbn [fst snd].
    destruct (H _ (Hdraws (3 + n)%nat)) as (H1 & H2 & _).
    destruct (H _ (Hdraws (4 + n)%nat)) as (_ & _ & _ & H4 & H5).
    repeat split; assumption.
  - apply coin_guard, Hdraws.
Qed.

Lemma scanline_ranges_witness :
  let this := constructed (new_Glitcher (sample_host 0.5) sample_viewport (only_text "HI")) in
  (40 <=? scanline_s this 0.5) = true /\ (scanline_s this 0.5 <? 80) = true /\
  (-15 <=? scanline_x this 0.5) = true /\ (scanline_x this 0.5 <? 15) = true.
Proof.
  intros this.
  destruct (scanline_ranges this eq_refl eq_refl eq_refl) as [H _].
  destruct (H 0.5 (conj eq_refl eq_refl)) as (H1 & _ & H3 & H4 & H5).
  exact (conj H1 (conj (H3 eq_refl) (conj H4 H5))).
Defined.

(** C9 (as stated) fails at the largest draw: [40 * (1 - 2^-53)] rounds to
    [40 - 2^-47], and [40 + (40 - 2^-47)] lies midway between two doubles and
    rounds to the even one, 80. *)
Lemma brightness_reaches_80 :
  let this := constructed (new_Glitcher (sample_host 0.5) sample_viewport (only_text "HI")) in
  let r := 0x1.fffffffffffffp-1 in
  unit_draw r /\ scanline_s this r = 80 /\
  (scanline_s this r <? scanlineBase this + scanlineRange this) = false.
Proof.
  intros this r. repeat split; vm_compute; reflexivity.
Qed.

Section Amplitude.
Import Binary64.

Lemma in_range_quanta f v :
  in_range f v -> finite v /\ (0 <= quanta v <= quanta (upper f))%Z.
Proof.
  intros [H1 H2].
  assert (F0 : finite (lower f)) by reflexivity.
  assert (Fu : finite (upper f)) by (destruct f; reflexivity).
  destruct (between_quanta (lower f) (upper f) v F0 Fu H1 H2) as [Fv Hq].
  split; [exact Fv|]. exact Hq.
Qed.

Lemma resampled_range b g r :
  in_range AmplitudeBase b -> in_range AmplitudeRange g -> unit_draw r ->
  (b <=? b + g * r) = true /\ (b + g * r <=? b + g) = true.
Proof.
  intros Hb Hg Hr.
  destruct (in_range_quanta _ _ Hb) as (Fb & Hb0 & Hb5).
  destruct (in_range_quanta _ _ Hg) as (Fg & Hg0 & Hg5).
  destruct (unit_draw_quanta r Hr) as (Fr & Hr0 & Hr1).
  pose proof quantum_pos as Hq.
  pose proof (pow2_pos 1021 ltac:(lia)) as H21.
  replace (quanta (upper AmplitudeBase)) with (5 * quantum)%Z in Hb5
    by (vm_compute; reflexivity).
  replace (quanta (upper AmplitudeRange)) with (5 * quantum)%Z in Hg5
    by (vm_compute; reflexivity).
  assert (P900 : (100 < 2 ^ 900)%Z) by (vm_compute; reflexivity).
  (* the product *)
  destruct (mul_quanta g r Fg Fr) as [Ft Qt].
  { apply (product_fits _ _ 5 1); lia. }
  assert (Ht : (0 <= quanta (g * r) <= quanta g)%Z).
  { rewrite Qt. split.
    - rewrite <- (round_signed_0 1074) at 1. apply round_signed_mono; [lia|].
      apply Z.mul_nonneg_nonneg; lia.
    - rewrite <- (quanta_times_unit g Fg) at 2. apply round_signed_mono; [lia|].
      apply Z.mul_le_mono_nonneg_l; lia. }
  (* the two sums *)
  destruct (add_quanta b (g * r) Fb Ft) as [Fa Qa].
  { apply (sum_fits _ _ 5 5); lia. }
  destruct (add_quanta b g Fb Fg) as [Fbg Qbg].
  { apply (sum_fits _ _ 5 5); lia. }
  split.
  - apply le_leb; [exact Fb|exact Fa|]. rewrite Qa.
    rewrite <- (quanta_exact_id b Fb) at 1. apply round_signed_mono; lia.
  - apply le_leb; [exact Fa|exact Fbg|]. rewrite Qa, Qbg.
    apply round_signed_mono; lia.
Qed.
End Amplitude.

(** C3: Amplitude resampling.  A frame that does not wrap leaves the
    amplitude as it was, and so do two such frames in a row.  A frame that
    wraps sets it to [amplitudeBase + amplitudeRange * r], [r] being the
    frame's first draw; with the two options in their ranges and [r] in
    [0, 1), the new amplitude lies between [amplitudeBase] and
    [amplitudeBase + amplitudeRange]. *)
Theorem amplitude_resampling host this n :
  let next := fst (tick host this n) in
  (wraps this = false -> amplitude next = amplitude this) /\
  (wraps this = false -> forall m,
     wraps next = false -> amplitude (fst (tick host next m)) = amplitude this) /\
  (wraps this = true ->
   amplitude next = amplitudeBase this + amplitudeRange this * Math_random host n) /\
  (wraps this = true ->
   in_range AmplitudeBase (amplitudeBase this) ->
   in_range AmplitudeRange (amplitudeRange this) ->
   unit_draw (Math_random host n) ->
   (amplitudeBase this <=? amplitude next) = true /\
   (amplitude next <=? amplitudeBase this + amplitudeRange this) = true).
Proof.
  intros next. unfold next.
  split; [|split; [|split]].
  - intros Hw. rewrite tick_amplitude, Hw. reflexivity.
  - intros Hw m Hw'. rewrite tick_amplitude, Hw', tick_amplitude, Hw. reflexivity.
  - intros Hw. rewrite tick_amplitude, Hw. reflexivity.
  - intros Hw Hb Hg Hr. rewrite tick_amplitude, Hw. apply resampled_range; assumption.
Qed.

Lemma amplitude_resampling_witness :
  let host := sample_host 0.5 in
  let this := set_phase 1 (constructed (new_Glitcher host sample_viewport (only_text "HI"))) in
  let next := fst (tick host this 0%nat) in
  amplitude next = 3 /\
  (amplitudeBase this <=? amplitude next) = true /\
  (amplitude next <=? amplitudeBase this + amplitudeRange this) = true.
Proof.
  intros host this next.
  destruct (amplitude_resampling host this 0%nat) as (_ & _ & Hval & Hrange).
  split.
  - unfold next. rewrite (Hval eq_refl). vm_compute. reflexivity.
  - apply (Hrange eq_refl); split; reflexivity.
Defined.

Section Phase.
Import Binary64.
Variable host : Host.

Lemma ticks_snoc k : forall this n,
  ticks host (S k) this n =
  tick host (fst (ticks host k this n)) (snd (ticks host k this n)).
Proof.
  induction k as [|k IH]; intros this n.
  - cbn [ticks]. unfold bind, ret. cbn [fst snd]. destruct (tick host this n). reflexivity.
  - rewrite ticks_S, IH, <- ticks_S. reflexivity.
Qed.

Lemma ticks_phaseStep k : forall this n,
  phaseStep (fst (ticks host k this n)) = phaseStep this.
Proof.
  induction k as [|k IH]; intros this n.
  - reflexivity.
  - rewrite ticks_S, IH. apply tick_config.
Qed.

(** One addition that stays at or below 1 is off by at most [2^-53]. *)
Lemma step_error x p :
  finite x -> (0 <= quanta x <= quantum)%Z ->
  finite p -> (0 <= quanta p <= quantum)%Z ->
  (x + p >? 1) = false ->
  finite (x + p) /\ (0 <= quanta (x + p) <= quantum)%Z /\
  (Z.abs (quanta (x + p) - (quanta x + quanta p)) <= 2 ^ 1021)%Z.
Proof.
  intros Fx Hx Fp Hp Hw.
  pose proof quantum_pos as Hq.
  destruct (add_quanta x p Fx Fp) as [Fs Qs].
  { apply (sum_fits _ _ 1 1); try lia. }
  assert (F1 : finite 1) by reflexivity.
  pose proof (nlt_ge _ _ F1 Fs Hw) as Hle.
  replace (quanta 1) with quantum in Hle by (vm_compute; reflexivity).
  split; [exact Fs|].
  set (S := (quanta x + quanta p)%Z) in *.
  assert (HS0 : (0 <= S)%Z) by (unfold S; lia).
  assert (Hpos : (0 <= quanta (x + p))%Z).
  { rewrite Qs. rewrite <- (round_signed_0 0) at 1. apply round_signed_mono; lia. }
  split; [lia|].
  destruct (Z.eq_dec S 0) as [E0|Hne].
  { rewrite Qs, E0. cbn. pose proof (pow2_pos 1021 ltac:(lia)). lia. }
  assert (Hrs : round_signed 0 S = round_quanta 0 S).
  { unfold round_signed. rewrite Z.sgn_pos, Z.abs_eq by lia. lia. }
  assert (Hlog : (Z.log2 S <= 1074)%Z).
  { destruct (Z.le_gt_cases (Z.log2 S) 1074) as [|Hbig]; [assumption|exfalso].
    assert (2 ^ 1075 <= S)%Z by (apply Z.log2_le_pow2; lia).
    assert (round_signed 0 (2 ^ 1075) <= round_signed 0 S)%Z
      by (apply round_signed_mono; lia).
    assert (round_signed 0 (2 ^ 1075) = 2 ^ 1075)%Z.
    { replace (2 ^ 1075)%Z with (1 * 2 ^ 1075)%Z at 1 by lia.
      rewrite round_signed_exact by (cbn; lia). rewrite Z.sub_0_r. lia. }
    assert (quantum < 2 ^ 1075)%Z by (unfold quantum; apply Z.pow_lt_mono_r; lia).
    lia. }
  pose proof (round_quanta_error 0 S ltac:(lia) HS0) as Herr.
  rewrite Z.pow_0_r, Z.mul_1_r in Herr.
  assert (2 ^ Z.max (Z.log2 S - 52) 0 <= 2 ^ 1022)%Z
    by (apply Z.pow_le_mono_r; lia).
  rewrite Qs, Hrs.
  change (2 ^ 1022)%Z with (2 * 2 ^ 1021)%Z in *. lia.
Qed.

(** The phase after [k] frames without a wrap. *)
Lemma phase_drift this0 n :
  phase this0 = 0 -> in_range PhaseStep (phaseStep this0) ->
  forall k,
    (forall j, (j < k)%nat -> wraps (fst (ticks host j this0 n)) = false) ->
    finite (phase (fst (ticks host k this0 n))) /\
    (0 <= quanta (phase (fst (ticks host k this0 n))) <= quantum)%Z /\
    (Z.abs (quanta (phase (fst (ticks host k this0 n)))
            - Z.of_nat k * quanta (phaseStep this0)) <= Z.of_nat k * 2 ^ 1021)%Z.
Proof.
  intros H0 Hp.
  destruct (in_range_quanta _ _ Hp) as (Fp & Hp0 & Hp1).
  replace (quanta (upper PhaseStep)) with quantum in Hp1 by (vm_compute; reflexivity).
  pose proof quantum_pos as Hq.
  induction k as [|k IH]; intros Hnowrap.
  - cbn [ticks]. unfold ret. cbn [fst]. rewrite H0.
    change (quanta 0) with 0%Z. repeat split; try reflexivity; cbn; lia.
  - destruct IH as (Fk & Hk & Ek).
    { intros j Hj. apply Hnowrap. lia. }
    pose proof (Hnowrap k ltac:(lia)) as Hw.
    rewrite ticks_snoc, tick_phase, Hw.
    unfold wraps in Hw. rewrite ticks_phaseStep in Hw |- *.
    destruct (step_error _ _ Fk Hk Fp ltac:(lia) Hw) as (Fs & Hs & Es).
    split; [exact Fs|]. split; [exact Hs|].
    rewrite Nat2Z.inj_succ. lia.
Qed.

Lemma drift_as_rational (D : positive) a b k e :
  (0 <= k)%Z -> (Z.abs (a - k * b) <= k * e)%Z -> (e * 2 ^ 53 = Zpos D)%Z ->
  (Qabs (Qmake a D - inject_Z k * Qmake b D) <= inject_Z k * (1 # 2 ^ 53))%Q.
Proof.
  intros Hk Hab HD.
  assert (E : (Qmake a D - inject_Z k * Qmake b D == Qmake (a - k * b) D)%Q).
  { unfold Qeq, Qminus, Qplus, Qopp, Qmult, inject_Z. cbn [Qnum Qden].
    rewrite !Pos2Z.inj_mul. ring. }
  rewrite E. unfold Qabs, Qle, Qmult, inject_Z. cbn [Qnum Qden].
  rewrite Pos2Z.inj_mul. change (Zpos (2 ^ 53)) with (2 ^ 53)%Z. rewrite <- HD.
  change (Zpos 1) with 1%Z. nia.
Qed.
End Phase.

(** C1: Phase progression.  From [phase = 0] and a step [p] in [0, 1],
    while no frame wraps the phase after [k] frames is [k * p] up to
    [k * 2^-53]: each addition is rounded to a double at or below 1.  A
    frame whose advanced phase exceeds 1 sets the phase to exactly 0. *)
Theorem phase_progression host this0 n :
  phase this0 = 0 -> in_range PhaseStep (phaseStep this0) ->
  (forall k,
     (forall j, (j < k)%nat -> wraps (fst (ticks host j this0 n)) = false) ->
     (Qabs (F2Q (phase (fst (ticks host k this0 n)))
            - inject_Z (Z.of_nat k) * F2Q (phaseStep this0))
      <= inject_Z (Z.of_nat k) * (1 # 2 ^ 53))%Q) /\
  (forall this m, wraps this = true -> phase (fst (tick host this m)) = 0).
Proof.
  intros H0 Hp. split.
  - intros k Hnowrap.
    destruct (phase_drift host this0 n H0 Hp k Hnowrap) as (_ & _ & Hd).
    unfold F2Q. apply (drift_as_rational _ _ _ _ (2 ^ 1021)%Z); [lia|exact Hd|].
    vm_compute. reflexivity.
  - intros this m Hw. rewrite tick_phase, Hw. reflexivity.
Qed.

Lemma phase_progression_witness :
  let host := sample_host 0.5 in
  let this0 := constructed (new_Glitcher host sample_viewport (only_text "HI")) in
  (Qabs (F2Q (phase (fst (ticks host 3 this0 0%nat))) - inject_Z 3 * F2Q 0.05)
   <= inject_Z 3 * (1 # 2 ^ 53))%Q.
Proof.
  intros host this0.
  destruct (phase_progression host this0 0%nat eq_refl (conj eq_refl eq_refl)) as [H _].
  apply (H 3%nat).
  intros j Hj.
  destruct j as [|[|[|j]]]; [vm_compute; reflexivity..|lia].
Defined.

(** * Further properties of the methods

    What the methods guarantee beyond the ten claims: the outcome of the
    constructor, the layout [resize] computes, what a frame touches, logs and
    draws, and the ranges of the values a frame samples. *)

(** ** Differences and quotients of doubles *)

Module Differences.
Import Binary64.
#[local] Open Scope Z_scope.

Lemma SFsub_quanta x y :
  valid_binary x = true -> valid_binary y = true ->
  SFfinite x = true -> SFfinite y = true ->
  Z.abs (SFquanta x - SFquanta y) < 2 ^ 2000 ->
  SFfinite (SFsub prec emax x y) = true /\
  SFquanta (SFsub prec emax x y) = round_signed 0 (SFquanta x - SFquanta y).
Proof.
  intros Hvx Hvy Hfx Hfy Hb.
  pose proof (valid_round_signed_id x Hvx Hfx) as Ix.
  pose proof (valid_round_signed_id y Hvy Hfy) as Iy.
  destruct x as [sx|sx| |sx mx ex]; cbn [SFfinite] in Hfx; try discriminate;
  destruct y as [sy|sy| |sy my ey]; cbn [SFfinite] in Hfy; try discriminate.
  - cbn [SFsub SFquanta]. destruct sx, sy; split; reflexivity.
  - cbn [SFsub]. change (SFquanta (S754_zero sx)) with 0. rewrite Z.sub_0_l.
    split; [reflexivity|].
    assert (E : SFquanta (S754_finite (negb sy) my ey) = - SFquanta (S754_finite sy my ey)).
    { cbn [SFquanta]. destruct sy; cbn [negb cond_Zopp]; lia. }
    rewrite E. unfold round_signed in *. rewrite Z.sgn_opp, Z.abs_opp. lia.
  - cbn [SFsub]. change (SFquanta (S754_zero sy)) with 0. rewrite Z.sub_0_r.
    split; [reflexivity|symmetry; exact Ix].
  - cbn [SFsub]. cbn [valid_binary] in Hvx, Hvy.
    apply bounded_inv in Hvx, Hvy.
    destruct Hvx as (Hex & _), Hvy as (Hey & _).
    set (ez := Z.min ex ey).
    pose proof (shl_align_spec mx ex ez) as Hsx.
    pose proof (shl_align_spec my ey ez) as Hsy.
    destruct (shl_align mx ex ez) as [mx' ex'], (shl_align my ey ez) as [my' ey'].
    destruct Hsx as [Hex' Hmx'], Hsy as [Hey' Hmy'].
    cbn [fst].
    assert (Ex' : ex' = ez) by (unfold ez in *; lia).
    assert (Ey' : ey' = ez) by (unfold ez in *; lia).
    subst ex' ey'.
    assert (ES : (cond_Zopp sx (Zpos mx') - cond_Zopp sy (Zpos my')) * 2 ^ (ez + 1074)
                 = SFquanta (S754_finite sx mx ex) - SFquanta (S754_finite sy my ey)).
    { cbn [SFquanta]. rewrite Hmx', Hmy', Ex', Ey'.
      replace (ex + 1074) with ((ex - ez) + (ez + 1074)) by lia.
      replace (ey + 1074) with ((ey - ez) + (ez + 1074)) by lia.
      rewrite (Z.pow_add_r 2 (ex - ez) (ez + 1074)) by (unfold ez; lia).
      rewrite (Z.pow_add_r 2 (ey - ez) (ez + 1074)) by (unfold ez; lia).
      destruct sx, sy; cbn [cond_Zopp]; ring. }
    rewrite <- ES. apply binary_normalize_quanta; [unfold ez; lia|].
    rewrite <- ES in Hb. rewrite Z.abs_mul in Hb.
    rewrite (Z.abs_eq (2 ^ (ez + 1074))) in Hb; [exact Hb|].
    apply Z.pow_nonneg; lia.
Qed.

Lemma sub_quanta x y :
  finite x -> finite y -> Z.abs (quanta x - quanta y) < 2 ^ 2000 ->
  finite (x - y)%float /\ quanta (x - y)%float = round_signed 0 (quanta x - quanta y).
Proof.
  intros Hx Hy Hb. unfold finite, quanta. rewrite sub_spec.
  apply SFsub_quanta; auto using Prim2SF_valid.
Qed.

Lemma round_signed_opp u N : round_signed u (- N) = - round_signed u N.
Proof. unfold round_signed. rewrite Z.sgn_opp, Z.abs_opp. ring. Qed.

End Differences.

Module Quotients.
Import Binary64.
#[local] Open Scope Z_scope.

Lemma new_location_spec d r :
  0 < d -> 0 <= r < d ->
  new_location d r = if r =? 0 then loc_Exact else loc_Inexact (2 * r ?= d).
Proof.
  intros Hd Hr. unfold new_location, new_location_even, new_location_odd.
  destruct (Z.even d) eqn:Ev; [reflexivity|].
  destruct (r =? 0); [reflexivity|]. f_equal.
  assert (Hodd : Z.odd d = true) by (rewrite <- Z.negb_even, Ev; reflexivity).
  apply Z.odd_spec in Hodd. destruct Hodd as [t Et].
  destruct (Z.compare_spec (2 * r + 1) d), (Z.compare_spec (2 * r) d);
    try reflexivity; lia.
Qed.

Lemma shr_record_of_loc_code q l :
  0 <= q ->
  shr_1 (shr_1 (Build_shr_record (4 * q + loc_code l) false false)) = shr_record_of_loc q l.
Proof.
  intros Hq.
  assert (Hh : forall a c, 0 <= c < 2 -> (2 * a + c) / 2 = a /\ Z.odd (2 * a + c) = (c =? 1)).
  { intros a c Hc. split.
    - symmetry. apply Z.div_unique with c; lia.
    - rewrite Zodd_mod. f_equal. symmetry. apply Z.mod_unique with a; lia. }
  destruct l as [|[| |]]; cbn [loc_code shr_record_of_loc].
  - rewrite shr_1_nonneg by lia.
    destruct (Hh (2 * q) 0 ltac:(lia)) as [E1 E2].
    replace (4 * q + 0) with (2 * (2 * q) + 0) by lia. rewrite E1, E2.
    rewrite shr_1_nonneg by lia.
    destruct (Hh q 0 ltac:(lia)) as [E3 E4].
    replace (2 * q) with (2 * q + 0) by lia. rewrite E3, E4. reflexivity.
  - rewrite shr_1_nonneg by lia.
    replace (4 * q + 2) with (2 * (2 * q + 1) + 0) by lia.
    destruct (Hh (2 * q + 1) 0 ltac:(lia)) as [E1 E2]. rewrite E1, E2.
    rewrite shr_1_nonneg by lia.
    destruct (Hh q 1 ltac:(lia)) as [E3 E4]. rewrite E3, E4. reflexivity.
  - rewrite shr_1_nonneg by lia.
    replace (4 * q + 1) with (2 * (2 * q) + 1) by lia.
    destruct (Hh (2 * q) 1 ltac:(lia)) as [E1 E2]. rewrite E1, E2.
    rewrite shr_1_nonneg by lia.
    destruct (Hh q 0 ltac:(lia)) as [E3 E4].
    replace (2 * q) with (2 * q + 0) by lia. rewrite E3, E4. reflexivity.
  - rewrite shr_1_nonneg by lia.
    replace (4 * q + 3) with (2 * (2 * q + 1) + 1) by lia.
    destruct (Hh (2 * q + 1) 1 ltac:(lia)) as [E1 E2]. rewrite E1, E2.
    rewrite shr_1_nonneg by lia.
    destruct (Hh q 1 ltac:(lia)) as [E3 E4]. rewrite E3, E4. reflexivity.
Qed.

Lemma loc_code_bound l : 0 <= loc_code l <= 3.
Proof. destruct l as [|[| |]]; cbn; lia. Qed.

Lemma log2_sticky q c : 0 < q -> 0 <= c <= 3 -> Z.log2 (4 * q + c) = Z.log2 q + 2.
Proof.
  intros Hq Hc.
  pose proof (Z.log2_spec q Hq) as [Hlo Hhi].
  pose proof (Z.log2_nonneg q) as Hn.
  apply Z.log2_unique; [lia|].
  rewrite Z.pow_add_r by lia.
  replace (Z.succ (Z.log2 q + 2)) with (Z.succ (Z.log2 q) + 2) by lia.
  rewrite (Z.pow_add_r 2 (Z.succ (Z.log2 q)) 2) by lia.
  change (2 ^ 2) with 4. lia.
Qed.

(** A located quotient is shifted like the integer that carries its two
    extra bits. *)
Lemma shr_fexp_code q e l :
  0 < q -> 0 <= fexp prec emax (Zdigits2 q + e) - e ->
  shr_fexp prec emax q e l =
  shr_fexp prec emax (4 * q + loc_code l) (e - 2) loc_Exact.
Proof.
  intros Hq Hk.
  pose proof (loc_code_bound l) as Hc.
  unfold shr_fexp.
  destruct q as [|qp|qp]; try lia.
  assert (EN : exists np, 4 * Zpos qp + loc_code l = Zpos np).
  { destruct (4 * Zpos qp + loc_code l) as [|np|np] eqn:E; try lia. exists np. reflexivity. }
  destruct EN as [np EN]. rewrite EN.
  cbn [Zdigits2] in *. rewrite !digits2_log2 in *.
  rewrite <- EN. rewrite log2_sticky by lia.
  replace (Z.log2 (Zpos qp) + 2 + 1 + (e - 2)) with (Z.log2 (Zpos qp) + 1 + e) by lia.
  set (E := fexp prec emax (Z.log2 (Zpos qp) + 1 + e)) in *.
  cbn [shr_record_of_loc].
  rewrite <- (shr_record_of_loc_code (Zpos qp) l) by lia.
  destruct (E - e) as [|p|p] eqn:Hd; try lia.
  - replace (E - (e - 2)) with 2 by lia.
    cbn [shr iter_pos]. f_equal. lia.
  - replace (E - (e - 2)) with (Zpos (p + 2)) by lia.
    cbn [shr]. f_equal; [|lia].
    rewrite !iter_pos_nat.
    replace (Pos.to_nat (p + 2)) with (Pos.to_nat p + 2)%nat by lia.
    rewrite Nat.iter_add. reflexivity.
Qed.

Lemma binary_round_aux_code s q e l :
  0 < q -> 0 <= fexp prec emax (Zdigits2 q + e) - e ->
  binary_round_aux prec emax s q e l =
  binary_round_aux prec emax s (4 * q + loc_code l) (e - 2) loc_Exact.
Proof.
  intros Hq Hk. unfold binary_round_aux. rewrite (shr_fexp_code q e l Hq Hk). reflexivity.
Qed.

(** The quotient of two normal positive doubles, between two doubles on the
    quotient's grid. *)
Lemma SFdiv_between mx ex my ey L H :
  bounded prec emax mx ex = true -> bounded prec emax my ey = true ->
  2 ^ 52 <= Zpos mx -> 2 ^ 52 <= Zpos my ->
  -1074 <= ex - ey - 53 ->
  let g := ex - ey - 53 + 1074 in
  0 <= L -> H < 2 ^ 2000 ->
  (exists l, L = l * 2 ^ g) -> (exists h, H = h * 2 ^ g) ->
  round_quanta 2 (4 * L) = L -> round_quanta 2 (4 * H) = H ->
  L * (Zpos my * 2 ^ (ey + 1074)) <= Zpos mx * 2 ^ (ex + 1074) * quantum
    <= H * (Zpos my * 2 ^ (ey + 1074)) ->
  let R := SFdiv prec emax (S754_finite false mx ex) (S754_finite false my ey) in
  SFfinite R = true /\ L <= SFquanta R <= H.
Proof.
  intros Bx By Nx Ny He g HL HH [l El] [h Eh] RL RH Hbetween R.
  apply bounded_inv in Bx, By.
  destruct Bx as (Hex & Hmx & _), By as (Hey & Hmy & _).
  assert (Lx : Z.log2 (Zpos mx) = 52).
  { apply Z.log2_unique; [lia|]. change (Z.succ 52) with 53. lia. }
  assert (Ly : Z.log2 (Zpos my) = 52).
  { apply Z.log2_unique; [lia|]. change (Z.succ 52) with 53. lia. }
  pose proof (pow2_pos g ltac:(unfold g; lia)) as Pg.
  unfold R, SFdiv, SFdiv_core_binary. cbn [Zdigits2 xorb].
  rewrite !digits2_log2, Lx, Ly, fexp64.
  replace (Z.min (Z.max (52 + 1 + ex - (52 + 1 + ey) - 53) (-1074)) (ex - ey))
    with (ex - ey - 53) by lia.
  replace (ex - ey - (ex - ey - 53)) with 53 by lia.
  assert (Em' : Z.shiftl (Zpos mx) 53 = Zpos mx * 2 ^ 53).
  { rewrite Z.shiftl_mul_pow2 by lia. reflexivity. }
  change (match 53 with Z0 => Zpos mx | Zpos _ => Z.shiftl (Zpos mx) 53 | Zneg _ => 0 end)
    with (Z.shiftl (Zpos mx) 53).
  rewrite Em'.
  pose proof (Z_div_mod (Zpos mx * 2 ^ 53) (Zpos my) ltac:(lia)) as Hdm.
  destruct (Z.div_eucl (Zpos mx * 2 ^ 53) (Zpos my)) as [q r].
  destruct Hdm as [Eqr Hr].
  rewrite new_location_spec by lia.
  set (loc := if r =? 0 then loc_Exact else loc_Inexact (2 * r ?= Zpos my)).
  assert (Hq : 2 ^ 52 <= q < 2 ^ 54).
  { change (2 ^ 53) with (2 * 2 ^ 52) in Eqr. change (2 ^ 54) with (2 * 2 ^ 53).
    change (2 ^ 53) with (2 * 2 ^ 52) in Hmx, Hmy |- *. nia. }
  assert (Lq : 52 <= Z.log2 q <= 53).
  { split; [apply Z.log2_le_pow2; lia|].
    assert (Z.log2 q < 54); [apply Z.log2_lt_pow2; lia|lia]. }
  assert (Hk : 0 <= fexp prec emax (Zdigits2 q + (ex - ey - 53)) - (ex - ey - 53)).
  { destruct q as [|qp|qp]; try lia. cbn [Zdigits2]. rewrite digits2_log2, fexp64. lia. }
  rewrite (binary_round_aux_code false q (ex - ey - 53) loc ltac:(lia) Hk).
  pose proof (loc_code_bound loc) as Hc.
  set (T := 2 ^ (ex + 2095)).
  assert (PT : 0 < T) by (apply pow2_pos; lia).
  assert (ET1 : 2 ^ g * 2 ^ (ey + 1074) = T).
  { unfold T, g. rewrite <- Z.pow_add_r by lia. f_equal. lia. }
  assert (ET2 : 2 ^ (ex + 1074) * quantum = 2 ^ 53 * T).
  { unfold T, quantum. rewrite <- !Z.pow_add_r by lia. f_equal. lia. }
  destruct Hbetween as [Hlow Hupp].
  assert (Hl : l * Zpos my <= Zpos mx * 2 ^ 53).
  { apply Z.mul_le_mono_pos_r with T; [exact PT|].
    replace (l * Zpos my * T) with (L * (Zpos my * 2 ^ (ey + 1074)))
      by (rewrite El, <- ET1; ring).
    replace (Zpos mx * 2 ^ 53 * T) with (Zpos mx * 2 ^ (ex + 1074) * quantum)
      by (rewrite <- Z.mul_assoc, ET2; ring).
    exact Hlow. }
  assert (Hh : Zpos mx * 2 ^ 53 <= h * Zpos my).
  { apply Z.mul_le_mono_pos_r with T; [exact PT|].
    replace (h * Zpos my * T) with (H * (Zpos my * 2 ^ (ey + 1074)))
      by (rewrite Eh, <- ET1; ring).
    replace (Zpos mx * 2 ^ 53 * T) with (Zpos mx * 2 ^ (ex + 1074) * quantum)
      by (rewrite <- Z.mul_assoc, ET2; ring).
    exact Hupp. }
  assert (Hlq : l <= q) by nia.
  assert (HN : 4 * l <= 4 * q + loc_code loc <= 4 * h).
  { split; [lia|]. unfold loc. destruct (Z.eqb_spec r 0) as [E0|N0].
    - cbn [loc_code]. nia.
    - assert (q < h) by nia.
      pose proof (loc_code_bound (loc_Inexact (2 * r ?= Zpos my))). lia. }
  destruct (4 * q + loc_code loc) as [|np|np] eqn:EN; try lia.
  assert (Hov : Zpos np * 2 ^ (ex - ey - 53 - 2 + 1074 + 2) < 2 ^ (2000 + 2)).
  { replace (ex - ey - 53 - 2 + 1074 + 2) with g by (unfold g; lia).
    apply Z.le_lt_trans with (4 * H); [rewrite Eh; nia|].
    change (2 ^ (2000 + 2)) with (4 * 2 ^ 2000). lia. }
  destruct (binary_round_aux_quanta false np (ex - ey - 53 - 2) 2 ltac:(lia) ltac:(lia) Hov)
    as [Fin Qu].
  split; [exact Fin|]. rewrite Qu. cbn [cond_Zopp].
  replace (ex - ey - 53 - 2 + 1074 + 2) with g by (unfold g; lia).
  split.
  - apply Z.le_trans with (round_quanta 2 (4 * L)); [rewrite RL; lia|].
    apply round_quanta_mono; [lia|lia|]. rewrite El. nia.
  - apply Z.le_trans with (round_quanta 2 (4 * H)); [|rewrite RH; lia].
    apply round_quanta_mono; [lia|nia|]. rewrite Eh. nia.
Qed.

Lemma normal_form x :
  finite x -> 2 ^ 52 <= quanta x ->
  exists m e, Prim2SF x = S754_finite false m e /\
              bounded prec emax m e = true /\ 2 ^ 52 <= Zpos m /\
              quanta x = Zpos m * 2 ^ (e + 1074) /\
              Z.log2 (quanta x) = e + 1126.
Proof.
  intros Fx Hx. pose proof (Prim2SF_valid x) as Hv.
  unfold finite, quanta in *.
  destruct (Prim2SF x) as [s|s| |s m e]; cbn [SFfinite SFquanta] in *; try discriminate; try lia.
  cbn [valid_binary] in Hv. pose proof Hv as Hb. apply bounded_inv in Hb.
  destruct Hb as (He & Hm & Hc).
  pose proof (pow2_pos (e + 1074) ltac:(lia)) as Hp.
  destruct s; cbn [cond_Zopp] in *; [lia|].
  assert (Hn : 2 ^ 52 <= Zpos m).
  { destruct Hc as [E|Hn]; [|exact Hn]. subst e. change (2 ^ (-1074 + 1074)) with 1 in Hx. lia. }
  exists m, e. repeat split; try assumption.
  rewrite Z.log2_mul_pow2 by lia.
  assert (Z.log2 (Zpos m) = 52); [|lia].
  apply Z.log2_unique; [lia|]. change (Z.succ 52) with 53. lia.
Qed.

(** The quotient of two normal positive doubles lies between two values of
    its grid that are doubles themselves. *)
Lemma div_between x y L H g :
  finite x -> finite y -> 2 ^ 52 <= quanta x -> 2 ^ 52 <= quanta y ->
  g = Z.log2 (quanta x) - Z.log2 (quanta y) + 1021 -> 0 <= g ->
  0 <= L -> H < 2 ^ 2000 ->
  (exists l, L = l * 2 ^ g) -> (exists h, H = h * 2 ^ g) ->
  round_quanta 2 (4 * L) = L -> round_quanta 2 (4 * H) = H ->
  L * quanta y <= quanta x * quantum <= H * quanta y ->
  finite (x / y)%float /\ L <= quanta (x / y)%float <= H.
Proof.
  intros Fx Fy Nx Ny Eg Hg HL HH Dl Dh RL RH Hb.
  destruct (normal_form x Fx Nx) as (mx & ex & Ex & Bx & Hmx & Qx & Lx).
  destruct (normal_form y Fy Ny) as (my & ey & Ey & By & Hmy & Qy & Ly).
  assert (Eg' : g = ex - ey - 53 + 1074) by lia.
  unfold finite, quanta. rewrite div_spec, Ex, Ey.
  rewrite Qx, Qy in Hb. rewrite Eg' in Dl, Dh.
  apply SFdiv_between; try assumption. lia.
Qed.

(** [Math.floor] of a finite double: the whole quanta below it. *)
Lemma Math_floor_quanta z :
  finite z ->
  finite (Math_floor z) /\ quanta (Math_floor z) = quanta z / quantum * quantum.
Proof.
  intros Fz. pose proof (pow2_pos 1074 ltac:(lia)) as Hq. fold quantum in Hq.
  pose proof (Prim2SF_valid z) as Hv.
  unfold Math_floor.
  destruct (Prim2SF z) as [s|s| |s m e] eqn:E.
  - split; [exact Fz|]. unfold quanta. rewrite E. reflexivity.
  - unfold finite in Fz. rewrite E in Fz. discriminate.
  - unfold finite in Fz. rewrite E in Fz. discriminate.
  - cbn [valid_binary] in Hv. apply bounded_inv in Hv. destruct Hv as (He & Hm & _).
    assert (Qz : quanta z = cond_Zopp s (Zpos m * 2 ^ (e + 1074)))
      by (unfold quanta; rewrite E; reflexivity).
    destruct (Z.leb_spec 0 e) as [H0|H0].
    + split; [exact Fz|].
      assert (Ed : quanta z = cond_Zopp s (Zpos m * 2 ^ e) * quantum).
      { rewrite Qz. unfold quantum. rewrite Z.pow_add_r by lia.
        destruct s; cbn [cond_Zopp]; ring. }
      rewrite Ed. rewrite Z.div_mul by lia. reflexivity.
    + assert (Hsmall : Z.abs (quanta z) < 2 ^ 52 * quantum).
      { rewrite Qz. destruct s; cbn [cond_Zopp]; rewrite ?Z.abs_opp, Z.abs_eq
          by (apply Z.mul_nonneg_nonneg; [lia|apply Z.pow_nonneg; lia]).
        all: apply Z.lt_le_trans with (2 ^ 53 * 2 ^ (e + 1074));
          [apply Z.mul_lt_mono_pos_r; [apply pow2_pos; lia|lia]|];
          rewrite <- Z.pow_add_r by lia; unfold quantum;
          rewrite <- Z.pow_add_r by lia; apply Z.pow_le_mono_r; lia. }
      assert (Hd : Z.abs (quanta z / quantum) < 2 ^ 53).
      { assert (- 2 ^ 52 <= quanta z / quantum < 2 ^ 52); [|lia]. split.
        - apply Z.div_le_lower_bound; lia.
        - apply Z.div_lt_upper_bound; lia. }
      apply Z2number_quanta. exact Hd.
Qed.

(** [Math.floor(x / y)] for a whole number [x] and a divisor [P / 2^c]:
    the integer quotient. *)
Lemma floor_quotient x y W P c :
  finite x -> quanta x = W * quantum -> 0 <= W < 2 ^ 31 ->
  finite y -> quanta y = P * 2 ^ (1074 - c) -> 0 <= c <= 1 -> 1 <= P < 2 ^ 21 ->
  finite (Math_floor (x / y)) /\
  quanta (Math_floor (x / y)) = (W * 2 ^ c / P) * quantum.
Proof.
  intros Fx Qx HW Fy Qy Hc HP.
  pose proof (pow2_pos 1074 ltac:(lia)) as Hq. fold quantum in Hq.
  pose proof (pow2_pos (1074 - c) ltac:(lia)) as HU.
  assert (EU : quantum = 2 ^ c * 2 ^ (1074 - c)).
  { unfold quantum. rewrite <- Z.pow_add_r by lia. f_equal. lia. }
  assert (Hpc : 1 <= 2 ^ c <= 2).
  { assert (c = 0 \/ c = 1) as [-> | ->] by lia; cbn; lia. }
  set (Z := W * 2 ^ c / P).
  assert (HZ : Z * P <= W * 2 ^ c < (Z + 1) * P).
  { unfold Z. pose proof (Z.mul_div_le (W * 2 ^ c) P ltac:(lia)).
    pose proof (Z.mul_succ_div_gt (W * 2 ^ c) P ltac:(lia)). lia. }
  assert (HZ0 : 0 <= Z < 2 ^ 32).
  { split; [apply Z.div_pos; nia|].
    apply Z.div_lt_upper_bound; [lia|]. change (2 ^ 32) with (2 * 2 ^ 31). nia. }
  assert (Hgoal : finite (x / y)%float /\ quanta (x / y)%float / quantum = Z).
  { destruct (Z.eq_dec W 0) as [W0|W0].
    - (* a zero dividend *)
      assert (Ez : Z = 0) by (unfold Z; rewrite W0; reflexivity).
      rewrite Ez. rewrite W0 in Qx. cbn in Qx.
      pose proof (Prim2SF_valid x) as Hvx.
      unfold finite, quanta in *. rewrite div_spec.
      destruct (Prim2SF x) as [sx|sx| |sx mx ex]; cbn [SFfinite SFquanta] in *;
        try discriminate.
      + destruct (Prim2SF y) as [sy|sy| |sy my ey]; cbn [SFfinite SFquanta] in *;
          try discriminate; try lia.
        cbn [SFdiv SFfinite SFquanta]. split; reflexivity.
      + exfalso. cbn [valid_binary] in Hvx. apply bounded_inv in Hvx.
        assert (0 < Zpos mx * 2 ^ (ex + 1074)).
        { apply Z.mul_pos_pos; [lia|]. apply pow2_pos. lia. }
        destruct sx; cbn [cond_Zopp] in Qx; lia.
    - (* a positive dividend *)
      assert (P1053 : 0 < 2 ^ 1053) by (apply pow2_pos; lia).
      assert (E21 : quantum = 2 ^ 21 * 2 ^ 1053) by (vm_compute; reflexivity).
      set (g := Z.log2 (quanta x) - Z.log2 (quanta y) + 1021).
      assert (Lx : Z.log2 (quanta x) = Z.log2 W + 1074).
      { rewrite Qx. unfold quantum. rewrite Z.log2_mul_pow2 by lia. lia. }
      assert (Ly : Z.log2 (quanta y) = Z.log2 P + (1074 - c)).
      { rewrite Qy. rewrite Z.log2_mul_pow2 by lia. lia. }
      assert (LW : 0 <= Z.log2 W < 31).
      { split; [apply Z.log2_nonneg|apply Z.log2_lt_pow2; lia]. }
      assert (LP : 0 <= Z.log2 P < 21).
      { split; [apply Z.log2_nonneg|apply Z.log2_lt_pow2; lia]. }
      assert (Hg : 1000 <= g <= 1053) by (unfold g; lia).
      assert (D1 : exists l, Z * quantum = l * 2 ^ g).
      { exists (Z * 2 ^ (1074 - g)). unfold quantum.
        rewrite <- Z.mul_assoc, <- Z.pow_add_r by lia. do 2 f_equal. lia. }
      assert (D2 : exists h, (Z + 1) * quantum - 2 ^ 1053 = h * 2 ^ g).
      { exists (((Z + 1) * 2 ^ 21 - 1) * 2 ^ (1053 - g)).
        rewrite <- Z.mul_assoc, <- Z.pow_add_r by lia.
        replace (1053 - g + g) with 1053 by lia. rewrite E21. ring. }
      assert (R1 : round_quanta 2 (4 * (Z * quantum)) = Z * quantum).
      { replace (4 * (Z * quantum)) with (Z * 2 ^ 1076)
          by (unfold quantum; change (2 ^ 1076) with (4 * 2 ^ 1074); ring).
        rewrite round_quanta_exact; [reflexivity|lia|lia|].
        split; [lia|]. apply Z.lt_trans with (2 ^ 32); [lia|]. vm_compute. reflexivity. }
      assert (R2 : round_quanta 2 (4 * ((Z + 1) * quantum - 2 ^ 1053))
                   = (Z + 1) * quantum - 2 ^ 1053).
      { replace (4 * ((Z + 1) * quantum - 2 ^ 1053)) with (((Z + 1) * 2 ^ 21 - 1) * 2 ^ 1055)
          by (rewrite E21; change (2 ^ 1055) with (4 * 2 ^ 1053); ring).
        rewrite round_quanta_exact; [rewrite E21; change (1055 - 2) with 1053; ring|lia|lia|].
        split; [nia|].
        apply Z.lt_le_trans with (2 ^ 32 * 2 ^ 21); [nia|]. vm_compute. discriminate. }
      assert (N1 : 2 ^ 52 <= quanta x).
      { rewrite Qx. apply Z.le_trans with (1 * quantum); [vm_compute; discriminate|].
        apply Z.mul_le_mono_nonneg_r; lia. }
      assert (N2 : 2 ^ 52 <= quanta y).
      { rewrite Qy. apply Z.le_trans with (1 * 2 ^ 1073); [vm_compute; discriminate|].
        apply Z.mul_le_mono_nonneg; try lia. apply Z.pow_le_mono_r; lia. }
      assert (B1 : 0 <= Z * quantum) by nia.
      assert (B2 : (Z + 1) * quantum - 2 ^ 1053 < 2 ^ 2000).
      { apply Z.lt_le_trans with (2 ^ 33 * quantum); [nia|]. vm_compute. discriminate. }
      assert (Hb : Z * quantum * quanta y <= quanta x * quantum
                   <= ((Z + 1) * quantum - 2 ^ 1053) * quanta y).
      { rewrite Qx, Qy. set (U := 2 ^ (1074 - c)) in *. split.
        - replace (Z * quantum * (P * U)) with (Z * P * (quantum * U)) by ring.
          replace (W * quantum * quantum) with (W * 2 ^ c * (quantum * U))
            by (rewrite EU at 2; ring).
          apply Z.mul_le_mono_nonneg_r; nia.
        - replace (W * quantum * quantum) with (W * 2 ^ c * quantum * U)
            by (rewrite EU at 2; ring).
          replace (((Z + 1) * quantum - 2 ^ 1053) * (P * U))
            with (((Z + 1) * P * quantum - 2 ^ 1053 * P) * U) by ring.
          apply Z.mul_le_mono_nonneg_r; [lia|].
          assert (2 ^ 1053 * P <= quantum) by (rewrite E21; nia).
          nia. }
      destruct (div_between x y (Z * quantum) ((Z + 1) * quantum - 2 ^ 1053) g
                  Fx Fy N1 N2 eq_refl ltac:(lia) B1 B2 D1 D2 R1 R2 Hb)
        as (Fz & Hlo & Hhi).
      split; [exact Fz|].
      symmetry. apply Z.div_unique with (quanta (x / y)%float - Z * quantum); lia. }
  destruct Hgoal as [Fz Ez].
  destruct (Math_floor_quanta _ Fz) as [Ff Qf].
  split; [exact Ff|]. rewrite Qf, Ez. reflexivity.
Qed.

End Quotients.

(** ** Construction and layout *)

Section Layout.
Variable host : Host.

(** What [resize] computes, field by field. *)
Lemma resize_result vp this :
  resize host vp this =
  set_textWidth
    (measureText host (FontTemplate (fontWeight this) (text_size_for 14 vp) (fontFamily this))
       (text this))
    (set_font (FontTemplate (fontWeight this) (text_size_for 14 vp) (fontFamily this))
       (set_textSize (text_size_for 14 vp)
          (set_context
             {| Canvas.attributes :=
                  sized_attributes
                    (FontTemplate (fontWeight this) (text_size_for 14 vp) (fontFamily this));
                Canvas.calls := Canvas.calls (context this) |}
             (set_canvas {| Canvas.width := offsetWidth vp; Canvas.height := offsetHeight vp |}
                (set_height (offsetHeight vp) (set_width (offsetWidth vp) this)))))).
Proof.
  open_glitcher this. unfold resize, text_size_for. cbv zeta.
  cbn [set_width set_height set_canvas on_context set_context set_textSize set_font
       set_textWidth width height canvas context textSize fontWeight fontFamily font text
       Canvas.width Canvas.height Canvas.reset Canvas.calls].
  destruct (_ >? _);
    cbn [set_width set_height set_canvas on_context set_context set_textSize set_font
         set_textWidth width height canvas context textSize fontWeight fontFamily font text
         Canvas.width Canvas.height Canvas.reset Canvas.calls Canvas.set_textAlign
         Canvas.set_font Canvas.attributes Canvas.font Canvas.textAlign Canvas.fillStyle
         Canvas.globalAlpha Canvas.globalCompositeOperation Canvas.defaults];
    reflexivity.
Qed.


(** ... and sizes the text against a seventh of the width. *)
Lemma initOptions_textSize vp o this0 this :
  initOptions host vp o this0 = Normal this ->
  textSize this = text_size_for 7 vp /\ height this = offsetHeight vp.
Proof.
  unfold initOptions, text_size_for. cbv zeta. intros H.
  apply block_normal in H. destruct H as [_ H].
  apply block_normal in H. destruct H as [_ H].
  apply block_normal in H. destruct H as [_ H].
  apply block_normal in H. destruct H as [_ H].
  apply block_normal in H. destruct H as [_ H].
  apply block_normal in H. destruct H as [_ H].
  injection H as <-.
  open_glitcher this0.
  cbn [set_width set_height set_textSize textSize width height].
  match goal with |- context [if ?b then _ else _] => destruct b end; split; reflexivity.
Qed.

Lemma resize_twice a b this :
  resize host b (resize host a this) = resize host b this.
Proof.
  rewrite (resize_result b (resize host a this)).
  rewrite (resize_result b this). rewrite (resize_result a this).
  open_glitcher this. reflexivity.
Qed.
End Layout.

(** X1: Outcome of the constructor.  [new Glitcher] returns an instance
    exactly when no supplied option lies outside its range; the instance
    then holds every supplied value as it was given: the six range-checked
    options, and [fontFamily], [fontWeight] and [text], which are not
    checked at all. *)
Theorem construction_succeeds_iff host vp o :
  ((exists this, new_Glitcher host vp o = Normal this) <->
   (forall f, offending f o = false)) /\
  (forall this,
     new_Glitcher host vp o = Normal this ->
     (forall f v, supplied f o = Some v -> effective f this = v) /\
     (forall v, IGlitchesOptions.fontFamily o = Some v -> fontFamily this = v) /\
     (forall v, IGlitchesOptions.fontWeight o = Some v -> fontWeight this = v) /\
     text this = IGlitchesOptions.text o).
Proof.
  split.
  - split.
    + intros [this H] f. apply (new_Glitcher_normal host vp o this H).
    + intros Hall. pose proof (new_Glitcher_outcome host vp o) as Hout.
      rewrite (first_offender_none o Hall) in Hout. exact Hout.
  - intros this H.
    destruct (new_Glitcher_normal host vp o this H)
      as (Hf & _ & _ & _ & _ & _ & _ & _ & Ht & Hff & Hfw).
    repeat split.
    + intros f v Hs. destruct (Hf f) as [_ ->]. unfold chosen. rewrite Hs. reflexivity.
    + intros v Hv. rewrite Hff, Hv. reflexivity.
    + intros v Hv. rewrite Hfw, Hv. reflexivity.
    + exact Ht.
Qed.

Lemma construction_succeeds_iff_witness :
  exists this,
    new_Glitcher (sample_host 0.5) sample_viewport fully_specified = Normal this /\
    phaseStep this = 0.5 /\ glitchAmplitude this = 100 /\
    fontFamily this = "Courier"%string /\ fontWeight this = 700.
Proof.
  destruct (construction_succeeds_iff (sample_host 0.5) sample_viewport fully_specified)
    as [[_ Hex] Hval].
  destruct Hex as [this H].
  - intros f. destruct f; vm_compute; reflexivity.
  - exists this. destruct (Hval this H) as (Hf & Hff & Hfw & _).
    exact (conj H (conj (Hf PhaseStep 0.5 eq_refl)
                    (conj (Hf GlitchAmplitude 100 eq_refl)
                       (conj (Hff _ eq_refl) (Hfw _ eq_refl))))).
Defined.

(** X2: NaN passes the range checks.  Both comparisons of a check are false
    on NaN, so a NaN option is not rejected and becomes the effective value.
    With [phaseStep] NaN the advanced phase is NaN in every frame: no frame
    ever wraps, and channel and amplitude keep their values for good. *)
Theorem nan_is_accepted host vp o f :
  supplied f o = Some nan ->
  offending f o = false /\
  (forall this, new_Glitcher host vp o = Normal this -> effective f this = nan) /\
  (forall this0,
     phaseStep this0 = nan ->
     forall k n,
       let this := fst (ticks host k this0 n) in
       wraps this = false /\ channel this = channel this0 /\
       amplitude this = amplitude this0).
Proof.
  intros Hs.
  assert (Hoff : offending f o = false).
  { unfold offending. rewrite Hs. destruct f; reflexivity. }
  split; [exact Hoff|]. split.
  - intros this H.
    destruct (new_Glitcher_normal host vp o this H) as (Hf & _).
    destruct (Hf f) as [_ ->]. unfold chosen. rewrite Hs. reflexivity.
  - intros this0 Hp.
    assert (Hw : forall this, phaseStep this = nan -> wraps this = false).
    { intros this E. unfold wraps. rewrite E.
      rewrite FloatAxioms.ltb_spec, add_spec.
      change (Prim2SF nan) with S754_nan.
      destruct (Prim2SF (phase this)); reflexivity. }
    induction k as [|k IH]; intros n; cbv zeta.
    + split; [apply Hw, Hp|]. split; reflexivity.
    + specialize (IH n). cbv zeta in IH. destruct IH as (W & Hc & Ha).
      rewrite ticks_snoc, tick_channel, tick_amplitude, W.
      split; [|split; assumption].
      apply Hw.
      destruct (tick_config host (fst (ticks host k this0 n)) (snd (ticks host k this0 n)))
        as (-> & _).
      rewrite ticks_phaseStep. exact Hp.
Qed.

Lemma nan_is_accepted_witness :
  let host := sample_host 0.5 in
  exists this0,
    new_Glitcher host sample_viewport (with_phaseStep nan) = Normal this0 /\
    channel (fst (ticks host 1000 this0 0%nat)) = 0.
Proof.
  intros host.
  destruct (nan_is_accepted host sample_viewport (with_phaseStep nan) PhaseStep eq_refl)
    as (_ & Heff & Hfrozen).
  eexists. split; [reflexivity|].
  exact (proj1 (proj2 (Hfrozen _ (Heff _ eq_refl) 1000%nat 0%nat))).
Defined.



(** X4: A resize absorbs the one before it.  Resizing for one viewport and
    then for another gives the very instance that resizing for the second
    alone gives; so [resize] is idempotent while the viewport stays the
    same, and it leaves a freshly constructed instance as it is. *)
Theorem resize_absorbs host vp1 vp2 this :
  resize host vp2 (resize host vp1 this) = resize host vp2 this /\
  resize host vp1 (resize host vp1 this) = resize host vp1 this /\
  forall o, new_Glitcher host vp1 o = Normal this -> resize host vp1 this = this.
Proof.
  split; [apply resize_twice|]. split; [apply resize_twice|].
  intros o H. unfold new_Glitcher in H. cbv zeta in H.
  apply and_then_normal in H. destruct H as (mid & _ & H).
  injection H as <-. apply resize_twice.
Qed.

Lemma resize_absorbs_witness :
  let this := constructed (new_Glitcher (sample_host 0.5) sample_viewport (only_text "HI")) in
  resize (sample_host 0.5) sample_viewport this = this.
Proof.
  intros this.
  exact (proj2 (proj2 (resize_absorbs (sample_host 0.5) sample_viewport sample_viewport this))
           (only_text "HI") eq_refl).
Defined.

Section TextSize.
Import Binary64 Quotients.

(** The text size for a viewport of whole pixels, in whole pixels. *)
Lemma text_size_whole d D vp W H :
  finite d -> quanta d = (D * quantum)%Z -> (1 <= D < 2 ^ 21)%Z ->
  offsetWidth vp = Z2number W -> offsetHeight vp = Z2number H ->
  (0 <= W < 2 ^ 31)%Z -> (0 <= H < 2 ^ 31)%Z ->
  finite (text_size_for d vp) /\
  quanta (text_size_for d vp) = (whole_text_size D W H * quantum)%Z /\
  (0 <= whole_text_size D W H <= H)%Z.
Proof.
  intros Fd Qd HD Ew Eh HW HH.
  pose proof quantum_pos as Hq.
  destruct (Z2number_quanta W) as [Fw Qw]; [lia|].
  destruct (Z2number_quanta H) as [Fh Qh]; [lia|].
  assert (F15 : finite 1.5) by reflexivity.
  assert (Q15 : quanta 1.5 = (3 * 2 ^ (1074 - 1))%Z) by (vm_compute; reflexivity).
  assert (Qd' : quanta d = (D * 2 ^ (1074 - 0))%Z) by (rewrite Qd; reflexivity).
  destruct (floor_quotient (Z2number W) d W D 0 Fw Qw HW Fd Qd' ltac:(lia) HD) as [F1 Q1].
  destruct (floor_quotient (Z2number H) 1.5 H 3 1 Fh Qh HH F15 Q15 ltac:(lia) ltac:(lia))
    as [F2 Q2].
  change (2 ^ 0)%Z with 1%Z in Q1. rewrite Z.mul_1_r in Q1.
  change (2 ^ 1)%Z with 2%Z in Q2. rewrite (Z.mul_comm H 2) in Q2.
  unfold text_size_for, whole_text_size. cbv zeta. rewrite Ew, Eh.
  rewrite ltb_quanta by assumption. rewrite Q1, Qh.
  assert (Ecmp : (H * quantum <? W / D * quantum)%Z = (H <? W / D)%Z).
  { destruct (Z.ltb_spec H (W / D)); [apply Z.ltb_lt|apply Z.ltb_ge]; nia. }
  rewrite Ecmp.
  assert (Hwd : (0 <= W / D)%Z) by (apply Z.div_pos; lia).
  assert (H23 : (0 <= 2 * H / 3 <= H)%Z).
  { split; [apply Z.div_pos; lia|]. apply Z.div_le_upper_bound; lia. }
  destruct (Z.ltb_spec H (W / D)).
  - split; [exact F2|]. split; [exact Q2|exact H23].
  - split; [exact F1|]. split; [exact Q1|lia].
Qed.
End TextSize.

(** X5: The text size is a whole number that fits the height.  For a
    viewport of W by H whole pixels (below 2^31), [resize] sets [textSize]
    to the integer quotient W / 14, unless that exceeds H, and then to the
    integer part of 2H / 3: the divisions and [Math.floor] of the code
    round exactly as the integers do.  [initOptions] does the same with
    W / 7.  Either way [textSize] is at most [height]. *)
Theorem text_size_fits host vp W H :
  offsetWidth vp = Z2number W -> offsetHeight vp = Z2number H ->
  (0 <= W < 2 ^ 31)%Z -> (0 <= H < 2 ^ 31)%Z ->
  (forall this,
     let this' := resize host vp this in
     let k := (if H <? W / 14 then 2 * H / 3 else W / 14)%Z in
     (textSize this' =? Z2number k) = true /\ (0 <= k <= H)%Z /\
     (textSize this' <=? height this') = true) /\
  (forall o this this',
     initOptions host vp o this = Normal this' ->
     let k := (if H <? W / 7 then 2 * H / 3 else W / 7)%Z in
     (textSize this' =? Z2number k) = true /\ (0 <= k <= H)%Z /\
     (textSize this' <=? height this') = true).
Proof.
  intros Ew Eh HW HH.
  pose proof quantum_pos as Hq.
  destruct (Binary64.Z2number_quanta H) as [Fh Qh]; [lia|].
  assert (Hgen : forall d D ts h,
            finite d -> quanta d = (D * quantum)%Z -> (1 <= D < 2 ^ 21)%Z ->
            ts = text_size_for d vp -> h = offsetHeight vp ->
            (ts =? Z2number (whole_text_size D W H)) = true /\
            (0 <= whole_text_size D W H <= H)%Z /\ (ts <=? h) = true).
  { intros d D ts h Fd Qd HD -> ->.
    destruct (text_size_whole d D vp W H Fd Qd HD Ew Eh HW HH) as (Ft & Qt & Hk).
    destruct (Binary64.Z2number_quanta (whole_text_size D W H)) as [Fk Qk]; [lia|].
    split; [|split; [exact Hk|]].
    - rewrite Binary64.eqb_quanta by assumption. rewrite Qt, Qk. apply Z.eqb_refl.
    - rewrite Eh. apply le_leb; try assumption. rewrite Qt, Qh. nia. }
  split.
  - intros this this' k.
    apply (Hgen 14 14%Z); try reflexivity; try lia.
    + unfold this'. rewrite (resize_result host vp this). open_glitcher this. reflexivity.
    + unfold this'. rewrite (resize_result host vp this). open_glitcher this. reflexivity.
  - intros o this this' Hi k.
    destruct (initOptions_textSize host vp o this this' Hi) as [Ets Ehh].
    apply (Hgen 7 7%Z); try reflexivity; try lia; assumption.
Qed.

Lemma text_size_fits_witness :
  let host := sample_host 0.5 in
  let this := constructed (new_Glitcher host sample_viewport (only_text "HI")) in
  (textSize this =? 91) = true /\ (textSize this <=? height this) = true.
Proof.
  intros host this.
  destruct (text_size_fits host sample_viewport 1280 720 eq_refl eq_refl
              ltac:(lia) ltac:(lia)) as [Hr _].
  destruct (Hr this) as (H1 & _ & H3).
  assert (E : resize host sample_viewport this = this) by (vm_compute; reflexivity).
  rewrite E in H1, H3.
  exact (conj H1 H3).
Defined.

(** ** What a frame touches, draws and logs *)

Section Touched.
Variable host : Host.

Lemma tick_keeps this n :
  exists p c a ctx,
    fst (tick host this n) =
    set_context ctx (set_amplitude a (set_channel c (set_phase p this))).
Proof.
  pose proof (tick_same host this n) as H. unfold same_but_context in H.
  rewrite H. generalize (context (fst (tick host this n))). intros ctx.
  unfold advanced. cbv zeta. destruct (_ >? _).
  - do 4 eexists. open_glitcher this. reflexivity.
  - exists (phase this + phaseStep this), (channel this), (amplitude this), ctx.
    open_glitcher this. reflexivity.
Qed.

Lemma ticks_keep k : forall this n,
  exists p c a ctx,
    fst (ticks host k this n) =
    set_context ctx (set_amplitude a (set_channel c (set_phase p this))).
Proof.
  induction k as [|k IH]; intros this n.
  - exists (phase this), (channel this), (amplitude this), (context this).
    open_glitcher this. reflexivity.
  - rewrite ticks_S.
    destruct (IH (fst (tick host this n)) (snd (tick host this n)))
      as (p & c & a & ctx & ->).
    destruct (tick_keeps this n) as (p' & c' & a' & ctx' & ->).
    exists p, c, a, ctx. open_glitcher this. reflexivity.
Qed.

(** One frame: the assignments of lines 146-153, then [render]; the frame
    has drawn once already when it wraps. *)
Lemma tick_eq this n :
  tick host this n =
  render host (advanced host this n) (if wraps this then S n else n).
Proof.
  unfold tick, advanced, wraps, bind, random, ret. open_glitcher this.
  cbn [phase phaseStep set_phase channel amplitudeBase amplitudeRange set_channel set_amplitude].
  destruct (_ >? _); reflexivity.
Qed.

Lemma render_draws this n :
  unit_draw (Math_random host (5 + n)) -> snd (render host this n) = (6 + n)%nat.
Proof.
  intros Hr. rewrite render_eq. cbv zeta.
  change (S (S (S (S (S n))))) with (5 + n)%nat.
  rewrite (coin_guard _ Hr). reflexivity.
Qed.

Lemma tick_draws this n :
  (forall i, unit_draw (Math_random host i)) ->
  snd (tick host this n) = ((if wraps this then 7 else 6) + n)%nat.
Proof.
  intros Hr. rewrite tick_eq. rewrite render_draws by apply Hr.
  destruct (wraps this); lia.
Qed.

Lemma ticks_draws k : forall this n,
  (forall i, unit_draw (Math_random host i)) ->
  (6 * k + n <= snd (ticks host k this n) <= 7 * k + n)%nat.
Proof.
  induction k as [|k IH]; intros this n Hr.
  - cbn. lia.
  - rewrite ticks_S.
    specialize (IH (fst (tick host this n)) (snd (tick host this n)) Hr).
    pose proof (tick_draws this n Hr) as Ht.
    destruct (wraps this); lia.
Qed.
End Touched.

(** X6: Frames change the animation state only.  After any number of
    frames the instance is the one they started from with [phase],
    [channel], [amplitude] and the context replaced: every option, the three
    scanline constants, the composite operation, the text, the fonts and all
    sizes are what they were. *)
Theorem frames_keep_configuration host k this n :
  let this' := fst (ticks host k this n) in
  (exists p c a ctx,
      this' = set_context ctx (set_amplitude a (set_channel c (set_phase p this)))) /\
  (forall f, effective f this' = effective f this) /\
  scanlineBase this' = scanlineBase this /\ scanlineRange this' = scanlineRange this /\
  scanlineShift this' = scanlineShift this /\ compOp this' = compOp this /\
  text this' = text this /\ fontFamily this' = fontFamily this /\
  fontWeight this' = fontWeight this /\ textSize this' = textSize this /\
  font this' = font this /\ textWidth this' = textWidth this /\
  width this' = width this /\ height this' = height this /\ canvas this' = canvas this.
Proof.
  cbv zeta. split; [apply ticks_keep|].
  destruct (ticks_keep host k this n) as (p & c & a & ctx & ->).
  open_glitcher this. split; [intros f; destruct f; reflexivity|].
  repeat split; reflexivity.
Qed.

(** X7: Draws per frame.  When the row of the scanline can be read and
    [Math.random()] yields numbers in [0, 1), [render] calls it exactly six
    times (glitch trigger, alpha, three for the scanline, the coin of the
    second scanline, which never comes up); a frame calls it six times, and
    seven when it wraps; k frames between 6k and 7k times. *)
Theorem draws_per_frame host this n :
  Canvas.getImageData_returns (width this) 1 = true ->
  (forall i, unit_draw (Math_random host i)) ->
  snd (render host this n) = (6 + n)%nat /\
  snd (tick host this n) = ((if wraps this then 7 else 6) + n)%nat /\
  forall k, (6 * k + n <= snd (ticks host k this n) <= 7 * k + n)%nat.
Proof.
  intros _ Hr. split; [apply render_draws, Hr|]. split; [apply tick_draws, Hr|].
  intros k. apply ticks_draws, Hr.
Qed.

Lemma draws_per_frame_witness :
  let host := sample_host 0.5 in
  let this := constructed (new_Glitcher host sample_viewport quarter_turn) in
  snd (tick host this 0%nat) = 6%nat /\
  (30 <= snd (ticks host 5 this 0%nat) <= 35)%nat.
Proof.
  intros host this.
  assert (Hw : Canvas.getImageData_returns (width this) 1 = true)
    by (vm_compute; reflexivity).
  assert (Hr : forall i, unit_draw (Math_random host i)).
  { intros i. split; vm_compute; reflexivity. }
  destruct (draws_per_frame host this 0%nat Hw Hr) as (_ & Ht & Hk).
  assert (W : wraps this = false) by (vm_compute; reflexivity).
  rewrite W in Ht.
  exact (conj Ht (Hk 5%nat)).
Defined.

(** ** The values a frame samples *)

Section Alpha.
Import Binary64 Differences.

(** [a + (1 - a) * r] for [a] in [[0, 1]] and a draw [r]. *)
Lemma alpha_range a r :
  in_range AlphaMin a -> unit_draw r ->
  (a <=? a + (1 - a) * r) = true /\ (a + (1 - a) * r <=? 1) = true.
Proof.
  intros Ha Hr.
  destruct (in_range_quanta AlphaMin a Ha) as (Fa & Ha0 & Ha1).
  change (quanta (upper AlphaMin)) with quantum in Ha1.
  destruct (unit_draw_quanta r Hr) as (Fr & Hr0 & Hr1).
  pose proof quantum_pos as Hq.
  assert (F1 : finite 1) by reflexivity.
  assert (Q1 : quanta 1 = quantum) by reflexivity.
  assert (P1020 : (0 < 2 ^ 1020)%Z) by (apply pow2_pos; lia).
  assert (L1020 : (2 ^ 1020 <= quantum)%Z) by (unfold quantum; apply Z.pow_le_mono_r; lia).
  (* d = 1 - a, off by at most 2^-54 *)
  assert (Hbd : (Z.abs (quanta 1 - quanta a) < 2 ^ 2000)%Z).
  { rewrite Q1. apply Z.le_lt_trans with quantum; [lia|]. unfold quantum.
    apply Z.pow_lt_mono_r; lia. }
  destruct (sub_quanta 1 a F1 Fa Hbd) as (Fd & Qd).
  rewrite Q1 in Qd.
  assert (Hd0 : (0 <= quanta (1 - a))%Z).
  { rewrite Qd. rewrite <- (round_signed_0 0) at 1. apply round_signed_mono; lia. }
  assert (Hd1 : (quanta (1 - a) <= quantum - quanta a + 2 ^ 1020)%Z).
  { rewrite Qd.
    destruct (Z.eq_dec (quanta a) 0) as [E0|N0].
    - rewrite E0, Z.sub_0_r.
      replace (round_signed 0 quantum) with quantum by (vm_compute; reflexivity). lia.
    - assert (Hpos : (0 < quantum - quanta a)%Z \/ (quantum - quanta a = 0)%Z) by lia.
      destruct Hpos as [Hpos|Hz]; [|rewrite Hz; rewrite round_signed_0; lia].
      unfold round_signed. rewrite Z.sgn_pos, Z.abs_eq, Z.mul_1_l by lia.
      pose proof (round_quanta_error 0 (quantum - quanta a) ltac:(lia) ltac:(lia)) as He.
      rewrite Z.pow_0_r, Z.mul_1_r in He.
      assert (Hl : (Z.log2 (quantum - quanta a) < 1074)%Z).
      { apply Z.log2_lt_pow2; [lia|]. fold quantum. lia. }
      assert (Hp : (2 ^ Z.max (Z.log2 (quantum - quanta a) - 52) 0 <= 2 ^ 1021)%Z).
      { apply Z.pow_le_mono_r; lia. }
      change (2 ^ 1021)%Z with (2 * 2 ^ 1020)%Z in Hp. lia. }
  (* t = d * r, at most d *)
  assert (Hbt : (Z.abs (quanta (1 - a) * quanta r) < 2 ^ 3074)%Z).
  { apply (product_fits _ _ 2 1); try lia; rewrite Z.abs_eq by lia; lia. }
  destruct (mul_quanta (1 - a) r Fd Fr Hbt) as (Ft & Qt).
  assert (Ht0 : (0 <= quanta ((1 - a) * r))%Z).
  { rewrite Qt. rewrite <- (round_signed_0 1074) at 1. apply round_signed_mono; [lia|].
    apply Z.mul_nonneg_nonneg; lia. }
  assert (Ht1 : (quanta ((1 - a) * r) <= quanta (1 - a))%Z).
  { rewrite Qt. rewrite <- (quanta_times_unit (1 - a) Fd) at 2.
    apply round_signed_mono; [lia|]. apply Z.mul_le_mono_nonneg_l; lia. }
  (* the sum: at most 1 + 2^-54, which rounds to 1 *)
  assert (Hbs : (Z.abs (quanta a + quanta ((1 - a) * r)) < 2 ^ 2000)%Z).
  { apply (sum_fits _ _ 1 2); try lia; rewrite Z.abs_eq by lia; lia. }
  destruct (add_quanta a ((1 - a) * r) Fa Ft Hbs) as (Fs & Qs).
  split.
  - apply le_leb; try assumption. rewrite Qs.
    rewrite <- (quanta_exact_id a Fa) at 1. apply round_signed_mono; lia.
  - apply le_leb; try assumption. rewrite Qs, Q1.
    apply Z.le_trans with (round_signed 0 (quantum + 2 ^ 1020)).
    + apply round_signed_mono; lia.
    + apply Z.eq_le_incl. vm_compute. reflexivity.
Qed.

(** Such a value is one the context takes. *)
Lemma alpha_stored a r :
  in_range AlphaMin a -> unit_draw r ->
  (0 <=? a + (1 - a) * r) && (a + (1 - a) * r <=? 1) = true.
Proof.
  intros Ha Hr. destruct (alpha_range a r Ha Hr) as [Hlo Hhi].
  destruct (in_range_quanta AlphaMin a Ha) as (Fa & Ha0 & _).
  assert (F1 : finite 1) by reflexivity.
  assert (F0 : finite 0) by reflexivity.
  pose proof (finite_between a 1 _ Fa F1 (or_introl Hlo) (or_introl Hhi)) as Fs.
  pose proof (leb_le _ _ Fa Fs Hlo) as Hq.
  rewrite Hhi, andb_true_r. apply le_leb; [exact F0|exact Fs|].
  change (quanta 0) with 0%Z. lia.
Qed.
End Alpha.

(** X9: The alpha of a frame.  [render] leaves
    [globalAlpha = alphaMin + (1 - alphaMin) * r] on the context, [r] being
    its second draw; for [alphaMin] in [[0, 1]] and [r] in [0, 1) that
    value, as the doubles compute it, is at least [alphaMin] and at most 1. *)
Theorem frame_alpha host this n :
  in_range AlphaMin (alphaMin this) -> unit_draw (Math_random host (1 + n)) ->
  let alpha := Canvas.globalAlpha (Canvas.attributes (context (fst (render host this n)))) in
  alpha = alphaMin this + (1 - alphaMin this) * Math_random host (1 + n) /\
  (alphaMin this <=? alpha) = true /\ (alpha <=? 1) = true.
Proof.
  intros Ha Hr alpha.
  assert (E : alpha = alphaMin this + (1 - alphaMin this) * Math_random host (1 + n)).
  { subst alpha.
    pose proof (alpha_stored _ _ Ha Hr) as Hst. change (1 + n)%nat with (S n) in *.
    destruct (frame_calls_painted host this n) as (tail & _ & _ & ->).
    unfold painted, prepared. cbv zeta. open_glitcher this. destruct z_context as [attrs old].
    cbn [alphaMin] in Hst.
    cbn [channel on_context set_context context Canvas.calls Canvas.call
         Canvas.set_globalAlpha Canvas.attributes width height alphaMin compOp].
    unfold Canvas.set_globalAlpha.
    rewrite Hst.
    repeat match goal with |- context [if ?b then _ else _] => destruct b end; reflexivity. }
  split; [exact E|]. rewrite E. apply alpha_range; assumption.
Qed.

Lemma frame_alpha_witness :
  let host := sample_host 0.5 in
  let this := constructed (new_Glitcher host sample_viewport (only_text "HI")) in
  let alpha := Canvas.globalAlpha (Canvas.attributes (context (fst (render host this 0%nat)))) in
  (0.8 <=? alpha) = true /\ (alpha <=? 1) = true.
Proof.
  intros host this alpha.
  exact (proj2 (frame_alpha host this 0%nat (conj eq_refl eq_refl) (conj eq_refl eq_refl))).
Defined.



Section OffsetBound.
Import Binary64 Differences.

(** A product with a factor in [[-1, 1]] is no larger than the other factor. *)
Lemma scaled_by_sine a s :
  finite a -> (0 <= quanta a < 2 ^ 31 * quantum)%Z ->
  finite s -> (- quantum <= quanta s <= quantum)%Z ->
  finite (a * s) /\ (- quanta a <= quanta (a * s) <= quanta a)%Z.
Proof.
  intros Fa Ha Fs Hs.
  pose proof quantum_pos as Hq.
  assert (Hb : (Z.abs (quanta a * quanta s) < 2 ^ 3074)%Z).
  { apply (product_fits _ _ (2 ^ 31) 1); try lia; apply Z.abs_le; lia. }
  destruct (mul_quanta a s Fa Fs Hb) as (Ft & Qt).
  split; [exact Ft|]. rewrite Qt.
  pose proof (quanta_times_unit a Fa) as E1.
  split.
  - rewrite <- E1 at 1. rewrite <- round_signed_opp.
    apply round_signed_mono; [lia|]. nia.
  - rewrite <- E1 at 2. apply round_signed_mono; [lia|]. nia.
Qed.

(** [x >> 0] of a number of magnitude at most [A]. *)
Lemma sar_0_abs x A :
  (Z.abs (quanta x) <= A * quantum)%Z -> (0 <= A < 2 ^ 31)%Z ->
  exists k, x >> 0 = Z2number k /\ (Z.abs k <= A)%Z /\
            finite (x >> 0) /\ quanta (x >> 0) = (k * quantum)%Z.
Proof.
  intros Hx HA.
  pose proof quantum_pos as Hq.
  assert (Hsmall : (Z.abs (quanta x) < 2 ^ 31 * quantum)%Z) by nia.
  rewrite sar_0, (ToInt32_small x Hsmall).
  destruct (truncate_toward_zero x) as ((Hlo & _) & _).
  assert (Hk : (Z.abs (truncate x) <= A)%Z) by nia.
  exists (truncate x). split; [reflexivity|]. split; [exact Hk|].
  apply Z2number_quanta.
  apply Z.le_lt_trans with A; [exact Hk|].
  apply Z.lt_trans with (2 ^ 31)%Z; [lia|]. vm_compute. reflexivity.
Qed.

Lemma ToInt32_range x : (- 2 ^ 31 <= ToInt32 x < 2 ^ 31)%Z.
Proof.
  unfold ToInt32.
  pose proof (Z.mod_pos_bound (truncate x + 2 ^ 31) (2 ^ 32) eq_refl) as H.
  assert (E : (2 ^ 32 = 2 * 2 ^ 31)%Z) by reflexivity. lia.
Qed.

Lemma ToInt32_whole k : (Z.abs k < 2 ^ 31)%Z -> ToInt32 (Z2number k) = k.
Proof.
  intros Hk. pose proof quantum_pos as Hq.
  destruct (Z2number_quanta k) as [Fk Qk].
  { apply Z.lt_trans with (2 ^ 31)%Z; [exact Hk|]. vm_compute. reflexivity. }
  rewrite ToInt32_small by (rewrite Qk, Z.abs_mul, (Z.abs_eq quantum) by lia; nia).
  unfold truncate. rewrite Qk. apply Z.quot_mul. lia.
Qed.

(** Sums and differences of whole numbers are exact. *)
Lemma whole_sum a b :
  (Z.abs a < 2 ^ 32)%Z -> (Z.abs b < 2 ^ 32)%Z ->
  finite (Z2number a + Z2number b) /\
  quanta (Z2number a + Z2number b) = ((a + b) * quantum)%Z.
Proof.
  intros Ha Hb. pose proof quantum_pos as Hq.
  assert (B53 : (2 ^ 33 < 2 ^ 53)%Z) by (vm_compute; reflexivity).
  destruct (Z2number_quanta a) as [Fa Qa]; [lia|].
  destruct (Z2number_quanta b) as [Fb Qb]; [lia|].
  assert (Bs : (Z.abs (quanta (Z2number a) + quanta (Z2number b)) < 2 ^ 2000)%Z).
  { apply (sum_fits _ _ (2 ^ 32) (2 ^ 32)); try lia;
      rewrite ?Qa, ?Qb, Z.abs_mul, (Z.abs_eq quantum) by lia; nia. }
  destruct (add_quanta _ _ Fa Fb Bs) as [Fs' Qs'].
  split; [exact Fs'|]. rewrite Qs', Qa, Qb.
  replace (a * quantum + b * quantum)%Z with ((a + b) * 2 ^ 1074)%Z by (unfold quantum; ring).
  rewrite round_signed_exact by lia. unfold quantum. reflexivity.
Qed.

Lemma whole_difference a b :
  (Z.abs a < 2 ^ 32)%Z -> (Z.abs b < 2 ^ 32)%Z ->
  finite (Z2number a - Z2number b) /\
  quanta (Z2number a - Z2number b) = ((a - b) * quantum)%Z.
Proof.
  intros Ha Hb. pose proof quantum_pos as Hq.
  assert (B53 : (2 ^ 33 < 2 ^ 53)%Z) by (vm_compute; reflexivity).
  destruct (Z2number_quanta a) as [Fa Qa]; [lia|].
  destruct (Z2number_quanta b) as [Fb Qb]; [lia|].
  assert (Bd : (Z.abs (quanta (Z2number a) - quanta (Z2number b)) < 2 ^ 2000)%Z).
  { replace (quanta (Z2number a) - quanta (Z2number b))%Z
      with (quanta (Z2number a) + - quanta (Z2number b))%Z by lia.
    apply (sum_fits _ _ (2 ^ 32) (2 ^ 32)); try lia;
      rewrite ?Z.abs_opp, ?Qa, ?Qb, Z.abs_mul, (Z.abs_eq quantum) by lia; nia. }
  destruct (sub_quanta _ _ Fa Fb Bd) as [Fd' Qd'].
  split; [exact Fd'|]. rewrite Qd', Qa, Qb.
  replace (a * quantum - b * quantum)%Z with ((a - b) * 2 ^ 1074)%Z by (unfold quantum; ring).
  rewrite round_signed_exact by lia. unfold quantum. reflexivity.
Qed.

(** A whole [k] of magnitude at most [A], in units of [q] ... *)
Lemma whole_within (k q A : Z) :
  (0 < q)%Z -> (Z.abs k <= A)%Z -> (- (A * q) <= k * q <= A * q)%Z.
Proof.
  intros Hq Hk. apply Z.abs_le in Hk. destruct Hk as [H1 H2].
  split.
  - rewrite <- Z.mul_opp_l. apply Z.mul_le_mono_nonneg_r; lia.
  - apply Z.mul_le_mono_nonneg_r; lia.
Qed.

(** ... and its product with a factor [g] of at most [B]. *)
Lemma within_scaled (k g q A B : Z) :
  (0 < q)%Z -> (0 <= A)%Z -> (0 <= B)%Z ->
  (Z.abs k <= A)%Z -> (0 <= g <= B * q)%Z ->
  (- (A * B * q * q) <= k * q * g <= A * B * q * q)%Z.
Proof.
  intros Hq HA HB Hk Hg.
  assert (H1 : (Z.abs (k * q * g) <= A * B * q * q)%Z).
  { rewrite !Z.abs_mul, (Z.abs_eq q), (Z.abs_eq g) by lia.
    replace (A * B * q * q)%Z with (A * q * (B * q))%Z by ring.
    pose proof (Z.abs_nonneg k) as Hk0.
    assert (H2 : (0 <= Z.abs k * q)%Z) by (apply Z.mul_nonneg_nonneg; lia).
    assert (H3 : (Z.abs k * q <= A * q)%Z) by (apply Z.mul_le_mono_nonneg_r; lia).
    apply Z.mul_le_mono_nonneg; lia. }
  apply Z.abs_le. exact H1.
Qed.
End OffsetBound.

(** X10: The offset is bounded.  When the sine at the current phase lies
    in [[-1, 1]] and the amplitude in [[0, 10]] (the most the documented
    ranges allow), the offset [x0] of a frame is a whole number between -10
    and 10 unless the glitch fires, and between -1000 and 1000 when it
    does, [glitchAmplitude] being at most 100. *)
Theorem offset_bounded host this r :
  let s := Math_sin host (Math_PI * 2 * phase this) in
  (-1 <=? s) = true -> (s <=? 1) = true ->
  (0 <=? amplitude this) = true -> (amplitude this <=? 10) = true ->
  in_range GlitchAmplitude (glitchAmplitude this) ->
  let x0 := render_x0 host this r in
  (-1000 <=? x0) = true /\ (x0 <=? 1000) = true /\
  ((r >=? glitchThreshold this) = false ->
   exists k, x0 = Z2number k /\ (-10 <= k <= 10)%Z).
Proof.
  intros s Hs0 Hs1 Ha0 Ha1 Hg x0.
  pose proof quantum_pos as Hq.
  assert (F0 : finite 0) by reflexivity.
  assert (F10 : finite 10) by reflexivity.
  assert (Fm1 : finite (-1)) by reflexivity.
  assert (F1 : finite 1) by reflexivity.
  destruct (between_quanta 0 10 _ F0 F10 Ha0 Ha1) as (Fa & Hqa0 & Hqa1).
  change (quanta 0) with 0%Z in Hqa0. change (quanta 10) with (10 * quantum)%Z in Hqa1.
  destruct (between_quanta (-1) 1 s Fm1 F1 Hs0 Hs1) as (Fs & Hqs0 & Hqs1).
  change (quanta (-1)) with (- quantum)%Z in Hqs0. change (quanta 1) with quantum in Hqs1.
  destruct (in_range_quanta _ _ Hg) as (Fg & Hg0 & Hg1).
  change (quanta (upper GlitchAmplitude)) with (100 * quantum)%Z in Hg1.
  destruct (scaled_by_sine (amplitude this) s Fa ltac:(lia) Fs ltac:(lia)) as (Fv & Hv0 & Hv1).
  destruct (sar_0_abs (amplitude this * s) 10) as (k & Ek & Hk & Fk & Qk);
    [apply Z.abs_le; lia|lia|].
  assert (Hplain : (-1000 <=? Z2number k) = true /\ (Z2number k <=? 1000) = true).
  { rewrite <- Ek.
    pose proof (whole_within k quantum 10 Hq Hk) as Hw.
    split; apply le_leb; try assumption; try reflexivity; rewrite Qk.
    - change (quanta (-1000)) with (-1000 * quantum)%Z. lia.
    - change (quanta 1000) with (1000 * quantum)%Z. lia. }
  assert (Hglitch : (-1000 <=? Z2number k * glitchAmplitude this) = true /\
                    (Z2number k * glitchAmplitude this <=? 1000) = true).
  { rewrite <- Ek.
    pose proof (within_scaled k (quanta (glitchAmplitude this)) quantum 10 100
                  Hq ltac:(lia) ltac:(lia) Hk (conj Hg0 Hg1)) as Hw.
    replace (10 * 100 * quantum * quantum)%Z with (1000 * quantum * quantum)%Z in Hw by ring.
    assert (Hb : (Z.abs (quanta (amplitude this * s >> 0) * quanta (glitchAmplitude this))
                  < 2 ^ 3074)%Z).
    { apply (product_fits _ _ 10 100); [|lia|lia|lia|reflexivity].
      rewrite Qk, Z.abs_mul, (Z.abs_eq quantum) by lia.
      apply Z.mul_le_mono_nonneg_r; lia. }
    destruct (Binary64.mul_quanta _ _ Fk Fg Hb) as (Fp & Qp).
    clear Hb.
    assert (Hup : round_signed 1074 (1000 * quantum * quantum) = (1000 * quantum)%Z).
    { unfold quantum. rewrite <- Z.mul_assoc, <- Z.pow_add_r by lia.
      rewrite Binary64.round_signed_exact by (try lia; vm_compute; reflexivity).
      reflexivity. }
    assert (Hlo : round_signed 1074 (- (1000 * quantum * quantum)) = (- (1000 * quantum))%Z).
    { rewrite Differences.round_signed_opp, Hup. reflexivity. }
    split; apply le_leb; try assumption; try reflexivity; rewrite Qp, Qk.
    - change (quanta (-1000)) with (- (1000 * quantum))%Z. rewrite <- Hlo.
      apply Binary64.round_signed_mono; [lia|]. apply Hw.
    - change (quanta 1000) with (1000 * quantum)%Z. rewrite <- Hup.
      apply Binary64.round_signed_mono; [lia|]. apply Hw. }
  unfold x0, render_x0. cbv zeta. fold s. rewrite Ek.
  destruct (r >=? glitchThreshold this).
  - split; [apply Hglitch|]. split; [apply Hglitch|]. discriminate.
  - split; [apply Hplain|]. split; [apply Hplain|]. intros _. exists k. split; [reflexivity|lia].
Qed.

Lemma offset_bounded_witness :
  let host := sample_host 0.5 in
  let this := fst (ticks host 8 (constructed (new_Glitcher host sample_viewport quarter_turn)) 0%nat) in
  (-1000 <=? render_x0 host this 0.5) = true /\ (render_x0 host this 0.5 <=? 1000) = true.
Proof.
  intros host this.
  assert (Hs0 : (-1 <=? Math_sin host (Math_PI * 2 * phase this)) = true)
    by (vm_compute; reflexivity).
  assert (Hs1 : (Math_sin host (Math_PI * 2 * phase this) <=? 1) = true)
    by (vm_compute; reflexivity).
  assert (Ha0 : (0 <=? amplitude this) = true) by (vm_compute; reflexivity).
  assert (Ha1 : (amplitude this <=? 10) = true) by (vm_compute; reflexivity).
  assert (Hg : in_range GlitchAmplitude (glitchAmplitude this))
    by (split; vm_compute; reflexivity).
  destruct (offset_bounded host this 0.5 Hs0 Hs1 Ha0 Ha1 Hg) as (H1 & H2 & _).
  exact (conj H1 H2).
Defined.

(** X11: The passes land on whole pixels.  For a width of W whole pixels
    and a frame whose glitch does not fire, the centre is the integer half
    of W, the offset is a 32-bit integer k, and the two displaced passes are
    painted at exactly W / 2 + k and W / 2 - k: the additions of the code
    round nothing, so the two passes mirror each other about the centre. *)
Theorem passes_on_whole_pixels host this r W :
  width this = Z2number W -> (0 <= W < 2 ^ 31)%Z ->
  (r >=? glitchThreshold this) = false ->
  let center := width this >> 1 in
  let x0 := render_x0 host this r in
  exists k,
    (- 2 ^ 31 <= k < 2 ^ 31)%Z /\
    x0 = Z2number k /\ center = Z2number (W / 2) /\
    (center + x0 =? Z2number (W / 2 + k)) = true /\
    (center - x0 =? Z2number (W / 2 - k)) = true.
Proof.
  intros Ew HW Hg center x0.
  exists (ToInt32 (amplitude this * Math_sin host (Math_PI * 2 * phase this))).
  pose proof (ToInt32_range (amplitude this * Math_sin host (Math_PI * 2 * phase this))) as Hk.
  set (k := ToInt32 (amplitude this * Math_sin host (Math_PI * 2 * phase this))) in *.
  assert (Ex : x0 = Z2number k).
  { unfold x0, render_x0. cbv zeta. rewrite Hg. apply sar_0. }
  assert (Ec : center = Z2number (W / 2)).
  { unfold center. rewrite sar_1, Ew, ToInt32_whole by lia. reflexivity. }
  assert (Hh : (0 <= W / 2 < 2 ^ 31)%Z).
  { split; [apply Z.div_pos; lia|]. apply Z.div_lt_upper_bound; lia. }
  assert (B32 : (2 ^ 32 = 2 * 2 ^ 31)%Z) by reflexivity.
  assert (B53 : (2 * 2 ^ 32 < 2 ^ 53)%Z) by reflexivity.
  destruct (whole_sum (W / 2) k) as [Fs Qs]; [lia|lia|].
  destruct (whole_difference (W / 2) k) as [Fd Qd]; [lia|lia|].
  destruct (Binary64.Z2number_quanta (W / 2 + k)) as [Fs' Qs']; [lia|].
  destruct (Binary64.Z2number_quanta (W / 2 - k)) as [Fd' Qd']; [lia|].
  split; [exact Hk|]. split; [exact Ex|]. split; [exact Ec|].
  rewrite Ex, Ec. split.
  - rewrite Binary64.eqb_quanta by assumption. rewrite Qs, Qs'. apply Z.eqb_refl.
  - rewrite Binary64.eqb_quanta by assumption. rewrite Qd, Qd'. apply Z.eqb_refl.
Qed.

Lemma passes_on_whole_pixels_witness :
  let host := sample_host 0.5 in
  let this := fst (ticks host 8 (constructed (new_Glitcher host sample_viewport quarter_turn)) 0%nat) in
  exists k, render_x0 host this 0.5 = Z2number k /\
            ((width this >> 1) + render_x0 host this 0.5 =? Z2number (640 + k)) = true.
Proof.
  intros host this.
  destruct (passes_on_whole_pixels host this 0.5 1280 eq_refl ltac:(lia) eq_refl)
    as (k & _ & Ex & _ & Hs & _).
  exists k. exact (conj Ex Hs).
Defined.

(** ** The scanline pass *)

Section Row.
Import Binary64.

(** Rounding [N], a value below [H] by at least [H * 2^-53], stays below [H]. *)
Lemma rounds_below (H N Q G P : Z) rq K :
  (0 < G)%Z -> (0 < P)%Z -> (Q = 2 * P * G)%Z -> (0 < H)%Z ->
  (0 < N <= H * Q * Q - H * Q * G)%Z ->
  (2 * Z.abs (rq * Q - N) <= K)%Z ->
  (K = Q \/ (K * P <= N)%Z) ->
  (rq < H * Q)%Z.
Proof.
  intros HG HP EQ HH HN He HK.
  assert (HQ : (0 < Q)%Z) by nia.
  assert (Hlt : (K < 2 * (H * Q * G))%Z).
  { destruct HK as [->|HK].
    - nia.
    - assert (E : (H * Q * Q = P * (2 * (H * Q * G)))%Z) by (rewrite EQ; ring).
      assert (HKP : (K * P < P * (2 * (H * Q * G)))%Z) by lia.
      nia. }
  apply Z.mul_lt_mono_pos_r with Q; [exact HQ|]. lia.
Qed.

(** A whole number of pixels times a draw stays below that number. *)
Lemma below_height h r H :
  finite h -> quanta h = (H * quantum)%Z -> (0 < H < 2 ^ 31)%Z -> unit_draw r ->
  finite (h * r) /\ (0 <= quanta (h * r) < H * quantum)%Z.
Proof.
  intros Fh Qh HH Hr.
  destruct (unit_draw_quanta r Hr) as (Fr & Hr0 & Hr1).
  pose proof quantum_pos as Hq.
  assert (Hb : (Z.abs (quanta h * quanta r) < 2 ^ 3074)%Z).
  { apply (product_fits _ _ (2 ^ 31) 1); try lia.
    rewrite Qh, Z.abs_mul, (Z.abs_eq quantum), Z.abs_eq by lia.
    apply Z.mul_le_mono_nonneg_r; lia. }
  destruct (mul_quanta h r Fh Fr Hb) as (Ft & Qt).
  split; [exact Ft|]. rewrite Qt, Qh.
  set (N := (H * quantum * quanta r)%Z).
  assert (HHq : (0 <= H * quantum)%Z) by (apply Z.mul_nonneg_nonneg; lia).
  assert (HN0 : (0 <= N)%Z) by (unfold N; apply Z.mul_nonneg_nonneg; assumption).
  split.
  - rewrite <- (round_signed_0 1074) at 1. apply round_signed_mono; [lia|exact HN0].
  - destruct (Z.eq_dec N 0) as [E0|N0].
    { rewrite E0, round_signed_0. apply Z.mul_pos_pos; lia. }
    unfold round_signed. rewrite Z.sgn_pos, Z.abs_eq, Z.mul_1_l by lia.
    pose proof (round_quanta_error 1074 N ltac:(lia) HN0) as He.
    fold quantum in He.
    assert (HNlt : (N <= H * quantum * quantum - H * quantum * 2 ^ 1021)%Z).
    { unfold N. replace (H * quantum * quantum - H * quantum * 2 ^ 1021)%Z
        with (H * quantum * (quantum - 2 ^ 1021))%Z by ring.
      apply Z.mul_le_mono_nonneg_l; [exact HHq|exact Hr1]. }
    apply (rounds_below H N quantum (2 ^ 1021) (2 ^ 52) _
             (2 ^ Z.max (Z.log2 N - 52) 1074)).
    + apply pow2_pos; lia.
    + apply pow2_pos; lia.
    + reflexivity.
    + lia.
    + split; [lia|exact HNlt].
    + exact He.
    + destruct (Z.max_spec (Z.log2 N - 52) 1074) as [[_ ->]|[Hl ->]].
      * left. reflexivity.
      * right. rewrite <- Z.pow_add_r by lia.
        replace (Z.log2 N - 52 + 52)%Z with (Z.log2 N) by lia.
        apply Z.log2_spec. lia.
Qed.
End Row.

(** X12: The scanline row lies on the surface.  For a height of H whole
    pixels, 0 < H < 2^31, and a draw in [0, 1), the row
    [(height * r) >> 0] is a whole number from 0 to H - 1: the product, as
    the doubles compute it, never rounds up to [height], not even for the
    largest draw below 1. *)
Theorem scanline_row this r H :
  height this = Z2number H -> (0 < H < 2 ^ 31)%Z -> unit_draw r ->
  exists k, scanline_y this r = Z2number k /\ (0 <= k < H)%Z.
Proof.
  intros Eh HH Hr. unfold scanline_y. rewrite Eh.
  destruct (Binary64.Z2number_quanta H) as [Fh Qh]; [lia|].
  destruct (below_height _ r H Fh Qh HH Hr) as (Ft & Ht0 & Ht1).
  destruct (sar_0_between (Z2number H * r) 0 (H - 1)) as (k & Ek & Hk & _); try lia.
  exists k. split; [exact Ek|lia].
Qed.

Lemma scanline_row_witness :
  let this := constructed (new_Glitcher (sample_host 0.5) sample_viewport (only_text "HI")) in
  exists k, scanline_y this 0x1.fffffffffffffp-1 = Z2number k /\ (0 <= k < 720)%Z.
Proof.
  intros this.
  refine (scanline_row this 0x1.fffffffffffffp-1 720 _ _ _).
  - vm_compute. reflexivity.
  - lia.
  - split; vm_compute; reflexivity.
Defined.

Section PixelRow.
Import Binary64.

Lemma ToUint8Clamp_whole x k :
  finite x -> quanta x = (k * quantum)%Z -> ToUint8Clamp x = Z.max 0 (Z.min 255 k).
Proof.
  intros Fx Qx. unfold ToUint8Clamp, finite in *.
  assert (E : rne (quanta x) 1074 = k).
  { rewrite Qx. unfold quantum. rewrite rne_mul_pow2 by lia.
    change (2 ^ (1074 - 1074))%Z with 1%Z. lia. }
  destruct (Prim2SF x); cbn [SFfinite] in Fx; try discriminate; rewrite E; reflexivity.
Qed.

Lemma store_spec i v d b rest :
  skipn i d = b :: rest -> store i v d = firstn i d ++ ToUint8Clamp v :: rest.
Proof. intros E. unfold store. rewrite E. reflexivity. Qed.

Lemma skipn_cons_nth {A} (i : nat) (d : list A) :
  (i < List.length d)%nat ->
  exists b, nth_error d i = Some b /\ skipn i d = b :: skipn (S i) d /\
            firstn (S i) d = firstn i d ++ [b].
Proof.
  revert d. induction i as [|i IH]; intros [|a d] Hl; cbn in Hl; try lia.
  - exists a. repeat split.
  - destruct (IH d ltac:(lia)) as (b & E1 & E2 & E3).
    exists b. split; [exact E1|]. split; [exact E2|].
    change (firstn (S (S i)) (a :: d)) with (a :: firstn (S i) d).
    rewrite E3. reflexivity.
Qed.

(** When the loop has come down to [i], the slots from [i] on have been
    added to, each once, and the slots below are untouched. *)
Lemma brighten_from_spec s i : forall d,
  (i <= List.length d)%nat ->
  brighten_from i s d =
  map (fun b => ToUint8Clamp (Z2number b + s)) (firstn i d) ++ skipn i d.
Proof.
  induction i as [|i IH]; intros d Hl.
  - reflexivity.
  - cbn [brighten_from].
    destruct (skipn_cons_nth i d ltac:(lia)) as (b & E1 & E2 & E3).
    unfold read. rewrite E1. rewrite (store_spec i _ d b _ E2).
    assert (Hf : List.length (firstn i d) = i) by (apply firstn_length_le; lia).
    rewrite IH by (rewrite length_app, Hf; cbn; lia).
    rewrite E3, map_app, <- app_assoc. cbn [map app].
    generalize (skipn (S i) d). intros rest.
    remember (firstn i d) as l eqn:El. clear El E1 E2 E3 IH Hl.
    subst i.
    rewrite firstn_app, Nat.sub_diag, firstn_all, app_nil_r.
    rewrite skipn_length_app. reflexivity.
Qed.

Lemma brighten_map s d :
  brighten s d = map (fun b => ToUint8Clamp (Z2number b + s)) d.
Proof.
  unfold brighten. rewrite brighten_from_spec by lia.
  rewrite firstn_all, skipn_all, app_nil_r. reflexivity.
Qed.

Lemma brighten_whole k d :
  (0 <= k < 2 ^ 31)%Z -> Forall (fun b => 0 <= b <= 255)%Z d ->
  brighten (Z2number k) d = map (fun b => Z.min 255 (b + k)) d.
Proof.
  intros Hk Hd. rewrite brighten_map. apply map_ext_in. intros b Hb.
  rewrite Forall_forall in Hd. specialize (Hd b Hb). cbv beta in Hd.
  assert (B32 : (2 ^ 31 < 2 ^ 32)%Z) by (vm_compute; reflexivity).
  assert (B8 : (255 < 2 ^ 31)%Z) by (vm_compute; reflexivity).
  destruct (whole_sum b k) as [Fs Qs]; [lia|lia|].
  rewrite (ToUint8Clamp_whole _ (b + k) Fs Qs). lia.
Qed.

(** The brightness offset is a whole number from 40 to 80. *)
Lemma whole_brightness this r :
  scanlineBase this = 40 -> scanlineRange this = 40 -> unit_draw r ->
  exists k, scanline_s this r = Z2number k /\ (40 <= k <= 80)%Z.
Proof.
  intros Eb Eg Hr. unfold scanline_s. rewrite Eb, Eg.
  destruct (brightness_range r Hr) as (H40 & H80 & _).
  rewrite sar_0 in *.
  pose proof (ToInt32_range (40 + 40 * r)) as Hk.
  set (k := ToInt32 (40 + 40 * r)) in *.
  pose proof quantum_pos as Hq.
  assert (B53 : (2 ^ 31 < 2 ^ 53)%Z) by (vm_compute; reflexivity).
  destruct (Z2number_quanta k) as [Fk Qk]; [lia|].
  assert (F40 : finite 40) by reflexivity.
  assert (F80 : finite 80) by reflexivity.
  apply (leb_le 40 _ F40 Fk) in H40. apply (leb_le _ 80 Fk F80) in H80.
  rewrite Qk in H40, H80.
  change (quanta 40) with (40 * quantum)%Z in H40.
  change (quanta 80) with (80 * quantum)%Z in H80.
  exists k. split; [reflexivity|nia].
Qed.
End PixelRow.

(** X13: The scanline loop adds with saturation.  The loop of
    [renderScanline] visits every byte of the row exactly once.  The row
    being a clamped byte array, a whole offset k >= 0 turns each byte b into
    min(255, b + k): the row keeps its length, no byte decreases or wraps
    around, and all four bytes of a pixel are raised, alpha included.  The
    offset the method samples is such a k, between 40 and 80. *)
Theorem brighten_saturates d :
  Forall (fun b => 0 <= b <= 255)%Z d ->
  (forall k,
     (0 <= k < 2 ^ 31)%Z ->
     brighten (Z2number k) d = map (fun b => Z.min 255 (b + k)) d /\
     List.length (brighten (Z2number k) d) = List.length d /\
     Forall2 (fun b b' => (b <= b' <= 255 /\ (b' = 255 \/ b' = b + k))%Z)
             d (brighten (Z2number k) d)) /\
  (forall this r,
     scanlineBase this = 40 -> scanlineRange this = 40 -> unit_draw r ->
     exists k, (40 <= k <= 80)%Z /\ scanline_s this r = Z2number k /\
               brighten (scanline_s this r) d = map (fun b => Z.min 255 (b + k)) d).
Proof.
  intros Hd. split.
  - intros k Hk.
    pose proof (brighten_whole k d Hk Hd) as E.
    split; [exact E|]. split; [rewrite E; apply length_map|].
    rewrite E. clear E. induction Hd as [|b d Hb Hd IH]; cbn [map]; constructor.
    + lia.
    + exact IH.
  - intros this r Eb Eg Hr.
    destruct (whole_brightness this r Eb Eg Hr) as (k & Ek & Hk).
    exists k. split; [exact Hk|]. split; [exact Ek|].
    rewrite Ek. apply brighten_whole; [|exact Hd].
    assert (B : (80 < 2 ^ 31)%Z) by (vm_compute; reflexivity). lia.
Qed.

Lemma brighten_saturates_witness :
  brighten 60 [0; 100; 200; 255]%Z = [60; 160; 255; 255]%Z.
Proof.
  destruct (brighten_saturates [0; 100; 200; 255]%Z) as [E _].
  - repeat constructor; lia.
  - destruct (E 60%Z ltac:(lia)) as [E60 _]. exact E60.
Defined.

(** ** Invariants of the animation state *)

Section PhaseRange.
Import Binary64.
Variable host : Host.

Lemma phase_stays this n :
  in_range PhaseStep (phaseStep this) ->
  (0 <=? phase this) = true -> (phase this <=? 1) = true ->
  (0 <=? phase (fst (tick host this n))) = true /\
  (phase (fst (tick host this n)) <=? 1) = true.
Proof.
  intros Hp H0 H1.
  destruct (in_range_quanta PhaseStep _ Hp) as (Fp & Hp0 & Hp1).
  change (quanta (upper PhaseStep)) with quantum in Hp1.
  assert (F0 : finite 0) by reflexivity.
  assert (F1 : finite 1) by reflexivity.
  destruct (between_quanta 0 1 (phase this) F0 F1 H0 H1) as (Fx & Hx0 & Hx1).
  change (quanta 0) with 0%Z in Hx0. change (quanta 1) with quantum in Hx1.
  rewrite tick_phase. unfold wraps.
  destruct (phase this + phaseStep this >? 1) eqn:W.
  - split; reflexivity.
  - destruct (step_error _ _ Fx (conj Hx0 Hx1) Fp (conj Hp0 Hp1) W) as (Fs & [Hs0 Hs1] & _).
    split; apply le_leb; assumption.
Qed.

(** From phase 0 one step never exceeds 1. *)
Lemma step_from_zero p : in_range PhaseStep p -> (0 + p >? 1) = false.
Proof.
  intros Hp.
  destruct (in_range_quanta PhaseStep _ Hp) as (Fp & Hp0 & Hp1).
  change (quanta (upper PhaseStep)) with quantum in Hp1.
  assert (F0 : finite 0) by reflexivity.
  assert (F1 : finite 1) by reflexivity.
  pose proof quantum_pos as Hq.
  assert (Hb : (Z.abs (quanta 0 + quanta p) < 2 ^ 2000)%Z).
  { apply (sum_fits _ _ 0 1); try lia; rewrite Z.abs_eq; try lia;
      change (quanta 0) with 0%Z; lia. }
  destruct (add_quanta 0 p F0 Fp Hb) as (Fs & Qs).
  change (quanta 0) with 0%Z in Qs. rewrite Z.add_0_l, (quanta_exact_id _ Fp) in Qs.
  rewrite ltb_quanta by assumption. rewrite Qs.
  change (quanta 1) with quantum. apply Z.ltb_ge. exact Hp1.
Qed.

Lemma after_wrap this n :
  in_range PhaseStep (phaseStep this) -> wraps this = true ->
  wraps (fst (tick host this n)) = false.
Proof.
  intros Hp W. unfold wraps at 1. rewrite tick_phase, W.
  destruct (tick_config host this n) as (-> & _).
  apply step_from_zero, Hp.
Qed.
End PhaseRange.

(** X14: The phase stays in the closed unit interval.  With [phaseStep]
    in [[0, 1]], a phase that starts in [[0, 1]] (a constructed instance
    starts at 0) is in [[0, 1]] after every frame.  The value 1 itself
    occurs: a frame wraps when the advanced phase exceeds 1, not when it
    reaches it. *)
Theorem phase_in_unit_interval host this0 k n :
  in_range PhaseStep (phaseStep this0) ->
  (0 <=? phase this0) = true -> (phase this0 <=? 1) = true ->
  let this := fst (ticks host k this0 n) in
  (0 <=? phase this) = true /\ (phase this <=? 1) = true.
Proof.
  intros Hp H0 H1 this. unfold this. clear this.
  revert this0 n Hp H0 H1. induction k as [|k IH]; intros this0 n Hp H0 H1.
  - split; assumption.
  - rewrite ticks_S.
    destruct (phase_stays host this0 n Hp H0 H1) as [H0' H1'].
    apply IH; [|assumption|assumption].
    destruct (tick_config host this0 n) as (-> & _). exact Hp.
Qed.

Lemma phase_in_unit_interval_witness :
  let host := sample_host 0.5 in
  let this0 := constructed (new_Glitcher host sample_viewport quarter_turn) in
  phase (fst (ticks host 4 this0 0%nat)) = 1 /\
  (phase (fst (ticks host 4 this0 0%nat)) <=? 1) = true.
Proof.
  intros host this0.
  split; [vm_compute; reflexivity|].
  exact (proj2 (phase_in_unit_interval host this0 4 0%nat
                  (conj eq_refl eq_refl) eq_refl eq_refl)).
Defined.

(** X15: Wraps are never consecutive.  With [phaseStep] in [[0, 1]] a
    frame that starts from phase 0 does not wrap; a wrapping frame leaves
    the phase at 0, so the frame after it does not wrap and keeps the
    channel.  In particular the first frame of a constructed instance never
    wraps, and with [phaseStep = 1] only every second frame does. *)
Theorem wraps_never_consecutive host this n :
  in_range PhaseStep (phaseStep this) ->
  (phase this = 0 -> wraps this = false) /\
  (wraps this = true ->
   let next := fst (tick host this n) in
   wraps next = false /\
   forall m, channel (fst (tick host next m)) = channel next).
Proof.
  intros Hp. split.
  - intros E0. unfold wraps. rewrite E0. apply step_from_zero, Hp.
  - intros W next. subst next.
    pose proof (after_wrap host this n Hp W) as H.
    split; [exact H|]. intros m. rewrite tick_channel, H. reflexivity.
Qed.

Lemma wraps_never_consecutive_witness :
  let host := sample_host 0.5 in
  let this := fst (ticks host 4 (constructed (new_Glitcher host sample_viewport quarter_turn)) 0%nat) in
  wraps this = true /\ wraps (fst (tick host this 24%nat)) = false.
Proof.
  intros host this.
  assert (W : wraps this = true) by (vm_compute; reflexivity).
  split; [exact W|].
  exact (proj1 (proj2 (wraps_never_consecutive host this 24%nat (conj eq_refl eq_refl)) W)).
Defined.

Section Recurrence.
Variable host : Host.

(** Either none of the first [K] frames wraps, or one of them does. *)
Lemma first_wrap this0 n K :
  (forall j, (j < K)%nat -> wraps (fst (ticks host j this0 n)) = false) \/
  (exists j, (j < K)%nat /\ wraps (fst (ticks host j this0 n)) = true).
Proof.
  induction K as [|K [IH|IH]].
  - left. intros j Hj. lia.
  - destruct (wraps (fst (ticks host K this0 n))) eqn:W.
    + right. exists K. split; [lia|exact W].
    + left. intros j Hj.
      destruct (Nat.eq_dec j K) as [->|Hne]; [exact W|apply IH; lia].
  - right. destruct IH as (j & Hj & W). exists j. split; [lia|exact W].
Qed.
End Recurrence.

(** X17: The next wrap comes within 2 / phaseStep frames.  While frames
    run (the row of the scanline can be read), from phase 0 (a constructed
    instance, or the state a wrap leaves) and with [phaseStep] between
    2^-52 and 1, some frame j with j * phaseStep <= 2 wraps: the rounding
    of the additions, at most 2^-53 each, cannot hold the phase back for
    long, so the channel keeps rotating. *)
Theorem wrap_within host this0 n :
  Canvas.getImageData_returns (width this0) 1 = true ->
  phase this0 = 0 -> in_range PhaseStep (phaseStep this0) ->
  (0x1p-52 <=? phaseStep this0) = true ->
  exists j,
    wraps (fst (ticks host j this0 n)) = true /\
    (Z.of_nat j * quanta (phaseStep this0) <= 2 * quantum)%Z.
Proof.
  intros _ E0 Hp Hmin.
  destruct (in_range_quanta PhaseStep _ Hp) as (Fp & Hp0 & Hp1).
  change (quanta (upper PhaseStep)) with quantum in Hp1.
  assert (Fm : finite 0x1p-52) by reflexivity.
  pose proof (leb_le _ _ Fm Fp Hmin) as Hlow.
  pose proof quantum_pos as Hq.
  remember (2 ^ 1021)%Z as G eqn:EG.
  assert (PG : (0 < G)%Z) by (subst G; apply Binary64.pow2_pos; lia).
  assert (E1022 : quanta 0x1p-52 = (2 * G)%Z) by (subst G; reflexivity).
  rewrite E1022 in Hlow. clear E1022.
  set (p := quanta (phaseStep this0)) in *.
  set (K := Z.to_nat (2 * quantum / p + 1)).
  assert (Hdiv : (0 <= 2 * quantum / p)%Z) by (apply Z.div_pos; lia).
  assert (HK : (Z.of_nat K = 2 * quantum / p + 1)%Z) by (unfold K; lia).
  destruct (first_wrap host this0 n K) as [Hnone|(j & Hj & W)].
  - exfalso.
    destruct (phase_drift host this0 n E0 Hp K Hnone) as (_ & [_ Hle] & Hd).
    fold p in Hd. rewrite <- EG in Hd.
    pose proof (Z.mul_succ_div_gt (2 * quantum) p ltac:(lia)) as Hgt.
    assert (Hk0 : (0 <= Z.of_nat K)%Z) by lia.
    assert (Hlow' : (Z.of_nat K * p - Z.of_nat K * G
                     <= quanta (phase (fst (ticks host K this0 n))))%Z) by lia.
    assert (Hhalf : (Z.of_nat K * (2 * G) <= Z.of_nat K * p)%Z)
      by (apply Z.mul_le_mono_nonneg_l; lia).
    assert (Hbig : (2 * quantum < Z.of_nat K * p)%Z) by (rewrite HK; lia).
    lia.
  - exists j. split; [exact W|].
    assert (Hjz : (Z.of_nat j <= 2 * quantum / p)%Z) by lia.
    pose proof (Z.mul_div_le (2 * quantum) p ltac:(lia)) as Hm.
    apply Z.le_trans with (2 * quantum / p * p)%Z; [|lia].
    apply Z.mul_le_mono_nonneg_r; lia.
Qed.

Lemma wrap_within_witness :
  let host := sample_host 0.5 in
  let this0 := constructed (new_Glitcher host sample_viewport quarter_turn) in
  exists j, wraps (fst (ticks host j this0 0%nat)) = true /\ (j <= 8)%nat.
Proof.
  intros host this0.
  assert (Hw : Canvas.getImageData_returns (width this0) 1 = true)
    by (vm_compute; reflexivity).
  destruct (wrap_within host this0 0%nat Hw eq_refl (conj eq_refl eq_refl) eq_refl)
    as (j & W & Hj).
  exists j. split; [exact W|].
  assert (E : quanta (phaseStep this0) = (2 ^ 1072)%Z) by (vm_compute; reflexivity).
  rewrite E in Hj. unfold quantum in Hj.
  remember (2 ^ 1072)%Z as T eqn:ET.
  assert (PT : (0 < T)%Z) by (subst T; apply Binary64.pow2_pos; lia).
  assert (E4 : (2 ^ 1074 = 4 * T)%Z) by (subst T; reflexivity).
  rewrite E4 in Hj. clear ET E4 E. nia.
Defined.

Section AmplitudeRange.
Import Binary64.
Variable host : Host.

Lemma leb_trans x y z :
  finite x -> finite y -> finite z ->
  (x <=? y) = true -> (y <=? z) = true -> (x <=? z) = true.
Proof.
  intros Fx Fy Fz H1 H2. apply le_leb; try assumption.
  apply Z.le_trans with (quanta y); apply leb_le; assumption.
Qed.

(** The largest amplitude the documented ranges allow. *)
Lemma amplitude_ceiling b g :
  in_range AmplitudeBase b -> in_range AmplitudeRange g ->
  finite (b + g) /\ (b + g <=? 10) = true.
Proof.
  intros Hb Hg.
  destruct (in_range_quanta _ _ Hb) as (Fb & Hb0 & Hb1).
  destruct (in_range_quanta _ _ Hg) as (Fg & Hg0 & Hg1).
  change (quanta (upper AmplitudeBase)) with (5 * quantum)%Z in Hb1.
  change (quanta (upper AmplitudeRange)) with (5 * quantum)%Z in Hg1.
  pose proof quantum_pos as Hq.
  assert (Hs : (Z.abs (quanta b + quanta g) < 2 ^ 2000)%Z).
  { apply (sum_fits _ _ 5 5); try lia; rewrite Z.abs_eq by lia; lia. }
  destruct (add_quanta b g Fb Fg Hs) as (Fs & Qs).
  split; [exact Fs|].
  apply le_leb; [exact Fs|reflexivity|].
  rewrite Qs. change (quanta 10) with (10 * quantum)%Z.
  apply Z.le_trans with (round_signed 0 (10 * quantum)).
  - apply round_signed_mono; lia.
  - apply Z.eq_le_incl. vm_compute. reflexivity.
Qed.

Lemma ticks_amplitude k : forall this n,
  in_range AmplitudeBase (amplitudeBase this) ->
  in_range AmplitudeRange (amplitudeRange this) ->
  (forall i, unit_draw (Math_random host i)) ->
  amplitude (fst (ticks host k this n)) = amplitude this \/
  ((amplitudeBase this <=? amplitude (fst (ticks host k this n))) = true /\
   (amplitude (fst (ticks host k this n)) <=? amplitudeBase this + amplitudeRange this) = true).
Proof.
  induction k as [|k IH]; intros this n Hb Hg Hr.
  - left. reflexivity.
  - rewrite ticks_snoc. rewrite tick_amplitude.
    destruct (ticks_keep host k this n) as (p & c & a & ctx & E).
    assert (Eb : amplitudeBase (fst (ticks host k this n)) = amplitudeBase this)
      by (rewrite E; open_glitcher this; reflexivity).
    assert (Eg : amplitudeRange (fst (ticks host k this n)) = amplitudeRange this)
      by (rewrite E; open_glitcher this; reflexivity).
    rewrite Eb, Eg.
    destruct (wraps (fst (ticks host k this n))).
    + right. apply resampled_range; auto.
    + apply IH; assumption.
Qed.
End AmplitudeRange.

(** X16: The amplitude across frames.  With [amplitudeBase] and
    [amplitudeRange] in [[0, 5]] and draws in [0, 1), the amplitude after
    any number of frames is either the one the frames started from (0 for a
    constructed instance) or lies between [amplitudeBase] and
    [amplitudeBase + amplitudeRange], hence between 0 and 10. *)
Theorem amplitude_invariant host this0 k n :
  in_range AmplitudeBase (amplitudeBase this0) ->
  in_range AmplitudeRange (amplitudeRange this0) ->
  (forall i, unit_draw (Math_random host i)) ->
  let a := amplitude (fst (ticks host k this0 n)) in
  a = amplitude this0 \/
  ((amplitudeBase this0 <=? a) = true /\
   (a <=? amplitudeBase this0 + amplitudeRange this0) = true /\
   (0 <=? a) = true /\ (a <=? 10) = true).
Proof.
  intros Hb Hg Hr a.
  destruct (ticks_amplitude host k this0 n Hb Hg Hr) as [E|[H1 H2]]; [left; exact E|].
  right. fold a in H1, H2.
  destruct (amplitude_ceiling _ _ Hb Hg) as (Fs & Hs).
  destruct (in_range_quanta _ _ Hb) as (Fb & Hb0 & _).
  assert (Fa : finite a).
  { apply (Binary64.finite_between (amplitudeBase this0)
             (amplitudeBase this0 + amplitudeRange this0)); auto. }
  repeat split; try assumption.
  - apply (leb_trans 0 (amplitudeBase this0) a); try assumption; try reflexivity.
    apply Hb.
  - apply (leb_trans a (amplitudeBase this0 + amplitudeRange this0) 10);
      try assumption; reflexivity.
Qed.

Lemma amplitude_invariant_witness :
  let host := sample_host 0.5 in
  let this0 := constructed (new_Glitcher host sample_viewport (only_text "HI")) in
  let a := amplitude (fst (ticks host 21 this0 0%nat)) in
  a = 3 /\ (a = amplitude this0 \/ ((2 <=? a) = true /\ (a <=? 10) = true)).
Proof.
  intros host this0 a.
  split; [vm_compute; reflexivity|].
  destruct (amplitude_invariant host this0 21 0%nat
              (conj eq_refl eq_refl) (conj eq_refl eq_refl)
              (fun i => conj eq_refl eq_refl)) as [E|(H1 & _ & _ & H4)].
  - left. exact E.
  - right. exact (conj H1 H4).
Defined.
